(** * Facebook ad campaign notebook: A/B aggregation and click-prediction data pipeline

    A shallow embedding of the data-handling cells of
    [full_facebook_ad_project.ipynb]: the derived [CTR] column, the seeded
    variant assignment and per-variant aggregation, the [Clicked] target, the
    label encoding of the feature columns and the train/test split.

    The notebook is a sequence of calls into pandas, numpy and scikit-learn.
    Each call is embedded by the behaviour of the library routine it runs, on
    the dtypes the notebook feeds it: int64 columns with two's-complement
    wrap-around, object columns of [str], the MT19937 bit generator behind
    [np.random.seed] and [RandomState(42)], [LabelEncoder] and
    [train_test_split].  The z-test cell, which only reads [grouped], and
    the scoring of the evaluation cell, a function of the labels and of
    whatever probabilities the network returns, are embedded after the
    cells that bind tables.  The plotting cells and the Keras model are not
    part of the embedding. *)

From Stdlib Require Import ZArith QArith Lia Permutation.
From Stdlib Require Import Reals Lra.
From stdpp Require Import base option list sorting gmap strings.

(** ** Python exceptions as an error monad *)

Inductive exn :=
  | KeyError (k : string)     (* missing column *)
  | NameError (v : string)    (* notebook variable not bound yet *)
  | TypeError
  | ValueError
  | IndexError
  | NotModelled               (* a dtype or code path outside this embedding *)
  | OutOfFuel.                (* a rejection-sampling loop exceeded its fuel *)

Inductive result (A : Type) :=
  | Ok (a : A)
  | Raise (e : exn).
Arguments Ok {A} a.
Arguments Raise {A} e.

#[global] Instance result_ret : MRet result := λ A a, Ok a.
#[global] Instance result_bind : MBind result := λ A B f m,
  match m with Ok a => f a | Raise e => Raise e end.
#[global] Instance result_fmap : FMap result := λ A B f m,
  match m with Ok a => Ok (f a) | Raise e => Raise e end.

Definition is_Ok {A} (r : result A) : Prop := ∃ a, r = Ok a.

Definition from_opt {A} (e : exn) (o : option A) : result A :=
  match o with Some a => Ok a | None => Raise e end.

(** ** int64 arithmetic *)

Module Int64.
Local Open Scope Z_scope.

Definition min_int : Z := - 2 ^ 63.
Definition max_int : Z := 2 ^ 63 - 1.

Definition in_range (z : Z) : Prop := min_int ≤ z ≤ max_int.

(** Two's-complement reduction of a mathematical integer to int64. *)
Definition wrap (z : Z) : Z := (z + 2 ^ 63) mod 2 ^ 64 - 2 ^ 63.

Definition add (a b : Z) : Z := wrap (a + b).

(** [ndarray.sum] on an int64 array: accumulation in int64. *)
Definition sum (l : list Z) : Z := fold_left add l 0.

(** The mathematical sum, for comparison. *)
Definition total (l : list Z) : Z := fold_right Z.add 0 l.
End Int64.

(** ** float64 values

    The values of a float64 cell.  The non-finite values are the IEEE 754
    ones; a finite value is carried as the exact rational, so the rounding of
    a quotient to 53 bits is not represented. *)

Inductive float64 :=
  | Fin (q : Q)
  | PosInf
  | NegInf
  | NaN.

(** [numpy.true_divide] on two int64 operands: both are converted to float64
    and divided; division by zero yields an infinity or NaN, never an
    exception. *)
Definition truediv_int64 (a b : Z) : float64 :=
  if (b =? 0)%Z then
    if (a =? 0)%Z then NaN else if (a <? 0)%Z then NegInf else PosInf
  else Fin (Qred (inject_Z a / inject_Z b)).


(** [0 <= x <= 1] on float64 (every comparison with NaN is false). *)
Definition in_unit_interval (x : float64) : bool :=
  match x with
  | Fin q => Qle_bool 0 q && Qle_bool q 1
  | _ => false
  end.

(** ** numpy's legacy generator: MT19937 *)

Module MT19937.
Local Open Scope Z_scope.

Definition RK_STATE_LEN : nat := 624.
Definition N : nat := 624.
Definition M : nat := 397.
Definition MATRIX_A : Z := 0x9908b0df.
Definition UPPER_MASK : Z := 0x80000000.
Definition LOWER_MASK : Z := 0x7fffffff.

Definition u32 (x : Z) : Z := Z.land x 0xffffffff.

Record mt19937_state := mk_state { key : list Z; pos : nat }.

Fixpoint seed_loop (n : nat) (p : Z) (seed : Z) : list Z :=
  match n with
  | O => []
  | S n' =>
      seed :: seed_loop n' (p + 1)
                (u32 (1812433253 * Z.lxor seed (Z.shiftr seed 30) + p + 1))
  end.

(** [mt19937_seed]: the state is overwritten, whatever it was. *)
Definition mt19937_seed (seed : Z) : mt19937_state :=
  mk_state (seed_loop RK_STATE_LEN 0 (u32 seed)) RK_STATE_LEN.

Definition word (k : list Z) (i : nat) : Z := default 0 (k !! i).

(** One step of the in-place regeneration:
    [y = (key[i] & UPPER) | (key[j] & LOWER);
     key[i] = key[m] ^ (y >> 1) ^ (-(y & 1) & MATRIX_A)]. *)
Definition twist (k : list Z) (i j m : nat) : list Z :=
  let y := Z.lor (Z.land (word k i) UPPER_MASK) (Z.land (word k j) LOWER_MASK) in
  <[i := Z.lxor (Z.lxor (word k m) (Z.shiftr y 1))
                (if Z.testbit y 0 then MATRIX_A else 0)]> k.

Definition mt19937_gen (st : mt19937_state) : mt19937_state :=
  let k1 := fold_left (λ k i, twist k i (i + 1) (i + M))
                      (seq 0 (N - M)) (key st) in
  let k2 := fold_left (λ k i, twist k i (i + 1) (i + M - N))
                      (seq (N - M) (M - 1)) k1 in
  mk_state (twist k2 (N - 1) 0 (M - 1)) 0.

Definition temper (y : Z) : Z :=
  let y := Z.lxor y (Z.shiftr y 11) in
  let y := Z.lxor y (Z.land (u32 (Z.shiftl y 7)) 0x9d2c5680) in
  let y := Z.lxor y (Z.land (u32 (Z.shiftl y 15)) 0xefc60000) in
  Z.lxor y (Z.shiftr y 18).

(** [mt19937_next]: one 32-bit draw. *)
Definition mt19937_next (st : mt19937_state) : Z * mt19937_state :=
  let st := if Nat.eqb (pos st) RK_STATE_LEN then mt19937_gen st else st in
  (temper (word (key st) (pos st)), mk_state (key st) (S (pos st))).
End MT19937.
Export MT19937.

Module NpRandom.
Local Open Scope Z_scope.

(** Smallest bit mask [>= max]. *)
Definition gen_mask (max : Z) : Z :=
  let m := max in
  let m := Z.lor m (Z.shiftr m 1) in
  let m := Z.lor m (Z.shiftr m 2) in
  let m := Z.lor m (Z.shiftr m 4) in
  let m := Z.lor m (Z.shiftr m 8) in
  let m := Z.lor m (Z.shiftr m 16) in
  Z.lor m (Z.shiftr m 32).

(** The rejection loop [while ((value = next_uint32 & mask) > max);] shared
    by [random_interval] and [buffered_bounded_masked_uint32]. *)
Fixpoint masked_loop (fuel : nat) (max mask : Z) (st : mt19937_state)
  : result (Z * mt19937_state) :=
  match fuel with
  | O => Raise OutOfFuel
  | S f =>
      let '(w, st') := mt19937_next st in
      let v := Z.land w mask in
      if v <=? max then Ok (v, st') else masked_loop f max mask st'
  end.

(** [random_interval(max)]: a value in [0..max].  Ranges beyond 32 bits
    take 64-bit draws and are outside the embedding. *)
Definition random_interval (fuel : nat) (max : Z) (st : mt19937_state)
  : result (Z * mt19937_state) :=
  if max =? 0 then Ok (0, st)
  else if max <=? 0xffffffff then masked_loop fuel max (gen_mask max) st
  else Raise NotModelled.

(** [randint(0, high, size)] for the default int64 dtype:
    [rng = high - 1]; no draw at all when [rng = 0], a plain 32-bit draw
    when [rng = 0xFFFFFFFF], the masked rejection loop otherwise. *)
Definition bounded_draw (fuel : nat) (rng : Z) (st : mt19937_state)
  : result (Z * mt19937_state) :=
  if rng =? 0 then Ok (0, st)
  else if rng =? 0xffffffff then Ok (mt19937_next st)
  else if rng <? 0xffffffff then masked_loop fuel rng (gen_mask rng) st
  else Raise NotModelled.

Fixpoint randint0 (fuel : nat) (high : Z) (size : nat) (st : mt19937_state)
  : result (list Z * mt19937_state) :=
  match size with
  | O => Ok ([], st)
  | S n =>
      '(v, st1) ← bounded_draw fuel (high - 1) st;
      '(vs, st2) ← randint0 fuel high n st1;
      Ok (v :: vs, st2)
  end.

(** [RandomState.choice(a, size)] with replacement and no weights:
    [idx = randint(0, len(a), size); return a[idx]]. *)
Definition choice {A} (fuel : nat) (a : list A) (size : nat)
    (st : mt19937_state) : result (list A * mt19937_state) :=
  match a, size with
  | [], S _ => Raise ValueError
  | _, _ =>
      '(idx, st') ← randint0 fuel (Z.of_nat (length a)) size st;
      vs ← from_opt IndexError (mapM (λ i : Z, a !! Z.to_nat i) idx);
      Ok (vs, st')
  end.

Definition swap {A} (l : list A) (i j : nat) : list A :=
  match l !! i, l !! j with
  | Some a, Some b => <[i := b]> (<[j := a]> l)
  | _, _ => l
  end.

(** [_shuffle_raw]: [for i in reversed(range(1, n)):
      j = random_interval(i); swap data[i], data[j]]. *)
Fixpoint shuffle_raw {A} (fuel : nat) (i : nat) (data : list A)
    (st : mt19937_state) : result (list A * mt19937_state) :=
  match i with
  | O => Ok (data, st)
  | S i' =>
      '(j, st') ← random_interval fuel (Z.of_nat i) st;
      shuffle_raw fuel i' (swap data i (Z.to_nat j)) st'
  end.

(** [RandomState.permutation(n)]: shuffle of [arange(n)]. *)
Definition permutation (fuel : nat) (n : nat) (st : mt19937_state)
  : result (list nat * mt19937_state) :=
  shuffle_raw fuel (n - 1) (seq 0 n) st.

(** Fuel given to each rejection loop.  A loop iteration accepts with
    probability above one half; a run that exhausts the fuel is reported
    as [OutOfFuel], never as a result. *)
Definition default_fuel : nat := 256.
End NpRandom.

(** ** pandas: Series, Index, DataFrame *)

(** A column with its dtype: int64, float64, or object holding [str]. *)
Inductive Series :=
  | SInt (xs : list Z)
  | SFloat (xs : list float64)
  | SStr (xs : list string).

Definition series_len (s : Series) : nat :=
  match s with
  | SInt xs => length xs
  | SFloat xs => length xs
  | SStr xs => length xs
  end.

Inductive Index :=
  | RangeIndex (stop : nat)            (* 0 .. stop-1, as [read_csv] builds it *)
  | LabelIndex (labels : list string). (* group keys of a [groupby] result *)

Definition index_len (i : Index) : nat :=
  match i with
  | RangeIndex n => n
  | LabelIndex ks => length ks
  end.

Record DataFrame := mkDF {
  index : Index;
  columns : gmap string Series
}.

(** [len(df)] *)
Definition len (d : DataFrame) : nat := index_len (index d).

(** [df[k]] *)
Definition getitem (d : DataFrame) (k : string) : result Series :=
  from_opt (KeyError k) (columns d !! k).

(** [df[k] = s]: the column is added, or replaced when [k] exists; a value of
    the wrong length is a [ValueError]. *)
Definition setitem (d : DataFrame) (k : string) (s : Series) : result DataFrame :=
  if decide (series_len s = len d)
  then Ok (mkDF (index d) (<[k := s]> (columns d)))
  else Raise ValueError.

(** [df[[k1; ...; kn]]]: a new frame with the selected columns. *)
Fixpoint select_columns (d : DataFrame) (ks : list string)
  : result (gmap string Series) :=
  match ks with
  | [] => Ok ∅
  | k :: ks' =>
      s ← getitem d k;
      m ← select_columns d ks';
      Ok (<[k := s]> m)
  end.

Definition getitem_list (d : DataFrame) (ks : list string) : result DataFrame :=
  m ← select_columns d ks; Ok (mkDF (index d) m).

(** [a / b] on two columns of one frame: element-wise true division. *)
Definition series_truediv (a b : Series) : result Series :=
  match a, b with
  | SInt xs, SInt ys => Ok (SFloat (zip_with truediv_int64 xs ys))
  | SStr _, _ | _, SStr _ => Raise TypeError
  | _, _ => Raise NotModelled
  end.

(** [(s > 0).astype(int)] *)
Definition series_gt0_astype_int (s : Series) : result Series :=
  match s with
  | SInt xs => Ok (SInt ((λ x : Z, if (0 <? x)%Z then 1%Z else 0%Z) <$> xs))
  | SStr _ => Raise TypeError
  | SFloat _ => Raise NotModelled
  end.

(** *** groupby(by).agg({col: 'sum', ...}) *)

(** The group keys: the distinct values of the key column, sorted. *)
Definition group_keys (keys : list string) : list string :=
  merge_sort String.le (remove_dups keys).

(** The rows of one group, in table order. *)
Definition group_rows (keys : list string) (vals : list Z) (k : string) : list Z :=
  (filter (λ kv, kv.1 = k) (zip keys vals)).*2.

Definition group_sum (keys : list string) (vals : list Z) (k : string) : Z :=
  Int64.sum (group_rows keys vals k).

Fixpoint agg_sum_columns (d : DataFrame) (keys : list string)
    (cols : list string) : result (gmap string Series) :=
  match cols with
  | [] => Ok ∅
  | c :: cols' =>
      s ← getitem d c;
      m ← agg_sum_columns d keys cols';
      match s with
      | SInt vals => Ok (<[c := SInt (group_sum keys vals <$> group_keys keys)]> m)
      | _ => Raise NotModelled
      end
  end.

Definition groupby_agg_sum (d : DataFrame) (by_ : string) (cols : list string)
  : result DataFrame :=
  ks ← getitem d by_;
  match ks with
  | SStr keys =>
      m ← agg_sum_columns d keys cols;
      Ok (mkDF (LabelIndex (group_keys keys)) m)
  | _ => Raise NotModelled
  end.

(** [df[cols].values] for int64 columns: the rows of the 2-D array. *)
Fixpoint int_columns (d : DataFrame) (cols : list string) : result (list (list Z)) :=
  match cols with
  | [] => Ok []
  | c :: cols' =>
      s ← getitem d c;
      rest ← int_columns d cols';
      match s with
      | SInt xs => Ok (xs :: rest)
      | _ => Raise NotModelled
      end
  end.

Definition row_at (cols : list (list Z)) (i : nat) : list Z :=
  (λ c : list Z, default 0%Z (c !! i)) <$> cols.

Definition values (d : DataFrame) (cols : list string) : result (list (list Z)) :=
  cs ← int_columns d cols;
  Ok (row_at cs <$> seq 0 (len d)).

(** ** scikit-learn: LabelEncoder *)

Section encoder.
Context `{Countable A} (R : relation A) `{!RelDecision R}.

(** [_unique_python]: [uniques = sorted(set(values))]. *)
Definition unique_python (values : list A) : list A :=
  merge_sort R (elements (list_to_set values : gset A)).

(** [table = {val: i for i, val in enumerate(uniques)}] *)
Definition code_table (uniques : list A) : gmap A nat :=
  fold_left (λ (t : gmap A nat) '(i, v), <[v := i]> t) (imap pair uniques) ∅.

(** [_map_to_integer]: [[table[v] for v in values]]; a value that is not a
    key of the table is reported as a [ValueError] (previously unseen
    label). *)
Definition map_to_integer (values uniques : list A) : result (list nat) :=
  let table := code_table uniques in
  mapM (λ v, from_opt ValueError (table !! v)) values.

(** [classes_[y]], after the check that every code is in
    [arange(len(classes_))]. *)
Definition decode_codes (classes : list A) (codes : list nat) : result (list A) :=
  mapM (λ c, from_opt ValueError (classes !! c)) codes.
End encoder.

(** The fitted encoder: its [classes_] array. *)
Record LabelEncoder := mkLE { classes_ : Series }.

Definition int_codes (cs : list nat) : Series := SInt (Z.of_nat <$> cs).

(** [le.fit_transform(y)]: [classes_, y = _unique(y, return_inverse=True)]. *)
Definition fit_transform (s : Series) : result (LabelEncoder * Series) :=
  match s with
  | SStr vs =>
      let cl := unique_python String.le vs in
      cs ← map_to_integer vs cl; Ok (mkLE (SStr cl), int_codes cs)
  | SInt vs =>
      let cl := unique_python Z.le vs in
      cs ← map_to_integer vs cl; Ok (mkLE (SInt cl), int_codes cs)
  | SFloat _ => Raise NotModelled
  end.

(** [le.transform(y)] *)
Definition transform (le : LabelEncoder) (s : Series) : result Series :=
  match classes_ le, s with
  | SStr cl, SStr vs => int_codes <$> map_to_integer vs cl
  | SInt cl, SInt vs => int_codes <$> map_to_integer vs cl
  | SFloat _, _ | _, SFloat _ => Raise NotModelled
  | _, _ => Raise ValueError
  end.

Definition code_index (z : Z) : result nat :=
  if (z <? 0)%Z then Raise ValueError else Ok (Z.to_nat z).

(** [le.inverse_transform(y)] *)
Definition inverse_transform (le : LabelEncoder) (s : Series) : result Series :=
  match s with
  | SInt zs =>
      cs ← mapM code_index zs;
      match classes_ le with
      | SStr cl => SStr <$> decode_codes cl cs
      | SInt cl => SInt <$> decode_codes cl cs
      | SFloat _ => Raise NotModelled
      end
  | _ => Raise ValueError
  end.

(** ** scikit-learn: train_test_split(X, y, test_size=0.2, random_state=42) *)

(** [n_test = ceil(0.2 * n_samples)].  The product is a float64; since the
    float64 nearest to 0.2 exceeds 1/5 by a relative 2^-54, its ceiling is
    the ceiling of n/5 for every table size below 2^50, which is what is
    computed here. *)
Definition n_test_of (n_samples : nat) : nat := (n_samples + 4) / 5.

(** [_validate_shuffle_split]: an empty training set is a [ValueError]. *)
Definition validate_shuffle_split (n_samples : nat) : result (nat * nat) :=
  let n_test := n_test_of n_samples in
  let n_train := n_samples - n_test in
  if decide (n_train = 0) then Raise ValueError else Ok (n_train, n_test).

(** [ShuffleSplit._iter_indices], first split:
    [permutation = RandomState(42).permutation(n_samples)],
    [ind_test = permutation[:n_test]],
    [ind_train = permutation[n_test:n_test + n_train]]. *)
Definition shuffle_split (n_samples : nat) : result (list nat * list nat) :=
  '(n_train, n_test) ← validate_shuffle_split n_samples;
  '(perm, _) ← NpRandom.permutation NpRandom.default_fuel n_samples (mt19937_seed 42);
  Ok (take n_train (drop n_test perm), take n_test perm).

(** [a[ind]] for an index array. *)
Definition take_rows {A} (a : list A) (ind : list nat) : result (list A) :=
  from_opt IndexError (mapM (λ i, a !! i) ind).

Definition train_test_split {A B} (X : list A) (y : list B)
  : result (list A * list A * list B * list B) :=
  if decide (length X = length y) then
    '(train, test) ← shuffle_split (length X);
    X_train ← take_rows X train;
    X_test ← take_rows X test;
    y_train ← take_rows y train;
    y_test ← take_rows y test;
    Ok (X_train, X_test, y_train, y_test)
  else Raise ValueError.

(** ** The notebook: objects, variables, cells *)

(** DataFrames are mutable objects: a variable holds a reference, and an
    assignment [df[k] = v] updates the object every alias sees. *)
Definition loc := positive.

Record notebook := mkNb {
  heap : gmap loc DataFrame;      (* the DataFrame objects *)
  np_random : mt19937_state;      (* numpy's global generator *)
  df : option loc;
  grouped : option loc;
  df_model : option loc;
  le_dict : option (gmap string LabelEncoder);
  X : option (list (list Z));
  y : option (list Z);
  (* X_train, X_test, y_train, y_test *)
  splits : option (list (list Z) * list (list Z) * list Z * list Z)
}.

Definition set_heap (f : gmap loc DataFrame → gmap loc DataFrame) (nb : notebook) :=
  mkNb (f (heap nb)) (np_random nb) (df nb) (grouped nb) (df_model nb)
       (le_dict nb) (X nb) (y nb) (splits nb).
Definition set_np_random (st : mt19937_state) (nb : notebook) :=
  mkNb (heap nb) st (df nb) (grouped nb) (df_model nb)
       (le_dict nb) (X nb) (y nb) (splits nb).
Definition set_df (l : loc) (nb : notebook) :=
  mkNb (heap nb) (np_random nb) (Some l) (grouped nb) (df_model nb)
       (le_dict nb) (X nb) (y nb) (splits nb).
Definition set_grouped (l : loc) (nb : notebook) :=
  mkNb (heap nb) (np_random nb) (df nb) (Some l) (df_model nb)
       (le_dict nb) (X nb) (y nb) (splits nb).
Definition set_df_model (l : loc) (nb : notebook) :=
  mkNb (heap nb) (np_random nb) (df nb) (grouped nb) (Some l)
       (le_dict nb) (X nb) (y nb) (splits nb).
Definition set_le_dict (t : gmap string LabelEncoder) (nb : notebook) :=
  mkNb (heap nb) (np_random nb) (df nb) (grouped nb) (df_model nb)
       (Some t) (X nb) (y nb) (splits nb).
Definition set_X (v : list (list Z)) (nb : notebook) :=
  mkNb (heap nb) (np_random nb) (df nb) (grouped nb) (df_model nb)
       (le_dict nb) (Some v) (y nb) (splits nb).
Definition set_y (v : list Z) (nb : notebook) :=
  mkNb (heap nb) (np_random nb) (df nb) (grouped nb) (df_model nb)
       (le_dict nb) (X nb) (Some v) (splits nb).
Definition set_splits (v : list (list Z) * list (list Z) * list Z * list Z)
    (nb : notebook) :=
  mkNb (heap nb) (np_random nb) (df nb) (grouped nb) (df_model nb)
       (le_dict nb) (X nb) (y nb) (Some v).

(** A fresh kernel: nothing bound, the generator in some state. *)
Definition fresh_kernel (st : mt19937_state) : notebook :=
  mkNb ∅ st None None None None None None None.

(** A cell is a state transformer that may stop with an exception; what it
    wrote before the exception stays written. *)
Definition nbM (A : Type) : Type := notebook → result A * notebook.

#[global] Instance nbM_ret : MRet nbM := λ A a nb, (Ok a, nb).
#[global] Instance nbM_bind : MBind nbM := λ A B f m nb,
  match m nb with
  | (Ok a, nb') => f a nb'
  | (Raise e, nb') => (Raise e, nb')
  end.

Definition lift {A} (r : result A) : nbM A := λ nb, (r, nb).
Definition modify (f : notebook → notebook) : nbM unit := λ nb, (Ok tt, f nb).
Definition var {A} (name : string) (get : notebook → option A) : nbM A :=
  λ nb, (from_opt (NameError name) (get nb), nb).

Definition load (l : loc) : nbM DataFrame :=
  λ nb, (from_opt (NameError "<object>") (heap nb !! l), nb).
Definition store (l : loc) (d : DataFrame) : nbM unit :=
  modify (set_heap <[l := d]>).
(** A new object, at a reference no live object has. *)
Definition new (d : DataFrame) : nbM loc :=
  λ nb, let l := fresh (dom (heap nb)) in (Ok l, set_heap <[l := d]> nb).

Definition frame_getitem (l : loc) (k : string) : nbM Series :=
  d ← load l; lift (getitem d k).
Definition frame_setitem (l : loc) (k : string) (s : Series) : nbM unit :=
  d ← load l; d' ← lift (setitem d k s); store l d'.

Fixpoint for_each {A} (xs : list A) (body : A → nbM unit) : nbM unit :=
  match xs with
  | [] => mret tt
  | x :: xs' => _ ← body x; for_each xs' body
  end.

(** [df = pd.read_csv("facebook_ads.csv")]; [csv] is the parsed file. *)
Definition cell_load (csv : DataFrame) : nbM unit :=
  l ← new csv; modify (set_df l).

(** [df['CTR'] = df['Clicks'] / df['Impressions']] *)
Definition cell_ctr : nbM unit :=
  l ← var "df" df;
  clicks ← frame_getitem l "Clicks";
  imps ← frame_getitem l "Impressions";
  ctr ← lift (series_truediv clicks imps);
  frame_setitem l "CTR" ctr.

(** [np.random.seed(42)] *)
Definition np_random_seed (seed : Z) : nbM unit :=
  modify (set_np_random (mt19937_seed seed)).

(** [np.random.choice(a, size=size)] on the global generator *)
Definition np_random_choice (a : list string) (size : nat) : nbM (list string) :=
  λ nb,
    match NpRandom.choice NpRandom.default_fuel a size (np_random nb) with
    | Ok (vs, st) => (Ok vs, set_np_random st nb)
    | Raise e => (Raise e, nb)
    end.

(** The A/B cell:
[[
np.random.seed(42)
df['ad_variant'] = np.random.choice(['A', 'B'], size=len(df))
grouped = df.groupby('ad_variant').agg({'Impressions': 'sum', 'Clicks': 'sum'})
grouped['CTR'] = grouped['Clicks'] / grouped['Impressions']
]] *)
Definition cell_ab : nbM unit :=
  _ ← np_random_seed 42;
  l ← var "df" df;
  d ← load l;
  labels ← np_random_choice ["A"; "B"] (len d);
  _ ← frame_setitem l "ad_variant" (SStr labels);
  d ← load l;
  g ← lift (groupby_agg_sum d "ad_variant" ["Impressions"; "Clicks"]);
  lg ← new g;
  _ ← modify (set_grouped lg);
  clicks ← frame_getitem lg "Clicks";
  imps ← frame_getitem lg "Impressions";
  ctr ← lift (series_truediv clicks imps);
  frame_setitem lg "CTR" ctr.

(** [df['Clicked'] = (df['Clicks'] > 0).astype(int)] *)
Definition cell_clicked : nbM unit :=
  l ← var "df" df;
  clicks ← frame_getitem l "Clicks";
  t ← lift (series_gt0_astype_int clicks);
  frame_setitem l "Clicked" t.

Definition features : list string := ["Gender"; "Age"; "ad_variant"].

(** The encoding cell:
[[
df_model = df[features + ['Clicked']].copy()
le_dict = {}
for col in features:
    le = LabelEncoder()
    df_model[col] = le.fit_transform(df_model[col])
    le_dict[col] = le
]]
    The selection [df[...]] builds a table of its own and [.copy()] copies
    it; [df_model] is bound to the one new object that results. *)
Definition encode_column (col : string) : nbM unit :=
  m ← var "df_model" df_model;
  s ← frame_getitem m col;
  '(le, codes) ← lift (fit_transform s);
  m ← var "df_model" df_model;
  _ ← frame_setitem m col codes;
  t ← var "le_dict" le_dict;
  modify (set_le_dict (<[col := le]> t)).

Definition cell_encode : nbM unit :=
  l ← var "df" df;
  d ← load l;
  sub ← lift (getitem_list d (features ++ ["Clicked"]));
  m ← new sub;
  _ ← modify (set_df_model m);
  _ ← modify (set_le_dict ∅);
  for_each features encode_column.

Definition int_values (s : Series) : result (list Z) :=
  match s with SInt xs => Ok xs | _ => Raise NotModelled end.

(** The split cell:
[[
X = df_model[features].values
y = df_model['Clicked'].values
X_train, X_test, y_train, y_test = train_test_split(X, y, test_size=0.2, random_state=42)
]] *)
Definition cell_split : nbM unit :=
  m ← var "df_model" df_model;
  d ← load m;
  xs ← lift (values d features);
  _ ← modify (set_X xs);
  s ← frame_getitem m "Clicked";
  ys ← lift (int_values s);
  _ ← modify (set_y ys);
  r ← lift (train_test_split xs ys);
  modify (set_splits r).

(** The cells that write to a table, and runs of them in any order. *)
Inductive stage := StageCTR | StageAB | StageClicked | StageEncode | StageSplit.

Definition run_stage (s : stage) : nbM unit :=
  match s with
  | StageCTR => cell_ctr
  | StageAB => cell_ab
  | StageClicked => cell_clicked
  | StageEncode => cell_encode
  | StageSplit => cell_split
  end.

(** Running cells one after the other; a cell that raises leaves its partial
    writes, and the next cell can still be run, as in a notebook session. *)
Fixpoint run_stages (ss : list stage) (nb : notebook) : notebook :=
  match ss with
  | [] => nb
  | s :: ss' => run_stages ss' (run_stage s nb).2
  end.

(** The notebook run top to bottom. *)
Definition run_all : nbM unit :=
  _ ← cell_ctr; _ ← cell_ab; _ ← cell_clicked; _ ← cell_encode; cell_split.

(** ** Reading the results back *)


(** The first [n] 32-bit draws of a generator state. *)
Fixpoint draws (n : nat) (st : mt19937_state) : list Z :=
  match n with
  | O => []
  | S n' => let '(w, st') := mt19937_next st in w :: draws n' st'
  end.

(** The label a single draw selects from [['A', 'B']]: its low bit. *)
Definition label_of_draw (w : Z) : string :=
  if Z.testbit w 0 then "B" else "A".

(** The variant labels of a table of [n] records: one draw per record from
    the generator seeded with 42. *)
Definition variant_labels (n : nat) : list string :=
  label_of_draw <$> draws n (mt19937_seed 42).

(** The columns the analysis appends to the loaded table. *)
Definition derived_columns : list string := ["CTR"; "ad_variant"; "Clicked"].

(** The lexicographic order on strings, strict. *)
Definition str_lt (a b : string) : Prop := String.le a b ∧ a ≠ b.

(** The generator state after [n] draws. *)
Fixpoint after_draws (n : nat) (st : mt19937_state) : mt19937_state :=
  match n with
  | O => st
  | S n' => after_draws n' (mt19937_next st).2
  end.

(** What [grouped] holds for a table with variant labels [labels]: one row
    per label present, the int64 sums of the two count columns, and their
    quotient. *)
Definition ab_grouped (labels : list string) (clicks imps : list Z) : DataFrame :=
  let ks := group_keys labels in
  let gc := group_sum labels clicks <$> ks in
  let gi := group_sum labels imps <$> ks in
  mkDF (LabelIndex ks)
       (<["CTR" := SFloat (zip_with truediv_int64 gc gi)]>
          (<["Impressions" := SInt gi]> (<["Clicks" := SInt gc]> ∅))).

(** ** Reasoning about cells: weakest preconditions

    [wp c Q E nb]: run from [nb], the cell [c] either returns [a] in a state
    satisfying [Q a], or raises in a state satisfying [E]. *)
Definition wp {A} (c : nbM A) (Q : A → notebook → Prop) (E : notebook → Prop)
    (nb : notebook) : Prop :=
  match c nb with
  | (Ok a, nb') => Q a nb'
  | (Raise _, nb') => E nb'
  end.

(** The loaded table as it is preserved: [df] still names the object [l],
    whose index and whose columns other than the derived ones are those of
    [d0]. *)
Definition originals_kept (l : loc) (d0 : DataFrame) (nb : notebook) : Prop :=
  df nb = Some l ∧
  ∃ d, heap nb !! l = Some d ∧ index d = index d0 ∧
       ∀ k, k ∉ derived_columns → columns d !! k = columns d0 !! k.

(** The table [l] exactly as it is. *)
Definition table_untouched (l : loc) (d : DataFrame) (nb : notebook) : Prop :=
  df nb = Some l ∧ heap nb !! l = Some d.

(** ** Example tables and kernels *)

(** The table some cell sequence leaves in [df]. *)
Definition table_of (nb : notebook) : DataFrame :=
  default (mkDF (RangeIndex 0) ∅) (l ← df nb; heap nb !! l).

Definition csv_demo : DataFrame :=
  mkDF (RangeIndex 10) (list_to_map [
    ("Age", SStr ["30-34"; "35-39"; "30-34"; "40-44"; "45-49";
                  "30-34"; "35-39"; "30-34"; "40-44"; "45-49"]);
    ("Gender", SStr ["M"; "F"; "M"; "F"; "M"; "F"; "M"; "F"; "M"; "F"]);
    ("Impressions", SInt [100; 200; 0; 50; 10; 100; 200; 0; 50; 10]%Z);
    ("Clicks", SInt [10; 20; 0; 5; 1; 0; 20; 0; 5; 1]%Z);
    ("Spend", SInt [1; 2; 3; 4; 5; 6; 7; 8; 9; 10]%Z)]).

(** A kernel in which the load cell has run on [csv_demo]. *)
Definition kernel_demo : notebook :=
  (cell_load csv_demo (fresh_kernel (mt19937_seed 0))).2.

(** The same kernel after the CTR, A/B and target cells. *)
Definition kernel_ready : notebook :=
  run_stages [StageCTR; StageAB; StageClicked] kernel_demo.

(** A table whose single record has no impression and no click. *)
Definition csv_zero : DataFrame :=
  mkDF (RangeIndex 1) (list_to_map [
    ("Age", SStr ["30-34"]);
    ("Gender", SStr ["M"]);
    ("Impressions", SInt [0]%Z);
    ("Clicks", SInt [0]%Z);
    ("Spend", SInt [0]%Z)]).

Definition kernel_zero : notebook :=
  (cell_load csv_zero (fresh_kernel (mt19937_seed 0))).2.

(** ** Reading further results back *)

(** The target of a record: 1 when it has at least one click. *)
Definition clicked_of (clicks : list Z) : list Z :=
  (λ x : Z, if (0 <? x)%Z then 1%Z else 0%Z) <$> clicks.

(** The rows of the design matrix for three columns of codes. *)
Definition design_rows (n : nat) (cG cA cV : list nat) : list (list Z) :=
  row_at [Z.of_nat <$> cG; Z.of_nat <$> cA; Z.of_nat <$> cV] <$> seq 0 n.
(** ** The z-test cell

    *** float64 scalars beyond the rationals *)

(** [proportions_ztest] takes a square root and evaluates the normal
    distribution, so its scalars are carried as real numbers with the three
    special values of float64.  As for [float64], a finite value stands for
    the exact result (rounding is not modelled); zero has no sign, so a
    division of a nonzero value by zero takes the sign of the numerator. *)
Inductive real64 :=
  | RFin (x : R)
  | RPosInf
  | RNegInf
  | RNaN.

Definition Rsgn (x : R) : comparison :=
  match total_order_T x 0 with
  | inleft (left _) => Lt
  | inleft (right _) => Eq
  | inright _ => Gt
  end.

Definition of_int64 (z : Z) : real64 := RFin (IZR z).

Definition r64_opp (a : real64) : real64 :=
  match a with
  | RFin x => RFin (- x)
  | RPosInf => RNegInf
  | RNegInf => RPosInf
  | RNaN => RNaN
  end.

Definition r64_add (a b : real64) : real64 :=
  match a, b with
  | RNaN, _ | _, RNaN => RNaN
  | RFin x, RFin y => RFin (x + y)
  | RPosInf, RNegInf | RNegInf, RPosInf => RNaN
  | RPosInf, _ | _, RPosInf => RPosInf
  | RNegInf, _ | _, RNegInf => RNegInf
  end.

Definition r64_sub (a b : real64) : real64 := r64_add a (r64_opp b).

(** An infinity scaled by a value of sign [s]. *)
Definition r64_signed_inf (positive : bool) (s : comparison) : real64 :=
  match s with
  | Eq => RNaN
  | Gt => if positive then RPosInf else RNegInf
  | Lt => if positive then RNegInf else RPosInf
  end.

Definition r64_mul (a b : real64) : real64 :=
  match a, b with
  | RNaN, _ | _, RNaN => RNaN
  | RFin x, RFin y => RFin (x * y)
  | RFin x, RPosInf | RPosInf, RFin x => r64_signed_inf true (Rsgn x)
  | RFin x, RNegInf | RNegInf, RFin x => r64_signed_inf false (Rsgn x)
  | RPosInf, RPosInf | RNegInf, RNegInf => RPosInf
  | RPosInf, RNegInf | RNegInf, RPosInf => RNegInf
  end.

Definition r64_div (a b : real64) : real64 :=
  match a, b with
  | RNaN, _ | _, RNaN => RNaN
  | RFin x, RFin y =>
      match Rsgn y with
      | Eq => r64_signed_inf true (Rsgn x)
      | _ => RFin (x / y)
      end
  | RFin _, _ => RFin 0
  | RPosInf, RFin y => if Rsgn y is Lt then RNegInf else RPosInf
  | RNegInf, RFin y => if Rsgn y is Lt then RPosInf else RNegInf
  | _, _ => RNaN
  end.

Definition r64_sqrt (a : real64) : real64 :=
  match a with
  | RFin x => if Rsgn x is Lt then RNaN else RFin (sqrt x)
  | RPosInf => RPosInf
  | RNegInf | RNaN => RNaN
  end.

Definition r64_abs (a : real64) : real64 :=
  match a with
  | RFin x => RFin (Rabs x)
  | RPosInf | RNegInf => RPosInf
  | RNaN => RNaN
  end.

Definition r64_finite (a : real64) : bool :=
  match a with RFin _ => true | _ => false end.

(** [a < b] on float64: false as soon as one side is NaN. *)
Definition r64_ltb (a b : real64) : bool :=
  match a, b with
  | RNaN, _ | _, RNaN => false
  | RFin x, RFin y => if Rlt_dec x y then true else false
  | RNegInf, (RFin _ | RPosInf) => true
  | RFin _, RPosInf => true
  | _, _ => false
  end.

(** [a >= b] on float64, likewise false on NaN. *)
Definition r64_geb (a b : real64) : bool :=
  match a, b with
  | RNaN, _ | _, RNaN => false
  | RFin x, RFin y => if Rle_dec y x then true else false
  | RPosInf, _ | _, RNegInf => true
  | _, _ => false
  end.

(** [np.sum] of a float64 array. *)
Definition r64_sum (l : list real64) : real64 :=
  match l with
  | [] => RFin 0
  | x :: l' => fold_left r64_add l' x
  end.

(** *** The standard normal distribution

    [scipy.stats.norm.sf] at its mathematical value: the density
    [exp (- t² / 2) / sqrt (2 π)] integrated from 0, and the half of the mass
    that lies below 0. *)
Definition gauss (t : R) : R := exp (- (t * t) / 2).

Definition gauss_continuity : continuity gauss.
Proof. unfold gauss. reg. Qed.

Definition gauss_integrable (a b : R) : Riemann_integrable gauss a b.
Proof.
  destruct (Rle_dec a b) as [H | H].
  - apply continuity_implies_RiemannInt; [exact H | intros; apply gauss_continuity].
  - apply RiemannInt_P1, continuity_implies_RiemannInt;
      [lra | intros; apply gauss_continuity].
Qed.

Definition gauss_area (x : R) : R := RiemannInt (gauss_integrable 0 x).

Definition norm_cdf (x : R) : R := (1 / 2 + gauss_area x / sqrt (2 * PI))%R.

Definition norm_sf (a : real64) : real64 :=
  match a with
  | RFin x => RFin (1 - norm_cdf x)
  | RPosInf => RFin 0
  | RNegInf => RFin 1
  | RNaN => RNaN
  end.

(** *** statsmodels: [proportions_ztest(count, nobs)]
[[
prop = count * 1. / nobs
k_sample = np.size(prop)
if value is None:
    if k_sample == 1: raise ValueError(...)
    value = 0
if k_sample == 1: diff = prop - value
elif k_sample == 2: diff = prop[0] - prop[1] - value
else: raise NotImplementedError(...)
p_pooled = np.sum(count) * 1. / np.sum(nobs)
nobs_fact = np.sum(1. / nobs)
var_ = p_pooled * (1 - p_pooled) * nobs_fact
std_diff = np.sqrt(var_)
return _zstat_generic2(diff, std_diff, alternative)
]]
    with [count] and [nobs] two int64 arrays and the defaults [value=None],
    [alternative='two-sided'], [prop_var=False]; a [nobs] of one entry is
    first repeated to the length of [count]. *)

(** [zstat = value / std; pvalue = stats.norm.sf(np.abs(zstat)) * 2] *)
Definition zstat_generic2 (value std : real64) : real64 * real64 :=
  let zstat := r64_div value std in
  (zstat, r64_mul (norm_sf (r64_abs zstat)) (RFin 2)).

(** [count * 1. / nobs] under numpy's broadcasting: arrays of one length, or
    one of them with a single entry. *)
Definition broadcast_truediv (count nobs : list Z) : result (list real64) :=
  let quot c n := r64_div (r64_mul (of_int64 c) (RFin 1)) (of_int64 n) in
  if decide (length count = length nobs) then Ok (zip_with quot count nobs)
  else match count, nobs with
       | [c], _ => Ok (quot c <$> nobs)
       | _, [n] => Ok ((λ c, quot c n) <$> count)
       | _, _ => Raise ValueError
       end.

(** How a call that can also end with statsmodels' [NotImplementedError]
    comes back. *)
Inductive outcome (A : Type) :=
  | Returned (a : A)
  | Raised (e : exn)
  | RaisedNotImplemented.
Arguments Returned {A} a.
Arguments Raised {A} e.
Arguments RaisedNotImplemented {A}.

Definition proportions_ztest (count nobs : list Z) : outcome (real64 * real64) :=
  let nobs :=
    match nobs with [n] => replicate (length count) n | _ => nobs end in
  match broadcast_truediv count nobs with
  | Raise e => Raised e
  | Ok [_] => Raised ValueError
  | Ok [p0; p1] =>
      let diff := r64_sub (r64_sub p0 p1) (RFin 0) in
      let p_pooled :=
        r64_div (r64_mul (of_int64 (Int64.sum count)) (RFin 1))
                (of_int64 (Int64.sum nobs)) in
      let nobs_fact := r64_sum ((λ n, r64_div (RFin 1) (of_int64 n)) <$> nobs) in
      let var_ := r64_mul (r64_mul p_pooled (r64_sub (RFin 1) p_pooled)) nobs_fact in
      let std_diff := r64_sqrt var_ in
      Returned (zstat_generic2 diff std_diff)
  | Ok _ => RaisedNotImplemented
  end.

(** What the cell prints. *)
Inductive printed :=
  | PrintZTest (stat pval : real64)  (* Z-statistic: ..., p-value: ... *)
  | PrintSignificant                 (* Statistically significant difference ... *)
  | PrintNoDifference.               (* No significant difference in CTR *)

(** [if pval < 0.05: print(...) else: print(...)] *)
Definition verdict (pval : real64) : printed :=
  if r64_ltb pval (RFin 0.05) then PrintSignificant else PrintNoDifference.

(** [clicks = grouped['Clicks'].values; impressions = grouped['Impressions'].values] *)
Definition read_counts : nbM (list Z * list Z) :=
  g ← var "grouped" grouped;
  c ← frame_getitem g "Clicks";
  clicks ← lift (int_values c);
  i ← frame_getitem g "Impressions";
  impressions ← lift (int_values i);
  mret (clicks, impressions).

(** The z-test cell:
[[
clicks = grouped['Clicks'].values
impressions = grouped['Impressions'].values
stat, pval = proportions_ztest(clicks, impressions)
print(f"Z-statistic: {stat:.2f}, p-value: {pval:.4f}")
if pval < 0.05: print("... Statistically significant difference ...")
else: print("... No significant difference in CTR")
]]
    The cell writes to no table and its four variables are read by no other
    cell, so it is a function of the kernel it runs in: what it prints (the
    two numbers before formatting), or the exception it ends with. *)
Definition cell_ztest (nb : notebook) : outcome (list printed) :=
  match read_counts nb with
  | (Raise e, _) => Raised e
  | (Ok (clicks, impressions), _) =>
      match proportions_ztest clicks impressions with
      | Returned (stat, pval) => Returned [PrintZTest stat pval; verdict pval]
      | Raised e => Raised e
      | RaisedNotImplemented => RaisedNotImplemented
      end
  end.




(** The probability that a standard normal variable is at least as far from
    0 as [z], on either side. *)
Definition two_sided_p (z : R) : R := (2 * (1 - norm_cdf (Rabs z)))%R.

(** *** A polynomial below the density

    [exp (- t² / 2) = exp (- t² / 36) ^ 18 ≥ (1 - t² / 36) ^ 18] on [0, 6];
    the right-hand side has the antiderivative [tail_poly], with integer
    coefficients once scaled by the least common multiple of 1, 3, ..., 37. *)
Fixpoint poly (cs : list Z) (t : R) : R :=
  match cs with
  | [] => 0
  | c :: cs' => IZR c + t * poly cs' t
  end.

Fixpoint dpoly (cs : list Z) (t : R) : R :=
  match cs with
  | [] => 0
  | _ :: cs' => poly cs' t + t * dpoly cs' t
  end.

Fixpoint binom (n k : nat) : Z :=
  match n, k with
  | _, O => 1
  | O, S _ => 0
  | S n', S k' => binom n' k' + binom n' k
  end%Z.

Definition odd_lcm (m : nat) : Z :=
  foldr (λ k acc, Z.lcm (2 * Z.of_nat k + 1) acc) 1%Z (seq 0 (S m)).

(** The coefficients of [odd_lcm m * ∫ (1 - s²) ^ m], lowest degree first. *)
Definition anti_coefs (m : nat) : list Z :=
  0%Z :: flat_map (λ k, [((-1) ^ Z.of_nat k * binom m k
                            * (odd_lcm m / (2 * Z.of_nat k + 1)))%Z; 0%Z])
           (seq 0 (S m)).

Definition tail_lcm : Z := Eval vm_compute in odd_lcm 18.
Definition tail_coefs : list Z := Eval vm_compute in anti_coefs 18.

Definition tail_poly (t : R) : R := (6 / IZR tail_lcm * poly tail_coefs (t / 6))%R.

(** A kernel in which [grouped] holds the aggregates of two groups. *)
Definition kernel_grouped (cA cB nA nB : Z) : notebook :=
  set_grouped 1%positive
    (set_heap <[1%positive := ab_grouped ["A"; "B"] [cA; cB] [nA; nB]]>
       (fresh_kernel (mt19937_seed 0))).

(** A table is rectangular when every column has one entry per row; a
    kernel, when every table object it holds is. *)
Definition rectangular (d : DataFrame) : Prop :=
  map_Forall (λ _ s, series_len s = len d) (columns d).

Definition tables_rectangular (nb : notebook) : Prop :=
  map_Forall (λ _ d, rectangular d) (heap nb).

(** [df] names [l], [df_model] names another object [m], which holds [dm]. *)
Definition model_copy_kept (l m : loc) (dm : DataFrame) (nb : notebook) : Prop :=
  df nb = Some l ∧ df_model nb = Some m ∧ heap nb !! m = Some dm.
(** ** The evaluation cell: [roc_auc_score(y_test, y_prob)]

    The probabilities come from the Keras model, which is not embedded; the
    score is a function of whatever they are.  Counts are exact integers;
    the two divisions and the trapezoidal sum, float64 operations in numpy,
    are carried in exact rational arithmetic. *)

(** *** numpy on lists *)

(** [np.diff(a)] *)
Definition np_diff (a : list Z) : list Z := zip_with Z.sub (tail a) a.

(** [np.cumsum(a)] *)
Fixpoint cumsum_from (acc : Z) (a : list Z) : list Z :=
  match a with
  | [] => []
  | x :: a' => (acc + x)%Z :: cumsum_from (acc + x) a'
  end.
Definition np_cumsum (a : list Z) : list Z := cumsum_from 0 a.

(** [a[np.where(mask)[0]]]: the entries at the positions the mask marks. *)
Definition np_select {A} (mask : list bool) (a : list A) : list A :=
  (filter (λ p : bool * A, p.1 = true) (zip mask a)).*2.

(** [np.trapz(y, x)]: [sum((x[1:] - x[:-1]) * (y[1:] + y[:-1]) / 2)]. *)
Fixpoint np_trapz (y x : list Q) : Q :=
  match y, x with
  | y0 :: (y1 :: _) as y', x0 :: (x1 :: _) as x' =>
      ((x1 - x0) * (y1 + y0) / 2 + np_trapz y' x')%Q
  | _, _ => 0%Q
  end.

(** *** scikit-learn *)

Definition score_le (a b : Q * bool) : Prop := Qle a.1 b.1.
#[global] Instance score_le_dec : RelDecision score_le.
Proof. intros a b. unfold score_le. destruct (Qlt_le_dec b.1 a.1); [right|left]; [|done].
  by apply Qlt_not_le. Defined.

(** [_binary_clf_curve]:
[[
desc_score_indices = np.argsort(y_score, kind="mergesort")[::-1]
y_score = y_score[desc_score_indices]; y_true = y_true[desc_score_indices]
distinct_value_indices = np.where(np.diff(y_score))[0]
threshold_idxs = np.r_[distinct_value_indices, y_true.size - 1]
tps = stable_cumsum(y_true)[threshold_idxs]
fps = 1 + threshold_idxs - tps
]]
    The index array [threshold_idxs] is carried as the mask of the positions
    it lists: those where the score changes, and the last one.  Only the
    last position of a run of equal scores is read, so the order that the
    stable sort gives to equal scores does not reach [fps] and [tps]. *)
Definition threshold_mask (y_score : list Q) : list bool :=
  zip_with (λ a b, negb (Qeq_bool a b)) y_score (tail y_score) ++ [true].

Definition binary_clf_curve (y_true : list bool) (y_score : list Q) : list Z * list Z :=
  let sorted := rev (merge_sort score_le (zip y_score y_true)) in
  let y_score := sorted.*1 in
  let y_true := sorted.*2 in
  let mask := threshold_mask y_score in
  let threshold_idxs := np_select mask (Z.of_nat <$> seq 0 (length y_true)) in
  let tps := np_select mask (np_cumsum (Z.b2z <$> y_true)) in
  let fps := zip_with (λ i t, 1 + i - t)%Z threshold_idxs tps in
  (fps, tps).

(** [roc_curve], with [drop_intermediate=True]:
[[
fps, tps, thresholds = _binary_clf_curve(y_true, y_score)
if drop_intermediate and len(fps) > 2:
    optimal_idxs = np.where(
        np.r_[True, np.logical_or(np.diff(fps, 2), np.diff(tps, 2)), True])[0]
    fps = fps[optimal_idxs]; tps = tps[optimal_idxs]
tps = np.r_[0, tps]; fps = np.r_[0, fps]
fpr = fps / fps[-1]; tpr = tps / tps[-1]
]]
    Without a negative or without a positive sample the rates are NaN, with
    a warning; that path is left out. *)
Definition optimal_mask (fps tps : list Z) : list bool :=
  true :: zip_with orb ((λ d, negb (d =? 0)%Z) <$> np_diff (np_diff fps))
                       ((λ d, negb (d =? 0)%Z) <$> np_diff (np_diff tps)) ++ [true].

Definition drop_intermediate (fps tps : list Z) : list Z * list Z :=
  if decide (2 < length fps)
  then (np_select (optimal_mask fps tps) fps, np_select (optimal_mask fps tps) tps)
  else (fps, tps).

Definition roc_curve (y_true : list bool) (y_score : list Q) : result (list Q * list Q) :=
  let '(fps, tps) := binary_clf_curve y_true y_score in
  let '(fps, tps) := drop_intermediate fps tps in
  let tps := 0%Z :: tps in
  let fps := 0%Z :: fps in
  let n_neg := List.last fps 0%Z in
  let n_pos := List.last tps 0%Z in
  if decide (n_neg ≤ 0 ∨ n_pos ≤ 0)%Z then Raise NotModelled
  else Ok ((λ f, inject_Z f / inject_Z n_neg)%Q <$> fps,
           (λ t, inject_Z t / inject_Z n_pos)%Q <$> tps).

(** [auc(x, y)]:
[[
if x.shape[0] < 2: raise ValueError(...)
direction = 1
dx = np.diff(x)
if np.any(dx < 0):
    if np.all(dx <= 0): direction = -1
    else: raise ValueError(...)
area = direction * np.trapz(y, x)
]] *)
Definition auc (x y : list Q) : result Q :=
  if decide (length x ≠ length y) then Raise ValueError
  else if decide (length x < 2) then Raise ValueError
  else
    let dx := zip_with Qminus (tail x) x in
    if existsb (λ d, negb (Qle_bool 0 d)) dx then
      if forallb (λ d, Qle_bool d 0) dx then Ok (- np_trapz y x)%Q else Raise ValueError
    else Ok (np_trapz y x).

(** [check_array]: a NaN or an infinity among the scores is a [ValueError]. *)
Definition finite_score (x : float64) : result Q :=
  match x with Fin q => Ok q | _ => Raise ValueError end.

(** [roc_auc_score(y_true, y_score)] for a 1-d (or one-column) score array:
    the scores must be finite, [y_true] must hold exactly two classes, of
    which the greater is the positive one ([label_binarize]), and the two
    arrays must have one length; the score is the area under the ROC curve.
    With one class only scikit-learn up to 1.5 raises [ValueError], as
    here; later versions warn and return NaN. *)
Definition roc_auc_score (y_true : list Z) (y_score : list float64) : result Q :=
  scores ← mapM finite_score y_score;
  match unique_python Z.le y_true with
  | [_; pos] =>
      if decide (length y_true = length scores) then
        '(fpr, tpr) ← roc_curve ((λ c, bool_decide (c = pos)) <$> y_true) scores;
        auc fpr tpr
      else Raise ValueError
  | _ => Raise ValueError
  end.


(** *** The ranking statistic *)

(** Twice the credit of a positive scored [sp] against a negative scored
    [sn]: 2 when ranked above it, 1 on a tie, 0 below. *)
Definition pair_credit (sp sn : Q) : Z :=
  match (sp ?= sn)%Q with Gt => 2%Z | Eq => 1%Z | Lt => 0%Z end.

Definition sum_Z (l : list Z) : Z := foldr Z.add 0%Z l.

(** Twice the number of correctly ranked (positive, negative) pairs, ties
    counting half. *)
Definition ranked_pairs2 (pos neg : list Q) : Z :=
  sum_Z ((λ sp, sum_Z (pair_credit sp <$> neg)) <$> pos).

(** *** The curve as a walk along the sorted samples

    The same computations written as structural recursions, for the proofs:
    the cumulative counts emitted at the end of every run of equal scores,
    and the points kept by [drop_intermediate]. *)
Definition pos_scores (l : list (Q * bool)) : list Q := (filter (λ e : Q * bool, e.2 = true) l).*1.
Definition neg_scores (l : list (Q * bool)) : list Q := (filter (λ e : Q * bool, e.2 = false) l).*1.

(** The ranking statistic of a list of samples. *)
Definition ranking2 (l : list (Q * bool)) : Z := ranked_pairs2 (pos_scores l) (neg_scores l).

Fixpoint points_from (fp tp : Z) (l : list (Q * bool)) : list (Z * Z) :=
  match l with
  | [] => []
  | (s, y) :: l' =>
      let fp' := (if y then fp else fp + 1)%Z in
      let tp' := (if y then tp + 1 else tp)%Z in
      match l' with
      | [] => [(fp', tp')]
      | (s', _) :: _ =>
          if Qeq_bool s s' then points_from fp' tp' l'
          else (fp', tp') :: points_from fp' tp' l'
      end
  end.

(** Whether the step from [b] to [c] repeats the step from [a] to [b]. *)
Definition same_step (a b c : Z * Z) : bool :=
  bool_decide (c.1 - b.1 = b.1 - a.1 ∧ c.2 - b.2 = b.2 - a.2)%Z.

Fixpoint kept_after (a : Z * Z) (l : list (Z * Z)) : list (Z * Z) :=
  match l with
  | [] => []
  | b :: l' =>
      match l' with
      | [] => [b]
      | c :: _ => if same_step a b c then kept_after b l' else b :: kept_after b l'
      end
  end.

Definition kept_points (l : list (Z * Z)) : list (Z * Z) :=
  match l with
  | [] => []
  | a :: l' => a :: kept_after a l'
  end.

(** Twice the area under the polygonal line through a list of points. *)
Fixpoint area2 (l : list (Z * Z)) : Z :=
  match l with
  | a :: (b :: _) as l' => ((b.1 - a.1) * (b.2 + a.2) + area2 l')%Z
  | _ => 0%Z
  end.

(** Twice the credit a positive scored [s] would earn against the negatives
    of [l], and the positives of [l] against a negative scored [s]. *)
Definition credit_over (s : Q) (l : list (Q * bool)) : Z :=
  sum_Z (pair_credit s <$> neg_scores l).
Definition credit_under (l : list (Q * bool)) (s : Q) : Z :=
  sum_Z ((λ sp, pair_credit sp s) <$> pos_scores l).

Definition count_pos (l : list (Q * bool)) : Z := Z.of_nat (length (pos_scores l)).
Definition count_neg (l : list (Q * bool)) : Z := Z.of_nat (length (neg_scores l)).

(** Scores in descending order, as after [argsort(...)[::-1]]. *)
Definition descending (l : list (Q * bool)) : Prop :=
  StronglySorted (λ a b : Q * bool, b.1 <= a.1)%Q l.

(** Twice the area of the trapezium under the segment from [a] to [b]. *)
Definition trapezium2 (a b : Z * Z) : Z := ((b.1 - a.1) * (b.2 + a.2))%Z.

(** Points ordered by their first coordinate. *)
Definition rightwards (l : list (Z * Z)) : Prop :=
  StronglySorted (λ a b : Z * Z, a.1 ≤ b.1)%Z l.

(** The samples of a call: every score with whether its label is the
    positive class. *)
Definition labelled (pos : Z) (y_true : list Z) (scores : list Q) : list (Q * bool) :=
  zip scores ((λ c, bool_decide (c = pos)) <$> y_true).


(** * Proofs *)

(** ** Facts about int64 sums *)

Module Int64Facts.
Import Int64.
Local Open Scope Z_scope.

Lemma wrap_in_range z : in_range (wrap z).
Proof.
  unfold in_range, wrap, min_int, max_int.
  pose proof (Z.mod_pos_bound (z + 2 ^ 63) (2 ^ 64) ltac:(lia)). lia.
Qed.

Lemma wrap_small z : in_range z → wrap z = z.
Proof.
  unfold in_range, wrap, min_int, max_int. intros Hz.
  rewrite Z.mod_small by lia. lia.
Qed.

Lemma wrap_add_idemp_l a b : wrap (wrap a + b) = wrap (a + b).
Proof.
  unfold wrap. f_equal.
  replace ((a + 2 ^ 63) mod 2 ^ 64 - 2 ^ 63 + b + 2 ^ 63)
    with ((a + 2 ^ 63) mod 2 ^ 64 + b) by lia.
  rewrite Zplus_mod_idemp_l. f_equal. lia.
Qed.


Lemma fold_add_wrap l a : fold_left add l (wrap a) = wrap (a + total l).
Proof.
  revert a. induction l as [|x l IH]; intros a; simpl.
  - f_equal. lia.
  - unfold add at 2. rewrite wrap_add_idemp_l, IH. f_equal. lia.
Qed.

Lemma sum_wrap_total l : sum l = wrap (total l).
Proof. unfold sum. change 0 with (wrap 0) at 1. by rewrite fold_add_wrap. Qed.





Lemma total_nonneg l : Forall (λ x, 0 ≤ x) l → 0 ≤ total l.
Proof. induction 1; simpl; lia. Qed.

Lemma total_le_pointwise (l1 l2 : list Z) :
  Forall2 Z.le l1 l2 → total l1 ≤ total l2.
Proof. induction 1; simpl; lia. Qed.
End Int64Facts.

(** ** Facts about grouping *)

Section grouping.
Implicit Types (keys K : list string) (vals : list Z) (k : string).
Local Open Scope Z_scope.

Lemma group_rows_nil_l vals k : group_rows [] vals k = [].
Proof. done. Qed.

Lemma group_rows_cons k0 v0 keys vals k :
  group_rows (k0 :: keys) (v0 :: vals) k =
    if decide (k0 = k) then v0 :: group_rows keys vals k
    else group_rows keys vals k.
Proof.
  unfold group_rows. simpl. rewrite filter_cons. simpl.
  by destruct (decide (k0 = k)).
Qed.



Lemma group_rows_le keys (cs ms : list Z) k :
  Forall2 Z.le cs ms →
  Forall2 Z.le (group_rows keys cs k) (group_rows keys ms k).
Proof.
  intros Hle. revert keys. induction Hle as [|c m cs ms Hcm Hle IH];
    intros [|k0 keys]; try (unfold group_rows; simpl; by constructor).
  rewrite !group_rows_cons. destruct (decide (k0 = k)); [constructor|]; auto.
Qed.

Lemma group_rows_total_le keys vals k :
  Forall (λ x, 0 ≤ x) vals →
  0 ≤ Int64.total (group_rows keys vals k) ≤ Int64.total vals.
Proof.
  intros Hpos. revert keys. induction Hpos as [|v vals Hv Hpos IH];
    intros [|k0 keys]; simpl; try (unfold group_rows; simpl; lia).
  - pose proof (Int64Facts.total_nonneg vals Hpos).
    unfold group_rows; simpl; lia.
  - rewrite group_rows_cons. specialize (IH keys).
    destruct (decide (k0 = k)); simpl; lia.
Qed.


Lemma group_keys_elem keys k : k ∈ group_keys keys ↔ k ∈ keys.
Proof.
  unfold group_keys. rewrite merge_sort_Permutation. apply elem_of_remove_dups.
Qed.

Lemma group_keys_NoDup keys : NoDup (group_keys keys).
Proof.
  unfold group_keys. rewrite merge_sort_Permutation. apply NoDup_remove_dups.
Qed.

Lemma group_keys_sorted keys : StronglySorted String.le (group_keys keys).
Proof. apply (StronglySorted_merge_sort _). Qed.



End grouping.

(** ** Facts about the generator paths the notebook takes *)

(** The generator's definitions are only ever run on concrete states; in
    proofs they are kept folded. *)
#[local] Opaque mt19937_next mt19937_seed.

Section np_random_facts.
Import NpRandom.
Local Open Scope Z_scope.

Lemma land_1_low_bit w : Z.land w 1 = Z.b2z (Z.testbit w 0).
Proof.
  change 1 with (Z.ones 1) at 1.
  rewrite Z.land_ones, Z.bit0_mod by lia. done.
Qed.

(** With two choices the mask is 1 and the rejection loop accepts its
    first draw. *)
Lemma bounded_draw_two fuel st :
  fuel ≠ 0%nat →
  bounded_draw fuel 1 st =
    Ok (Z.land (mt19937_next st).1 1, (mt19937_next st).2).
Proof.
  intros Hfuel. destruct fuel as [|fuel]; [done|].
  change (bounded_draw (S fuel) 1 st) with (masked_loop (S fuel) 1 1 st).
  cbn [masked_loop]. destruct (mt19937_next st) as [w st'].
  cbn [fst snd]. rewrite land_1_low_bit. by destruct (Z.testbit w 0).
Qed.

Lemma randint0_two fuel n st :
  fuel ≠ 0%nat →
  randint0 fuel 2 n st =
    Ok ((λ w, Z.land w 1) <$> draws n st, after_draws n st).
Proof.
  intros Hfuel. revert st. induction n as [|n IH]; intros st; [done|].
  cbn [randint0 draws after_draws]. change (2 - 1) with 1.
  rewrite bounded_draw_two by done.
  destruct (mt19937_next st) as [w st'] eqn:Hnext. cbn.
  rewrite IH. by cbn.
Qed.

Lemma label_of_draw_lookup w :
  ["A"; "B"] !! Z.to_nat (Z.land w 1) = Some (label_of_draw w).
Proof.
  rewrite land_1_low_bit. unfold label_of_draw.
  by destruct (Z.testbit w 0).
Qed.

(** [np.random.choice(['A', 'B'], size=n)] never raises: it returns one
    label per draw. *)
Lemma choice_AB fuel n st :
  fuel ≠ 0%nat →
  choice fuel ["A"; "B"] n st = Ok (label_of_draw <$> draws n st, after_draws n st).
Proof.
  intros Hfuel. unfold choice.
  assert (mapM (λ i : Z, ["A"; "B"] !! Z.to_nat i) ((λ w, Z.land w 1) <$> draws n st)
          = Some (label_of_draw <$> draws n st)) as Hmap.
  { apply mapM_Some. induction (draws n st) as [|w ws IH]; csimpl; constructor; auto.
    apply label_of_draw_lookup. }
  change (Z.of_nat (length ["A"; "B"])) with 2.
  rewrite randint0_two by done. cbn. rewrite Hmap. cbn.
  by destruct n.
Qed.

Lemma draws_length n st : length (draws n st) = n.
Proof.
  revert st. induction n as [|n IH]; intros st; [done|].
  cbn [draws]. destruct (mt19937_next st). simpl. by rewrite IH.
Qed.

Lemma label_of_draw_AB w : label_of_draw w = "A" ∨ label_of_draw w = "B".
Proof. unfold label_of_draw. destruct (Z.testbit w 0); auto. Qed.

(** Flipping the low bit of a 32-bit word stays within 32 bits, is an
    involution, and changes the label: the two labels have equally many
    32-bit draws. *)
Lemma label_of_draw_balanced w :
  0 ≤ w < 2 ^ 32 →
  0 ≤ Z.lxor w 1 < 2 ^ 32 ∧
  Z.lxor (Z.lxor w 1) 1 = w ∧
  label_of_draw (Z.lxor w 1) ≠ label_of_draw w.
Proof.
  intros Hw. split_and!.
  - apply Z.lxor_nonneg; lia.
  - destruct (decide (w = 0)) as [->|Hne]; [reflexivity|].
    apply Z.log2_lt_cancel. rewrite Z.log2_pow2 by lia.
    eapply Z.le_lt_trans; [apply Z.log2_lxor; lia|].
    apply Z.max_lub_lt; [apply Z.log2_lt_pow2; lia|reflexivity].
  - rewrite Z.lxor_assoc. change (Z.lxor 1 1) with 0. apply Z.lxor_0_r.
  - unfold label_of_draw. rewrite Z.lxor_spec. change (Z.testbit 1 0) with true.
    by destruct (Z.testbit w 0).
Qed.

(** *** The shuffle *)

#[local] Opaque random_interval.

Lemma swap_Permutation {A} (l : list A) i j : swap l i j ≡ₚ l.
Proof.
  unfold swap.
  destruct (l !! i) as [a|] eqn:Hi; [|done].
  destruct (l !! j) as [b|] eqn:Hj; [|done].
  pose proof (lookup_lt_Some _ _ _ Hi) as Hil.
  pose proof (lookup_lt_Some _ _ _ Hj) as Hjl.
  apply Permutation_inj. split; [by rewrite !length_insert|].
  exists (λ k, if decide (k = i) then j else if decide (k = j) then i else k).
  split.
  - intros k1 k2. repeat case_decide; intros; subst; done.
  - intros k. destruct (decide (k = i)) as [->|Hki].
    + rewrite list_lookup_insert_eq by (by rewrite length_insert). done.
    + rewrite list_lookup_insert_ne by done.
      destruct (decide (k = j)) as [->|Hkj].
      * by rewrite list_lookup_insert_eq.
      * by rewrite list_lookup_insert_ne.
Qed.

Lemma shuffle_raw_Permutation {A} fuel i (data data' : list A) st st' :
  shuffle_raw fuel i data st = Ok (data', st') → data' ≡ₚ data.
Proof.
  revert data st. induction i as [|i IH]; intros data st Hrun.
  - by simplify_eq/=.
  - cbn [shuffle_raw] in Hrun.
    destruct (random_interval fuel (Z.of_nat (S i)) st) as [[j st1]|e]; [|done].
    cbn in Hrun. apply IH in Hrun. by rewrite Hrun, swap_Permutation.
Qed.

Lemma permutation_Permutation fuel n p st st' :
  permutation fuel n st = Ok (p, st') → p ≡ₚ seq 0 n.
Proof. apply shuffle_raw_Permutation. Qed.
End np_random_facts.

(** ** Facts about the split *)

#[local] Opaque NpRandom.random_interval.

Lemma bind_Ok_inv {A B} (m : result A) (f : A → result B) b :
  m ≫= f = Ok b → ∃ a, m = Ok a ∧ f a = Ok b.
Proof. destruct m; [eauto | done]. Qed.

Section split_facts.
Context {A B : Type}.
Implicit Types (a : list A) (b : list B) (ind : list nat).

Lemma take_rows_Ok {C} (c : list C) ind rows :
  take_rows c ind = Ok rows ↔ Forall2 (λ i x, c !! i = Some x) ind rows.
Proof.
  unfold take_rows. rewrite <- mapM_Some.
  destruct (mapM _ ind); simpl; split; intros; by simplify_eq.
Qed.





Lemma n_test_of_le n : n_test_of n ≤ n.
Proof. unfold n_test_of. destruct n; [done|]. apply Nat.Div0.div_le_upper_bound. lia. Qed.

Lemma validate_shuffle_split_Ok n n_train n_test :
  validate_shuffle_split n = Ok (n_train, n_test) →
  n_test = n_test_of n ∧ n_train = n - n_test_of n ∧ n_train ≠ 0.
Proof. unfold validate_shuffle_split. case_decide; naive_solver. Qed.

Lemma shuffle_split_Ok n train test :
  shuffle_split n = Ok (train, test) →
  train ++ test ≡ₚ seq 0 n ∧
  length test = n_test_of n ∧ length train = n - n_test_of n.
Proof.
  unfold shuffle_split. intros Hrun.
  apply bind_Ok_inv in Hrun as ([n_train n_test] & Hv & Hrun).
  apply validate_shuffle_split_Ok in Hv as (-> & -> & _).
  apply bind_Ok_inv in Hrun as ([perm st] & Hp & Hrun).
  apply permutation_Permutation in Hp. simplify_eq/=.
  pose proof (n_test_of_le n) as Hle.
  assert (length perm = n) as Hlen by (by rewrite Hp, length_seq).
  rewrite take_ge by (rewrite length_drop; lia).
  split_and!.
  - by rewrite (Permutation_app_comm (drop _ _)), take_drop.
  - rewrite length_take. lia.
  - rewrite length_drop. lia.
Qed.
End split_facts.

(** ** Facts about the encoder *)

Lemma bind_Ok {A B} (a : A) (f : A → result B) : Ok a ≫= f = f a.
Proof. done. Qed.

Lemma mapM_result_Ok {A B} (f : A → result B) (l : list A) (k : list B) :
  mapM f l = Ok k ↔ Forall2 (λ x y, f x = Ok y) l k.
Proof.
  split.
  - revert k. induction l as [|x l IH]; intros k Hk; csimpl in *.
    + injection Hk as <-. constructor.
    + apply bind_Ok_inv in Hk as (y & Hy & Hk).
      apply bind_Ok_inv in Hk as (k' & Hk' & Hk).
      injection Hk as <-. constructor; auto.
  - induction 1 as [|x y l k Hxy _ IH]; [done|].
    change (mapM f (x :: l)) with (y ← f x; k ← mapM f l; mret (y :: k)).
    by rewrite Hxy, bind_Ok, IH.
Qed.

Section encoder_facts.
Context `{Countable A} (R : relation A).
Context `{!RelDecision R, !PartialOrder R, !Total R}.
Implicit Types (values classes : list A) (codes : list nat).

Lemma unique_python_elem values x : x ∈ unique_python R values ↔ x ∈ values.
Proof.
  unfold unique_python.
  by rewrite merge_sort_Permutation, elem_of_elements, elem_of_list_to_set.
Qed.

Lemma unique_python_NoDup values : NoDup (unique_python R values).
Proof. unfold unique_python. rewrite merge_sort_Permutation. apply NoDup_elements. Qed.

Lemma unique_python_sorted values : StronglySorted R (unique_python R values).
Proof. apply (StronglySorted_merge_sort _). Qed.

(** The vocabulary is the same whatever order the set is enumerated in:
    it is the one sorted list of the distinct values. *)
Lemma unique_python_unique values classes :
  StronglySorted R classes → NoDup classes →
  (∀ x, x ∈ classes ↔ x ∈ values) →
  classes = unique_python R values.
Proof.
  intros Hs Hn Hel. apply (StronglySorted_unique R); [done|apply unique_python_sorted|].
  apply NoDup_Permutation; [done|apply unique_python_NoDup|].
  intros x. by rewrite Hel, unique_python_elem.
Qed.

Lemma code_table_snoc classes x :
  code_table (classes ++ [x]) = <[x := length classes]> (code_table classes).
Proof.
  unfold code_table. rewrite imap_app, fold_left_app. simpl.
  by rewrite Nat.add_0_r.
Qed.

Lemma code_table_lookup classes v i :
  NoDup classes → code_table classes !! v = Some i ↔ classes !! i = Some v.
Proof.
  revert i. induction classes as [|x classes IH] using rev_ind; intros i Hn.
  - unfold code_table. simpl. by rewrite lookup_empty, lookup_nil.
  - apply NoDup_app in Hn as (Hn & Hx & _). rewrite code_table_snoc.
    assert (x ∉ classes) as Hx' by (intros Hin; apply (Hx _ Hin); by left).
    destruct (decide (x = v)) as [->|Hne].
    + rewrite lookup_insert_eq. split.
      * intros [= <-]. by rewrite lookup_app_r, Nat.sub_diag.
      * intros Hi. f_equal. destruct (decide (i < length classes)) as [Hlt|Hge].
        { rewrite lookup_app_l in Hi by done.
          apply list_elem_of_lookup_2 in Hi. done. }
        apply lookup_lt_Some in Hi. rewrite length_app in Hi. simpl in Hi. lia.
    + rewrite lookup_insert_ne by done. rewrite IH by done.
      split.
      * intros Hi. by apply lookup_app_l_Some.
      * intros Hi. apply lookup_app_Some in Hi as [Hi|[_ Hi]]; [done|].
        apply list_lookup_singleton_Some in Hi as [_ ?]. done.
Qed.

Lemma map_to_integer_Ok values classes codes :
  NoDup classes →
  map_to_integer values classes = Ok codes ↔
  Forall2 (λ v c, classes !! c = Some v) values codes.
Proof.
  intros Hn. unfold map_to_integer. rewrite mapM_result_Ok.
  split; intros Hf; (eapply Forall2_impl; [exact Hf|]); intros v c;
    rewrite <- code_table_lookup by done;
    destruct (code_table classes !! v); simpl; naive_solver.
Qed.

(** A value of the vocabulary always has a code. *)
Lemma map_to_integer_total values classes :
  NoDup classes → (∀ v, v ∈ values → v ∈ classes) →
  ∃ codes, map_to_integer values classes = Ok codes.
Proof.
  intros Hn. induction values as [|v values IH]; intros Hin.
  - by exists [].
  - destruct IH as [codes Hc]; [intros; apply Hin; by right|].
    destruct (list_elem_of_lookup_1 classes v) as [c Hv]; [apply Hin; by left|].
    exists (c :: codes). apply map_to_integer_Ok; [done|].
    constructor; [done|]. by apply map_to_integer_Ok.
Qed.

Lemma decode_codes_Ok classes values codes :
  Forall2 (λ v c, classes !! c = Some v) values codes →
  decode_codes classes codes = Ok values.
Proof.
  intros Hf. unfold decode_codes. apply mapM_result_Ok. apply Forall2_flip.
  eapply Forall2_impl; [done|]. intros v c ->. done.
Qed.

Lemma sorted_lookup_le classes i j a b :
  StronglySorted R classes → i < j →
  classes !! i = Some a → classes !! j = Some b → R a b.
Proof.
  intros Hs. revert i j. induction Hs as [|x l Hs IH Hall]; intros i j Hij Hi Hj.
  - done.
  - destruct j as [|j]; [lia|]. simpl in Hj. destruct i as [|i]; simpl in Hi.
    + injection Hi as <-. rewrite Forall_forall in Hall. apply Hall.
      by eapply list_elem_of_lookup_2.
    + apply (IH i j); [lia|done..].
Qed.

(** In a sorted vocabulary without repetition, codes follow the order of
    the categories, strictly. *)
Lemma sorted_codes_order classes i j a b :
  StronglySorted R classes → NoDup classes →
  classes !! i = Some a → classes !! j = Some b →
  i < j ↔ R a b ∧ a ≠ b.
Proof.
  intros Hs Hn Hi Hj. split.
  - intros Hij. split; [by eapply sorted_lookup_le|].
    intros ->. pose proof (NoDup_lookup _ _ _ _ Hn Hi Hj). lia.
  - intros [Hab Hne]. destruct (decide (i < j)) as [|Hge]; [done|].
    destruct (decide (i = j)) as [->|Hij]; [congruence|].
    assert (R b a) by (eapply (sorted_lookup_le classes j i); [done|lia|done..]).
    destruct Hne. by apply (anti_symm R).
Qed.
End encoder_facts.

(** ** Rules for running cells *)

Section wp_rules.
Context {A B : Type}.
Implicit Types (Q : A → notebook → Prop) (E : notebook → Prop).

Lemma wp_bind (c : nbM A) (f : A → nbM B) (R : B → notebook → Prop) E nb :
  wp c (λ a nb', wp (f a) R E nb') E nb → wp (c ≫= f) R E nb.
Proof.
  unfold wp, mbind, nbM_bind. by destruct (c nb) as [[a|e] nb'].
Qed.

Lemma wp_ret (a : A) Q E nb : Q a nb → wp (mret a) Q E nb.
Proof. done. Qed.

Lemma wp_lift (r : result A) Q E nb :
  (∀ a, r = Ok a → Q a nb) → (∀ e, r = Raise e → E nb) → wp (lift r) Q E nb.
Proof. unfold wp, lift. destruct r; eauto. Qed.

Lemma wp_var name (get : notebook → option A) Q E nb :
  (∀ a, get nb = Some a → Q a nb) → (get nb = None → E nb) →
  wp (var name get) Q E nb.
Proof. unfold wp, var. destruct (get nb); simpl; eauto. Qed.

Lemma wp_mono (c : nbM A) Q Q' E E' nb :
  wp c Q E nb → (∀ a nb', Q a nb' → Q' a nb') → (∀ nb', E nb' → E' nb') →
  wp c Q' E' nb.
Proof. unfold wp. destruct (c nb) as [[a|e] nb']; eauto. Qed.

Lemma wp_run (c : nbM A) Q E nb :
  wp c Q E nb →
  match (c nb).1 with Ok a => Q a (c nb).2 | Raise _ => E (c nb).2 end.
Proof. unfold wp. by destruct (c nb) as [[a|e] nb']. Qed.
End wp_rules.

Lemma wp_modify f (Q : unit → notebook → Prop) E nb :
  Q tt (f nb) → wp (modify f) Q E nb.
Proof. done. Qed.

Lemma wp_load l (Q : DataFrame → notebook → Prop) E nb :
  (∀ d, heap nb !! l = Some d → Q d nb) → (heap nb !! l = None → E nb) →
  wp (load l) Q E nb.
Proof. unfold wp, load. destruct (heap nb !! l); simpl; eauto. Qed.

Lemma wp_store l d (Q : unit → notebook → Prop) E nb :
  Q tt (set_heap <[l := d]> nb) → wp (store l d) Q E nb.
Proof. done. Qed.

Lemma wp_new d (Q : loc → notebook → Prop) E nb :
  (∀ l, heap nb !! l = None → Q l (set_heap <[l := d]> nb)) → wp (new d) Q E nb.
Proof.
  intros HQ. unfold wp, new. apply HQ.
  apply not_elem_of_dom. apply is_fresh.
Qed.

Lemma wp_frame_getitem l k (Q : Series → notebook → Prop) E nb :
  (∀ d s, heap nb !! l = Some d → columns d !! k = Some s → Q s nb) →
  ((¬ ∃ d s, heap nb !! l = Some d ∧ columns d !! k = Some s) → E nb) →
  wp (frame_getitem l k) Q E nb.
Proof.
  intros HQ HE. unfold frame_getitem. apply wp_bind, wp_load.
  - intros d Hd. apply wp_lift; unfold getitem.
    + destruct (columns d !! k) eqn:Hk; intros; simplify_eq/=. eauto.
    + intros e He. apply HE. intros (d' & s & ? & Hs). simplify_eq.
      by rewrite Hs in He.
  - intros Hnone. apply HE. intros (d' & s & ? & Hs). congruence.
Qed.

Lemma wp_frame_setitem l k s (Q : unit → notebook → Prop) E nb :
  (∀ d, heap nb !! l = Some d → series_len s = len d →
        Q tt (set_heap <[l := mkDF (index d) (<[k := s]> (columns d))]> nb)) →
  ((¬ ∃ d, heap nb !! l = Some d ∧ series_len s = len d) → E nb) →
  wp (frame_setitem l k s) Q E nb.
Proof.
  intros HQ HE. unfold frame_setitem. apply wp_bind, wp_load.
  - intros d Hd. apply wp_bind, wp_lift; unfold setitem.
    + intros d'. case_decide; intros; simplify_eq. apply wp_store. eauto.
    + intros e. case_decide; [done|]. intros _. apply HE.
      intros (d' & ? & ?). by simplify_eq.
  - intros Hnone. apply HE. intros (d' & ? & ?). congruence.
Qed.

Lemma wp_for_each {A} (I : notebook → Prop) E (xs : list A) (body : A → nbM unit) nb :
  I nb →
  (∀ x nb', x ∈ xs → I nb' → wp (body x) (λ _, I) E nb') →
  wp (for_each xs body) (λ _, I) E nb.
Proof.
  revert nb. induction xs as [|x xs IH]; intros nb HI Hbody; simpl.
  - by apply wp_ret.
  - apply wp_bind. eapply wp_mono; [apply Hbody; [by left|done]| |done].
    intros [] nb' HI'. simpl in *. apply IH; [done|].
    intros; apply Hbody; [by right|done].
Qed.

Lemma wp_returns {A} (c : nbM A) nb a0 nb0 :
  wp c (λ a nb', a = a0 ∧ nb' = nb0) (λ _, False) nb → c nb = (Ok a0, nb0).
Proof. unfold wp. destruct (c nb) as [[a|e] nb']; [by intros [-> ->]|done]. Qed.

(** ** The CTR column *)



(** ** The A/B cell *)

Lemma wp_np_random_choice_AB n (Q : list string → notebook → Prop) E nb :
  Q (label_of_draw <$> draws n (np_random nb))
    (set_np_random (after_draws n (np_random nb)) nb) →
  wp (np_random_choice ["A"; "B"] n) Q E nb.
Proof.
  intros HQ. unfold wp, np_random_choice.
  by rewrite choice_AB.
Qed.

Lemma variant_labels_length n : length (variant_labels n) = n.
Proof. unfold variant_labels. by rewrite length_fmap, draws_length. Qed.

Lemma variant_labels_AB n : Forall (λ k, k = "A" ∨ k = "B") (variant_labels n).
Proof.
  unfold variant_labels. apply Forall_fmap, Forall_true. intros w.
  apply label_of_draw_AB.
Qed.

(** The table after the assignment line, whatever happens afterwards in the
    cell: the labels are written before the aggregation is attempted. *)
Lemma cell_ab_assigns nb l d :
  df nb = Some l → heap nb !! l = Some d →
  df (cell_ab nb).2 = Some l ∧
  heap (cell_ab nb).2 !! l = Some
    (mkDF (index d) (<["ad_variant" := SStr (variant_labels (len d))]> (columns d))).
Proof.
  intros Hdf Hl.
  set (d1 := mkDF (index d) (<["ad_variant" := SStr (variant_labels (len d))]> (columns d))).
  set (P := λ nb' : notebook, df nb' = Some l ∧ heap nb' !! l = Some d1).
  assert (wp cell_ab (λ _, P) P nb) as Hwp.
  { unfold cell_ab.
    apply wp_bind, wp_modify.
    apply wp_bind, wp_var; [|simpl; congruence]. intros ? ?; simplify_eq/=.
    apply wp_bind, wp_load; [|simpl; congruence]. intros ? ?; simplify_eq/=.
    apply wp_bind, wp_np_random_choice_AB.
    apply wp_bind, wp_frame_setitem; simpl.
    2:{ intros []. eexists; split; [done|]. simpl.
        by rewrite length_fmap, draws_length. }
    intros ? ? _; simplify_eq.
    match goal with |- wp _ _ _ ?s => set (nb1 := s) end.
    assert (P nb1) as HP1.
    { split; [done|]. unfold nb1; simpl. by rewrite lookup_insert_eq. }
    clearbody nb1. clear Hdf Hl. pose proof HP1 as [Hdf Hl].
    apply wp_bind, wp_load; [|done]. intros ? ?; simplify_eq.
    apply wp_bind, wp_lift; [|done]. intros g _.
    apply wp_bind, wp_new. intros lg Hlg.
    assert (lg ≠ l) as Hne by congruence.
    apply wp_bind, wp_modify.
    assert (∀ g', P (set_grouped lg (set_heap <[lg:=g']> nb1))) as HP.
    { intros g'. split; simpl; [done|]. by rewrite lookup_insert_ne. }
    apply wp_bind, wp_frame_getitem; [|intros; apply HP]. intros ? ? _ _.
    apply wp_bind, wp_frame_getitem; [|intros; apply HP]. intros ? ? _ _.
    apply wp_bind, wp_lift; [|intros; apply HP]. intros ctr _.
    apply wp_frame_setitem; [|intros; apply HP]. intros g' _ _.
    split; simpl; [done|]. by rewrite !lookup_insert_ne. }
  apply wp_run in Hwp. destruct (cell_ab nb).1; apply Hwp.
Qed.

Lemma groupby_agg_sum_counts d labels clicks imps :
  columns d !! "ad_variant" = Some (SStr labels) →
  columns d !! "Impressions" = Some (SInt imps) →
  columns d !! "Clicks" = Some (SInt clicks) →
  groupby_agg_sum d "ad_variant" ["Impressions"; "Clicks"] =
    Ok (mkDF (LabelIndex (group_keys labels))
          (<["Impressions" := SInt (group_sum labels imps <$> group_keys labels)]>
             (<["Clicks" := SInt (group_sum labels clicks <$> group_keys labels)]> ∅))).
Proof.
  intros Hv Hm Hc. unfold groupby_agg_sum, getitem. rewrite Hv.
  cbn [from_opt]. rewrite bind_Ok. cbn [agg_sum_columns]. unfold getitem.
  rewrite Hm, Hc. done.
Qed.

(** The A/B cell on a table with integer count columns: it returns, and
    [grouped] is a new table holding the per-variant aggregates. *)
Lemma cell_ab_run nb l d clicks imps :
  df nb = Some l → heap nb !! l = Some d →
  columns d !! "Clicks" = Some (SInt clicks) →
  columns d !! "Impressions" = Some (SInt imps) →
  ∃ nb' lg,
    cell_ab nb = (Ok (), nb') ∧
    grouped nb' = Some lg ∧ lg ≠ l ∧
    heap nb' !! lg = Some (ab_grouped (variant_labels (len d)) clicks imps).
Proof.
  intros Hdf Hl Hc Hm.
  set (g := ab_grouped (variant_labels (len d)) clicks imps).
  set (Q := λ (_ : ()) (nb' : notebook),
         ∃ lg, grouped nb' = Some lg ∧ lg ≠ l ∧ heap nb' !! lg = Some g).
  assert (wp cell_ab Q (λ _, False) nb) as Hwp.
  { unfold cell_ab.
    apply wp_bind, wp_modify.
    apply wp_bind, wp_var; [|simpl; congruence]. intros ? ?; simplify_eq/=.
    apply wp_bind, wp_load; [|simpl; congruence]. intros ? ?; simplify_eq/=.
    apply wp_bind, wp_np_random_choice_AB.
    apply wp_bind, wp_frame_setitem; simpl.
    2:{ intros []. eexists; split; [done|]. simpl.
        by rewrite length_fmap, draws_length. }
    intros ? ? _; simplify_eq.
    apply wp_bind, wp_load; simpl; rewrite lookup_insert_eq; [|done].
    intros ? [= <-].
    rewrite (groupby_agg_sum_counts _ (variant_labels (len d)) clicks imps);
      [|cbn [columns]; by rewrite lookup_insert_eq
       |cbn [columns]; by rewrite lookup_insert_ne..].
    apply wp_bind, wp_lift; [|done]. intros g0 [= <-].
    apply wp_bind, wp_new. intros lg Hlg. simpl in Hlg.
    assert (lg ≠ l) as Hne by (intros ->; by rewrite lookup_insert_eq in Hlg).
    apply wp_bind, wp_modify.
    apply wp_bind, wp_frame_getitem; simpl; rewrite lookup_insert_eq.
    2:{ intros []. do 2 eexists. split; [done|]. simpl.
        by rewrite lookup_insert_ne, lookup_insert_eq. }
    intros ? s1 [= <-]. simpl. rewrite lookup_insert_ne, lookup_insert_eq by done.
    intros [= <-].
    apply wp_bind, wp_frame_getitem; simpl; rewrite lookup_insert_eq.
    2:{ intros []. do 2 eexists. split; [done|]. simpl.
        by rewrite lookup_insert_eq. }
    intros ? s2 [= <-]. simpl. rewrite lookup_insert_eq. intros [= <-].
    apply wp_bind, wp_lift; [|done]. intros ctr [= <-].
    apply wp_frame_setitem; simpl; rewrite lookup_insert_eq.
    2:{ intros []. eexists. split; [done|]. simpl.
        by rewrite length_zip_with, !length_fmap, Nat.min_id. }
    intros ? [= <-] _. exists lg. simpl. split_and!; [done..|].
    by rewrite lookup_insert_eq. }
  unfold wp in Hwp. destruct (cell_ab nb) as [[[]|e] nb']; [|done].
  destruct Hwp as (lg & ? & ? & ?). by exists nb', lg.
Qed.


Lemma truediv_int64_unit c m :
  (0 ≤ c ≤ m)%Z → (0 < m)%Z → in_unit_interval (truediv_int64 c m) = true.
Proof.
  intros Hc Hm. unfold truediv_int64.
  destruct (Z.eqb_spec m 0); [lia|].
  unfold in_unit_interval. apply andb_true_iff.
  rewrite !Qle_bool_iff, !Qred_correct.
  destruct m as [|p|p]; [lia| |lia].
  unfold Qle, Qdiv, Qmult, Qinv, inject_Z. simpl. lia.
Qed.

Lemma counts_le_split (clicks imps : list Z) :
  Forall2 (λ c m, 0 ≤ c ≤ m)%Z clicks imps →
  Forall (λ x, 0 ≤ x)%Z clicks ∧ Forall (λ x, 0 ≤ x)%Z imps ∧ Forall2 Z.le clicks imps.
Proof.
  induction 1 as [|c m cs ms Hcm _ (IH1 & IH2 & IH3)]; [by repeat constructor|].
  split_and!; constructor; auto; lia.
Qed.

(** ** The encoder on string columns *)

Lemma mapM_code_index (cs : list nat) : mapM code_index (Z.of_nat <$> cs) = Ok cs.
Proof.
  apply mapM_result_Ok. apply Forall2_fmap_l, Forall_Forall2_diag, Forall_true.
  intros c. unfold code_index, compose.
  destruct (Z.ltb_spec (Z.of_nat c) 0); [lia|]. f_equal. lia.
Qed.

Lemma fit_transform_str vs :
  ∃ cs,
    fit_transform (SStr vs) = Ok (mkLE (SStr (unique_python String.le vs)), int_codes cs) ∧
    Forall2 (λ v c, unique_python String.le vs !! c = Some v) vs cs.
Proof.
  destruct (map_to_integer_total vs (unique_python String.le vs)) as [cs Hcs].
  - apply (unique_python_NoDup String.le).
  - intros v Hv. by apply (unique_python_elem String.le).
  - exists cs. split.
    + unfold fit_transform. by rewrite Hcs.
    + by apply (map_to_integer_Ok _ _ _ (unique_python_NoDup String.le vs)).
Qed.

Lemma transform_str cl vs cs :
  NoDup cl → Forall2 (λ v c, cl !! c = Some v) vs cs →
  transform (mkLE (SStr cl)) (SStr vs) = Ok (int_codes cs).
Proof.
  intros Hn Hf. unfold transform. cbn [classes_].
  apply (map_to_integer_Ok vs cl cs Hn) in Hf. by rewrite Hf.
Qed.

Lemma inverse_transform_str cl vs cs :
  Forall2 (λ v c, cl !! c = Some v) vs cs →
  inverse_transform (mkLE (SStr cl)) (int_codes cs) = Ok (SStr vs).
Proof.
  intros Hf. unfold inverse_transform, int_codes. rewrite mapM_code_index.
  rewrite bind_Ok. cbn [classes_]. by rewrite (decode_codes_Ok _ _ _ Hf).
Qed.

(** What fitting an encoder on a string column gives. *)
Lemma fit_transform_str_spec vs le codes :
  fit_transform (SStr vs) = Ok (le, codes) →
  ∃ cl cs,
    classes_ le = SStr cl ∧ codes = int_codes cs ∧
    (∀ v, v ∈ cl ↔ v ∈ vs) ∧ NoDup cl ∧ StronglySorted String.le cl ∧
    Forall2 (λ v c, cl !! c = Some v) vs cs.
Proof.
  destruct (fit_transform_str vs) as (cs & -> & Hf). intros [= <- <-].
  exists (unique_python String.le vs), cs. split_and!; try done.
  - intros v. apply (unique_python_elem String.le).
  - apply (unique_python_NoDup String.le).
  - apply (unique_python_sorted String.le).
Qed.

(** ** The encoding cell *)

Lemma getitem_list_features d sG sA sV sC :
  columns d !! "Gender" = Some sG → columns d !! "Age" = Some sA →
  columns d !! "ad_variant" = Some sV → columns d !! "Clicked" = Some sC →
  getitem_list d (features ++ ["Clicked"]) =
    Ok (mkDF (index d)
          (<["Gender" := sG]> (<["Age" := sA]> (<["ad_variant" := sV]>
             (<["Clicked" := sC]> ∅))))).
Proof.
  intros HG HA HV HC. unfold getitem_list, features. cbn [app select_columns].
  unfold getitem. rewrite HG, HA, HV, HC. done.
Qed.

(** One turn of the loop, on a string column. *)
Lemma wp_encode_column col m dm vs t (Q : () → notebook → Prop) nb :
  df_model nb = Some m → heap nb !! m = Some dm →
  columns dm !! col = Some (SStr vs) → length vs = len dm →
  le_dict nb = Some t →
  (∀ le cs,
     fit_transform (SStr vs) = Ok (le, int_codes cs) →
     Q () (set_le_dict (<[col := le]> t)
             (set_heap <[m := mkDF (index dm) (<[col := int_codes cs]> (columns dm))]> nb))) →
  wp (encode_column col) Q (λ _, False) nb.
Proof.
  intros Hm Hdm Hcol Hlen Ht HQ. unfold encode_column.
  destruct (fit_transform_str vs) as (cs & Hft & Hf).
  apply wp_bind, wp_var; [|congruence]. intros ? ?; simplify_eq.
  apply wp_bind, wp_frame_getitem; [|intros []; eauto].
  intros ? ? ? ?; simplify_eq.
  apply wp_bind, wp_lift; [|congruence]. intros [le codes] Hle.
  rewrite Hft in Hle. injection Hle as <- <-.
  apply wp_bind, wp_var; [|congruence]. intros ? ?; simplify_eq.
  apply wp_bind, wp_frame_setitem.
  2:{ intros []. eexists; split; [done|]. cbn.
      rewrite length_fmap, <- (Forall2_length _ _ _ Hf). done. }
  intros ? ? _; simplify_eq.
  apply wp_bind, wp_var; [|simpl; congruence]. simpl. intros ? ?; simplify_eq.
  apply wp_modify. by apply HQ.
Qed.

(** The encoding cell on a table with string feature columns: it returns;
    [df_model] is a new table, distinct from [df], holding the codes; [df]
    is as it was. *)
Lemma cell_encode_run nb l d vG vA vV sC :
  df nb = Some l → heap nb !! l = Some d →
  columns d !! "Gender" = Some (SStr vG) → columns d !! "Age" = Some (SStr vA) →
  columns d !! "ad_variant" = Some (SStr vV) → columns d !! "Clicked" = Some sC →
  length vG = len d → length vA = len d → length vV = len d →
  ∃ nb' m leG leA leV cG cA cV,
    cell_encode nb = (Ok (), nb') ∧
    fit_transform (SStr vG) = Ok (leG, int_codes cG) ∧
    fit_transform (SStr vA) = Ok (leA, int_codes cA) ∧
    fit_transform (SStr vV) = Ok (leV, int_codes cV) ∧
    df nb' = Some l ∧ heap nb' !! l = Some d ∧
    df_model nb' = Some m ∧ m ≠ l ∧
    heap nb' !! m = Some (mkDF (index d)
      (<["ad_variant" := int_codes cV]> (<["Age" := int_codes cA]>
         (<["Gender" := int_codes cG]>
            (<["Gender" := SStr vG]> (<["Age" := SStr vA]>
               (<["ad_variant" := SStr vV]> (<["Clicked" := sC]> ∅)))))))) ∧
    le_dict nb' = Some (<["ad_variant" := leV]> (<["Age" := leA]> (<["Gender" := leG]> ∅))).
Proof.
  intros Hdf Hl HG HA HV HC LG LA LV.
  set (Q := λ (_ : ()) (nb' : notebook), ∃ m leG leA leV cG cA cV,
    fit_transform (SStr vG) = Ok (leG, int_codes cG) ∧
    fit_transform (SStr vA) = Ok (leA, int_codes cA) ∧
    fit_transform (SStr vV) = Ok (leV, int_codes cV) ∧
    df nb' = Some l ∧ heap nb' !! l = Some d ∧
    df_model nb' = Some m ∧ m ≠ l ∧
    heap nb' !! m = Some (mkDF (index d)
      (<["ad_variant" := int_codes cV]> (<["Age" := int_codes cA]>
         (<["Gender" := int_codes cG]>
            (<["Gender" := SStr vG]> (<["Age" := SStr vA]>
               (<["ad_variant" := SStr vV]> (<["Clicked" := sC]> ∅)))))))) ∧
    le_dict nb' = Some (<["ad_variant" := leV]> (<["Age" := leA]> (<["Gender" := leG]> ∅)))).
  assert (wp cell_encode Q (λ _, False) nb) as Hwp.
  { unfold cell_encode.
    apply wp_bind, wp_var; [|congruence]. intros ? ?; simplify_eq.
    apply wp_bind, wp_load; [|congruence]. intros ? ?; simplify_eq.
    rewrite (getitem_list_features d _ _ _ _ HG HA HV HC).
    apply wp_bind, wp_lift; [|done]. intros sub [= <-].
    apply wp_bind, wp_new. intros m Hm.
    assert (m ≠ l) as Hne by congruence.
    apply wp_bind, wp_modify. apply wp_bind, wp_modify.
    unfold features. cbn [for_each].
    apply wp_bind.
    eapply (wp_encode_column "Gender" m _ vG ∅);
      [done|simpl; by rewrite lookup_insert_eq
      |cbn [columns]; by rewrite lookup_insert_eq|exact LG|done|].
    intros leG cG HfG.
    apply wp_bind.
    eapply (wp_encode_column "Age" m _ vA);
      [done|simpl; by rewrite lookup_insert_eq
      |cbn [columns]; rewrite !lookup_insert_ne by done; by rewrite lookup_insert_eq
      |exact LA|done|].
    intros leA cA HfA.
    apply wp_bind.
    eapply (wp_encode_column "ad_variant" m _ vV);
      [done|simpl; by rewrite lookup_insert_eq
      |cbn [columns]; rewrite !lookup_insert_ne by done; by rewrite lookup_insert_eq
      |exact LV|done|].
    intros leV cV HfV.
    apply wp_ret. exists m, leG, leA, leV, cG, cA, cV.
    split_and!; try done; simpl.
    - by rewrite !lookup_insert_ne.
    - by rewrite lookup_insert_eq. }
  unfold wp in Hwp. destruct (cell_encode nb) as [[[]|e] nb']; [|done].
  destruct Hwp as (m & leG & leA & leV & cG & cA & cV & ?).
  exists nb', m, leG, leA, leV, cG, cA, cV. by split.
Qed.

Lemma int_codes_inj cs cs' : int_codes cs = int_codes cs' → cs = cs'.
Proof. intros [= Heq]. by apply (inj (fmap Z.of_nat)) in Heq. Qed.

Section fitted_encoder.
Context (cl vs : list string) (cs : list nat).
Context (Hn : NoDup cl) (Hs : StronglySorted String.le cl).
Context (Hf : Forall2 (λ v c, cl !! c = Some v) vs cs).

Lemma fitted_record i v :
  vs !! i = Some v →
  ∃ c, cs !! i = Some c ∧ cl !! c = Some v ∧
       transform (mkLE (SStr cl)) (SStr [v]) = Ok (int_codes [c]) ∧
       inverse_transform (mkLE (SStr cl)) (int_codes [c]) = Ok (SStr [v]).
Proof using Hn Hf.
  intros Hi. destruct (Forall2_lookup_l _ _ _ _ _ Hf Hi) as (c & Hc & Hcl).
  exists c. split_and!; [done..| |].
  - apply transform_str; [done|]. by repeat constructor.
  - apply inverse_transform_str. by repeat constructor.
Qed.

Lemma fitted_order i j a b ca cb :
  vs !! i = Some a → vs !! j = Some b → cs !! i = Some ca → cs !! j = Some cb →
  (ca < cb ↔ str_lt a b) ∧ (ca = cb ↔ a = b).
Proof using Hn Hs Hf.
  intros Ha Hb Hca Hcb.
  pose proof (Forall2_lookup_lr _ _ _ _ _ _ Hf Ha Hca) as Hla.
  pose proof (Forall2_lookup_lr _ _ _ _ _ _ Hf Hb Hcb) as Hlb.
  split.
  - apply (sorted_codes_order String.le cl); done.
  - split; [intros ->; congruence|intros ->; by eapply NoDup_lookup].
Qed.

Lemma fitted_vocabulary v :
  v ∈ cl →
  ∃ c, cl !! c = Some v ∧
       transform (mkLE (SStr cl)) (SStr [v]) = Ok (int_codes [c]) ∧
       inverse_transform (mkLE (SStr cl)) (int_codes [c]) = Ok (SStr [v]).
Proof using Hn.
  intros [c Hc]%list_elem_of_lookup_1. exists c. split_and!; [done| |].
  - apply transform_str; [done|]. by repeat constructor.
  - apply inverse_transform_str. by repeat constructor.
Qed.
End fitted_encoder.

(** ** The split cell *)

Lemma run_bind_Ok {A B} (c : nbM A) (f : A → nbM B) a nb nb' :
  c nb = (Ok a, nb') → (c ≫= f) nb = f a nb'.
Proof. unfold mbind, nbM_bind. by intros ->. Qed.

Lemma run_bind_Raise {A B} (c : nbM A) (f : A → nbM B) e nb nb' :
  c nb = (Raise e, nb') → (c ≫= f) nb = (Raise e, nb').
Proof. unfold mbind, nbM_bind. by intros ->. Qed.

Lemma values_features dm cG cA cV :
  columns dm !! "Gender" = Some (SInt cG) → columns dm !! "Age" = Some (SInt cA) →
  columns dm !! "ad_variant" = Some (SInt cV) →
  values dm features = Ok (row_at [cG; cA; cV] <$> seq 0 (len dm)).
Proof.
  intros HG HA HV. unfold values, features. cbn [int_columns]. unfold getitem.
  rewrite HG, HA, HV. done.
Qed.

(** The split cell on an encoded table: [X] and [y] are bound, then the
    split is whatever [train_test_split] returns or raises. *)
Lemma cell_split_run nb m dm cG cA cV ys :
  df_model nb = Some m → heap nb !! m = Some dm →
  columns dm !! "Gender" = Some (SInt cG) → columns dm !! "Age" = Some (SInt cA) →
  columns dm !! "ad_variant" = Some (SInt cV) →
  columns dm !! "Clicked" = Some (SInt ys) →
  let xs := row_at [cG; cA; cV] <$> seq 0 (len dm) in
  cell_split nb =
    match train_test_split xs ys with
    | Ok r => (Ok (), set_splits r (set_y ys (set_X xs nb)))
    | Raise e => (Raise e, set_y ys (set_X xs nb))
    end.
Proof.
  intros Hm Hdm HG HA HV HC xs. unfold cell_split.
  rewrite (run_bind_Ok _ _ m nb nb) by (unfold var; by rewrite Hm).
  rewrite (run_bind_Ok _ _ dm nb nb) by (unfold load; by rewrite Hdm).
  rewrite (values_features dm cG cA cV) by done. fold xs.
  rewrite (run_bind_Ok _ _ xs nb nb) by done.
  rewrite (run_bind_Ok _ _ () nb (set_X xs nb)) by done.
  rewrite (run_bind_Ok _ _ (SInt ys) (set_X xs nb) (set_X xs nb)).
  2:{ unfold frame_getitem.
      rewrite (run_bind_Ok _ _ dm (set_X xs nb) (set_X xs nb))
        by (unfold load; simpl; by rewrite Hdm).
      unfold lift, getitem. by rewrite HC. }
  rewrite (run_bind_Ok _ _ ys (set_X xs nb) (set_X xs nb)) by done.
  rewrite (run_bind_Ok _ _ () (set_X xs nb) (set_y ys (set_X xs nb))) by done.
  destruct (train_test_split xs ys) as [r|e] eqn:Hs.
  - by rewrite (run_bind_Ok _ _ r (set_y ys (set_X xs nb)) (set_y ys (set_X xs nb))).
  - by rewrite (run_bind_Raise _ _ e (set_y ys (set_X xs nb)) (set_y ys (set_X xs nb))).
Qed.

Lemma train_test_split_inv {A B} (X : list A) (y : list B) X_train X_test y_train y_test :
  train_test_split X y = Ok (X_train, X_test, y_train, y_test) →
  length X = length y ∧
  ∃ train test,
    shuffle_split (length X) = Ok (train, test) ∧
    take_rows X train = Ok X_train ∧ take_rows X test = Ok X_test ∧
    take_rows y train = Ok y_train ∧ take_rows y test = Ok y_test.
Proof.
  unfold train_test_split. intros Hrun. case_decide as Hlen; [|done].
  apply bind_Ok_inv in Hrun as ([train test] & Hss & Hrun).
  apply bind_Ok_inv in Hrun as (xtr & Hxtr & Hrun).
  apply bind_Ok_inv in Hrun as (xte & Hxte & Hrun).
  apply bind_Ok_inv in Hrun as (ytr & Hytr & Hrun).
  apply bind_Ok_inv in Hrun as (yte & Hyte & Hrun).
  injection Hrun as <- <- <- <-. split; [done|]. by exists train, test.
Qed.

(** ** What the cells leave alone *)

Section frame.
Context (l : loc).

Lemma untouched_other d nb l' d' :
  table_untouched l d nb → l' ≠ l → table_untouched l d (set_heap <[l' := d']> nb).
Proof. intros [Hdf Hl] Hne. split; simpl; [done|]. by rewrite lookup_insert_ne. Qed.

Lemma untouched_fresh d nb l' d' :
  table_untouched l d nb → heap nb !! l' = None →
  l' ≠ l ∧ table_untouched l d (set_heap <[l' := d']> nb).
Proof.
  intros Hu Hfresh. assert (l' ≠ l) by (destruct Hu; congruence).
  split; [done|]. by apply untouched_other.
Qed.

Lemma kept_of_untouched d0 d nb :
  originals_kept l d0 nb → heap nb !! l = Some d →
  ∀ nb', table_untouched l d nb' → originals_kept l d0 nb'.
Proof.
  intros (Hdf & d' & Hl & Hidx & Hcols) Hd nb' [Hdf' Hl'].
  rewrite Hl in Hd. injection Hd as ->.
  split; [done|]. by exists d.
Qed.

Lemma kept_setitem d0 nb d k s :
  originals_kept l d0 nb → heap nb !! l = Some d → k ∈ derived_columns →
  originals_kept l d0
    (set_heap <[l := mkDF (index d) (<[k := s]> (columns d))]> nb).
Proof.
  intros (Hdf & d' & Hl & Hidx & Hcols) Hd Hk.
  rewrite Hl in Hd. injection Hd as ->.
  split; [done|]. eexists. simpl. rewrite lookup_insert_eq.
  split_and!; [done..|]. intros k' Hk'. cbn [columns].
  rewrite lookup_insert_ne by (intros ->; done). by apply Hcols.
Qed.

(** The CTR cell and the target cell write one derived column of [df]. *)
Lemma cell_ctr_keeps d0 nb :
  originals_kept l d0 nb → originals_kept l d0 (cell_ctr nb).2.
Proof.
  intros HI. pose proof HI as (Hdf & d & Hl & _).
  assert (wp cell_ctr (λ _, originals_kept l d0) (originals_kept l d0) nb) as Hwp.
  { unfold cell_ctr.
    apply wp_bind, wp_var; [|done]. intros ? ?; simplify_eq.
    apply wp_bind, wp_frame_getitem; [|done]. intros _ ? _ _.
    apply wp_bind, wp_frame_getitem; [|done]. intros _ ? _ _.
    apply wp_bind, wp_lift; [|done]. intros ctr _.
    apply wp_frame_setitem; [|done]. intros ? ? _; simplify_eq.
    apply kept_setitem; [done..|]. unfold derived_columns. rewrite !elem_of_cons; auto 10. }
  apply wp_run in Hwp. by destruct (cell_ctr nb).1.
Qed.

Lemma cell_clicked_keeps d0 nb :
  originals_kept l d0 nb → originals_kept l d0 (cell_clicked nb).2.
Proof.
  intros HI. pose proof HI as (Hdf & d & Hl & _).
  assert (wp cell_clicked (λ _, originals_kept l d0) (originals_kept l d0) nb) as Hwp.
  { unfold cell_clicked.
    apply wp_bind, wp_var; [|done]. intros ? ?; simplify_eq.
    apply wp_bind, wp_frame_getitem; [|done]. intros _ ? _ _.
    apply wp_bind, wp_lift; [|done]. intros t _.
    apply wp_frame_setitem; [|done]. intros ? ? _; simplify_eq.
    apply kept_setitem; [done..|]. unfold derived_columns. rewrite !elem_of_cons; auto 10. }
  apply wp_run in Hwp. by destruct (cell_clicked nb).1.
Qed.

(** The A/B cell writes [ad_variant] into [df]; everything else it writes
    goes to the new table [grouped]. *)
Lemma cell_ab_keeps d0 nb :
  originals_kept l d0 nb → originals_kept l d0 (cell_ab nb).2.
Proof.
  intros HI. pose proof HI as (Hdf & d & Hl & _).
  destruct (cell_ab_assigns nb l d Hdf Hl) as [Hdf' Hl'].
  eapply (kept_of_untouched d0 _ _ (kept_setitem d0 nb d "ad_variant" _ HI Hl _)).
  - simpl. by rewrite lookup_insert_eq.
  - split; [done|]. exact Hl'.
  Unshelve. unfold derived_columns. rewrite !elem_of_cons; auto 10.
Qed.

(** The encoding cell writes to the copy only. *)
Lemma encode_column_untouched d m col nb :
  table_untouched l d nb ∧ df_model nb = Some m ∧ m ≠ l →
  wp (encode_column col)
     (λ _ nb', table_untouched l d nb' ∧ df_model nb' = Some m ∧ m ≠ l)
     (λ nb', table_untouched l d nb' ∧ df_model nb' = Some m ∧ m ≠ l) nb.
Proof.
  intros HI. pose proof HI as (Hu & Hm & Hne). unfold encode_column.
  apply wp_bind, wp_var; [|done]. intros ? ?; simplify_eq.
  apply wp_bind, wp_frame_getitem; [|done]. intros _ s _ _.
  apply wp_bind, wp_lift; [|done]. intros [le codes] _.
  apply wp_bind, wp_var; [|done]. intros ? ?; simplify_eq.
  apply wp_bind, wp_frame_setitem; [|done]. intros dm _ _.
  assert (table_untouched l d
            (set_heap <[m := mkDF (index dm) (<[col := codes]> (columns dm))]> nb))
    as Hu' by (by apply untouched_other).
  apply wp_bind, wp_var; [|done]. intros t _.
  apply wp_modify. done.
Qed.

Lemma cell_encode_wp d nb :
  table_untouched l d nb →
  wp cell_encode
     (λ _ nb', table_untouched l d nb' ∧ ∃ m, df_model nb' = Some m ∧ m ≠ l)
     (table_untouched l d) nb.
Proof.
  intros Hu. pose proof Hu as [Hdf Hl]. unfold cell_encode.
  apply wp_bind, wp_var; [|done]. intros ? ?; simplify_eq.
  apply wp_bind, wp_load; [|done]. intros ? ?; simplify_eq.
  apply wp_bind, wp_lift; [|done]. intros sub _.
  apply wp_bind, wp_new. intros m Hm.
  destruct (untouched_fresh d nb m sub Hu Hm) as [Hne Hu'].
  apply wp_bind, wp_modify. apply wp_bind, wp_modify.
  eapply wp_mono.
  - apply (wp_for_each
      (λ nb', table_untouched l d nb' ∧ df_model nb' = Some m ∧ m ≠ l)).
    + done.
    + intros col nb' _ HI. by apply encode_column_untouched.
  - intros _ nb' (? & ? & ?). eauto.
  - by intros nb' (? & _).
Qed.

Lemma cell_encode_untouched d nb :
  table_untouched l d nb → table_untouched l d (cell_encode nb).2.
Proof.
  intros Hu. pose proof (wp_run _ _ _ _ (cell_encode_wp d nb Hu)) as Hwp.
  destruct (cell_encode nb).1; [apply Hwp|done].
Qed.

Lemma cell_encode_copy d nb nb' :
  table_untouched l d nb → cell_encode nb = (Ok (), nb') →
  ∃ m, df_model nb' = Some m ∧ m ≠ l.
Proof.
  intros Hu Hrun. pose proof (cell_encode_wp d nb Hu) as Hwp.
  unfold wp in Hwp. rewrite Hrun in Hwp. apply Hwp.
Qed.

(** The split cell binds [X], [y] and the four subsets; it writes to no
    table. *)
Lemma cell_split_untouched d nb :
  table_untouched l d nb → table_untouched l d (cell_split nb).2.
Proof.
  intros Hu.
  assert (wp cell_split (λ _, table_untouched l d) (table_untouched l d) nb) as Hwp.
  { unfold cell_split.
    apply wp_bind, wp_var; [|done]. intros m _.
    apply wp_bind, wp_load; [|done]. intros dm _.
    apply wp_bind, wp_lift; [|done]. intros xs _.
    apply wp_bind, wp_modify.
    apply wp_bind, wp_frame_getitem; [|done]. intros _ s _ _.
    apply wp_bind, wp_lift; [|done]. intros ys _.
    apply wp_bind, wp_modify.
    apply wp_bind, wp_lift; [|done]. intros r _.
    apply wp_modify. done. }
  apply wp_run in Hwp. by destruct (cell_split nb).1.
Qed.

Lemma run_stage_keeps d0 s nb :
  originals_kept l d0 nb → originals_kept l d0 (run_stage s nb).2.
Proof.
  intros HI. destruct s; simpl.
  - by apply cell_ctr_keeps.
  - by apply cell_ab_keeps.
  - by apply cell_clicked_keeps.
  - pose proof HI as (Hdf & d & Hl & _).
    apply (kept_of_untouched d0 d nb HI Hl), cell_encode_untouched. by split.
  - pose proof HI as (Hdf & d & Hl & _).
    apply (kept_of_untouched d0 d nb HI Hl), cell_split_untouched. by split.
Qed.

Lemma run_stages_keeps d0 ss nb :
  originals_kept l d0 nb → originals_kept l d0 (run_stages ss nb).
Proof.
  revert nb. induction ss as [|s ss IH]; intros nb HI; [done|].
  simpl. by apply IH, run_stage_keeps.
Qed.
End frame.

(** ** The generator and the cells on concrete inputs *)

(** The first draws of MT19937 seeded with 42, the labels they select, and
    the permutation and split of ten positions. *)
Example mt19937_seed_42_draws :
  draws 10 (mt19937_seed 42) =
    [1608637542; 3421126067; 4083286876; 787846414; 3143890026;
     3348747335; 2571218620; 2563451924; 670094950; 1914837113]%Z.
Proof. vm_compute. reflexivity. Qed.

Example variant_labels_10 :
  variant_labels 10 = ["A"; "B"; "A"; "A"; "A"; "B"; "A"; "A"; "A"; "B"].
Proof. vm_compute. reflexivity. Qed.

Example permutation_10 :
  fst <$> NpRandom.permutation NpRandom.default_fuel 10 (mt19937_seed 42)
    = Ok [8; 1; 5; 0; 7; 2; 9; 4; 3; 6].
Proof. vm_compute. reflexivity. Qed.

Example shuffle_split_10 :
  shuffle_split 10 = Ok ([5; 0; 7; 2; 9; 4; 3; 6], [8; 1]).
Proof. vm_compute. reflexivity. Qed.

Example shuffle_split_7 : shuffle_split 7 = Ok ([5; 2; 4; 3; 6], [0; 1]).
Proof. vm_compute. reflexivity. Qed.

Example shuffle_split_1 : shuffle_split 1 = Raise ValueError.
Proof. vm_compute. reflexivity. Qed.

(** The notebook run top to bottom on the example table. *)
Example run_all_demo_returns : (run_all kernel_demo).1 = Ok ().
Proof. vm_compute. reflexivity. Qed.

Example run_all_demo_ctr :
  columns (table_of (run_all kernel_demo).2) !! "CTR" =
    Some (SFloat [Fin (1 # 10); Fin (1 # 10); NaN; Fin (1 # 10); Fin (1 # 10);
                  Fin 0; Fin (1 # 10); NaN; Fin (1 # 10); Fin (1 # 10)]).
Proof. vm_compute. reflexivity. Qed.

Example run_all_demo_le_dict :
  map_to_list <$> le_dict (run_all kernel_demo).2 =
    Some [("Gender", mkLE (SStr ["F"; "M"]));
          ("ad_variant", mkLE (SStr ["A"; "B"]));
          ("Age", mkLE (SStr ["30-34"; "35-39"; "40-44"; "45-49"]))].
Proof. vm_compute. reflexivity. Qed.

Example run_all_demo_split :
  splits (run_all kernel_demo).2 =
    Some ([[0; 0; 1]; [1; 0; 0]; [0; 0; 0]; [1; 0; 0];
           [0; 3; 1]; [1; 3; 0]; [0; 2; 0]; [1; 1; 0]],
          [[1; 2; 0]; [0; 1; 1]],
          [0; 1; 0; 0; 1; 1; 1; 1], [1; 1])%Z.
Proof. vm_compute. reflexivity. Qed.

(** int64 sums wrap: two records of 2^62 impressions in one group. *)
Example group_sum_wraps :
  group_sum ["A"; "A"] [2 ^ 62; 2 ^ 62]%Z "A" = (- 2 ^ 63)%Z.
Proof. vm_compute. reflexivity. Qed.

(** The same cell on a table whose Impressions overflow int64 within a
    group: three records, the first and third in group A with 2^62
    impressions each.  The summed Impressions of group A wrap to -2^63. *)
Example cell_ab_wraps :
  let csv := mkDF (RangeIndex 3) (list_to_map [
      ("Impressions", SInt [2 ^ 62; 0; 2 ^ 62]%Z);
      ("Clicks", SInt [0; 0; 0]%Z)]) in
  let nb := (cell_ab (cell_load csv (fresh_kernel (mt19937_seed 0))).2).2 in
  (l ← grouped nb; heap nb !! l) =
    Some (mkDF (LabelIndex ["A"; "B"]) (list_to_map [
      ("Impressions", SInt [- 2 ^ 63; 0]%Z);
      ("Clicks", SInt [0; 0]%Z);
      ("CTR", SFloat [Fin 0; NaN])])).
Proof. vm_compute. reflexivity. Qed.

(** * The claims *)



(** C4 as stated fails on a valid table: one record with no impression and
    no click satisfies Clicks <= Impressions, yet the CTR of its group is
    0/0 = NaN, which is not in [0, 1]. *)
Lemma group_ctr_nan_counterexample :
  columns csv_zero !! "Clicks" = Some (SInt [0%Z]) ∧
  columns csv_zero !! "Impressions" = Some (SInt [0%Z]) ∧
  Forall2 (λ c m, 0 ≤ c ≤ m)%Z [0%Z] [0%Z] ∧
  ∃ nb' lg g,
    cell_ab kernel_zero = (Ok (), nb') ∧
    grouped nb' = Some lg ∧ heap nb' !! lg = Some g ∧
    index g = LabelIndex ["A"] ∧
    columns g !! "Clicks" = Some (SInt [0%Z]) ∧
    columns g !! "Impressions" = Some (SInt [0%Z]) ∧
    columns g !! "CTR" = Some (SFloat [NaN]) ∧
    in_unit_interval NaN = false.
Proof.
  split_and!; [vm_compute; reflexivity..|repeat constructor; lia|].
  exists (cell_ab kernel_zero).2, 2%positive, (ab_grouped ["A"] [0%Z] [0%Z]).
  split_and!; vm_compute; reflexivity.
Qed.

(** C4, as the code has it: for a table in which every record has
    0 <= Clicks <= Impressions and whose Impressions total fits in int64,
    every row of [grouped] has 0 <= summed Clicks <= summed Impressions; its
    CTR lies in [0, 1] when the summed Impressions are positive, and is NaN
    when they are zero. *)
Theorem group_aggregate_invariant nb l d clicks imps :
  df nb = Some l → heap nb !! l = Some d →
  columns d !! "Clicks" = Some (SInt clicks) →
  columns d !! "Impressions" = Some (SInt imps) →
  Forall2 (λ c m, 0 ≤ c ≤ m)%Z clicks imps →
  (Int64.total imps ≤ Int64.max_int)%Z →
  ∃ nb' lg g ks gc gi ctr,
    cell_ab nb = (Ok (), nb') ∧ grouped nb' = Some lg ∧ heap nb' !! lg = Some g ∧
    index g = LabelIndex ks ∧
    columns g !! "Clicks" = Some (SInt gc) ∧
    columns g !! "Impressions" = Some (SInt gi) ∧
    columns g !! "CTR" = Some (SFloat ctr) ∧
    ∀ j k, ks !! j = Some k →
      ∃ c m x, gc !! j = Some c ∧ gi !! j = Some m ∧ ctr !! j = Some x ∧
        (0 ≤ c ≤ m)%Z ∧
        ((0 < m)%Z → in_unit_interval x = true) ∧
        (m = 0%Z → x = NaN).
Proof.
  intros Hdf Hl Hc Hm Hrec Hmax.
  destruct (cell_ab_run nb l d clicks imps Hdf Hl Hc Hm) as (nb' & lg & Hrun & Hg & _ & Hlg).
  set (labels := variant_labels (len d)) in *.
  exists nb', lg, (ab_grouped labels clicks imps), (group_keys labels),
    (group_sum labels clicks <$> group_keys labels),
    (group_sum labels imps <$> group_keys labels).
  eexists. split_and!; [done..| | | |].
  - unfold ab_grouped; cbn [columns].
    rewrite !lookup_insert_ne by done. by rewrite lookup_insert_eq.
  - unfold ab_grouped; cbn [columns].
    rewrite lookup_insert_ne by done. by rewrite lookup_insert_eq.
  - unfold ab_grouped; cbn [columns]. by rewrite lookup_insert_eq.
  - intros j k Hj.
    destruct (counts_le_split _ _ Hrec) as (Hcpos & Hmpos & Hle).
    pose proof (group_rows_total_le labels clicks k Hcpos) as Hgc.
    pose proof (group_rows_total_le labels imps k Hmpos) as Hgm.
    pose proof (Int64Facts.total_le_pointwise _ _ (group_rows_le labels _ _ k Hle)) as Hcm.
    pose proof (Int64Facts.total_le_pointwise _ _ Hle) as Htot.
    assert (group_sum labels clicks k = Int64.total (group_rows labels clicks k)) as Hsc.
    { unfold group_sum. rewrite Int64Facts.sum_wrap_total. apply Int64Facts.wrap_small.
      unfold Int64.in_range, Int64.min_int, Int64.max_int in *. lia. }
    assert (group_sum labels imps k = Int64.total (group_rows labels imps k)) as Hsm.
    { unfold group_sum. rewrite Int64Facts.sum_wrap_total. apply Int64Facts.wrap_small.
      unfold Int64.in_range, Int64.min_int, Int64.max_int in *. lia. }
    exists (group_sum labels clicks k), (group_sum labels imps k),
      (truediv_int64 (group_sum labels clicks k) (group_sum labels imps k)).
    split_and!.
    + by rewrite list_lookup_fmap, Hj.
    + by rewrite list_lookup_fmap, Hj.
    + by rewrite lookup_zip_with, !list_lookup_fmap, Hj.
    + lia.
    + lia.
    + intros Hpos. apply truediv_int64_unit; lia.
    + intros Hz. assert (group_sum labels clicks k = 0%Z) as -> by lia.
      by rewrite Hz.
Qed.

Lemma group_aggregate_invariant_witness :
  Forall2 (λ c m, 0 ≤ c ≤ m)%Z
    [10; 20; 0; 5; 1; 0; 20; 0; 5; 1]%Z
    [100; 200; 0; 50; 10; 100; 200; 0; 50; 10]%Z ∧
  ∃ nb', cell_ab kernel_demo = (Ok (), nb').
Proof.
  assert (Forall2 (λ c m, 0 ≤ c ≤ m)%Z
    [10; 20; 0; 5; 1; 0; 20; 0; 5; 1]%Z
    [100; 200; 0; 50; 10; 100; 200; 0; 50; 10]%Z) as Hrec
    by (repeat constructor; lia).
  split; [exact Hrec|].
  destruct (group_aggregate_invariant kernel_demo 1%positive csv_demo
              [10; 20; 0; 5; 1; 0; 20; 0; 5; 1]%Z
              [100; 200; 0; 50; 10; 100; 200; 0; 50; 10]%Z)
    as (nb' & _ & _ & _ & _ & _ & _ & Hrun & _);
    [vm_compute; reflexivity..|exact Hrec|vm_compute; discriminate|].
  exists nb'. exact Hrun.
Defined.

(** C5: the encoding cell fits one encoder per feature column.  For each of
    Gender, Age and ad_variant (string columns), the fitted vocabulary is
    the list of the distinct observed categories in lexicographic order
    without repetition; the code of a category is its position in that
    list, so distinct categories get distinct codes and codes are ordered
    as the categories are; the column written to [df_model] is the fitted
    encoder's transform of the whole column, record by record; and decoding
    the codes gives back the column, as decoding the code of any category of
    the vocabulary gives back that category. *)
Theorem label_encoding_spec nb l d vG vA vV sC :
  df nb = Some l → heap nb !! l = Some d →
  columns d !! "Gender" = Some (SStr vG) → columns d !! "Age" = Some (SStr vA) →
  columns d !! "ad_variant" = Some (SStr vV) → columns d !! "Clicked" = Some sC →
  length vG = len d → length vA = len d → length vV = len d →
  ∃ nb' m dm t,
    cell_encode nb = (Ok (), nb') ∧
    df_model nb' = Some m ∧ heap nb' !! m = Some dm ∧ le_dict nb' = Some t ∧
    ∀ col vs, (col, vs) ∈ [("Gender", vG); ("Age", vA); ("ad_variant", vV)] →
      ∃ le cl cs,
        t !! col = Some le ∧ classes_ le = SStr cl ∧
        columns dm !! col = Some (int_codes cs) ∧
        (* the vocabulary *)
        (∀ v, v ∈ cl ↔ v ∈ vs) ∧ NoDup cl ∧ StronglySorted String.le cl ∧
        cl = unique_python String.le vs ∧
        (* one mapping, applied to every record *)
        transform le (SStr vs) = Ok (int_codes cs) ∧
        (∀ i v, vs !! i = Some v →
           ∃ c, cs !! i = Some c ∧ cl !! c = Some v ∧
                transform le (SStr [v]) = Ok (int_codes [c]) ∧
                inverse_transform le (int_codes [c]) = Ok (SStr [v])) ∧
        (* injective, in lexicographic order *)
        (∀ i j a b ca cb,
           vs !! i = Some a → vs !! j = Some b →
           cs !! i = Some ca → cs !! j = Some cb →
           (ca < cb ↔ str_lt a b) ∧ (ca = cb ↔ a = b)) ∧
        (* round trip *)
        inverse_transform le (int_codes cs) = Ok (SStr vs) ∧
        (∀ v, v ∈ cl →
           ∃ c, cl !! c = Some v ∧
                transform le (SStr [v]) = Ok (int_codes [c]) ∧
                inverse_transform le (int_codes [c]) = Ok (SStr [v])).
Proof.
  intros Hdf Hl HG HA HV HC LG LA LV.
  destruct (cell_encode_run nb l d vG vA vV sC) as
    (nb' & m & leG & leA & leV & cG & cA & cV & Hrun & HfG & HfA & HfV
       & _ & _ & Hm & _ & Hdm & Ht); [done..|].
  eexists nb', m, _, _. split_and!; [done..|].
  assert (∀ vs le cs, fit_transform (SStr vs) = Ok (le, int_codes cs) →
    ∃ cl, classes_ le = SStr cl ∧
      (∀ v, v ∈ cl ↔ v ∈ vs) ∧ NoDup cl ∧ StronglySorted String.le cl ∧
      cl = unique_python String.le vs ∧
      transform le (SStr vs) = Ok (int_codes cs) ∧
      (∀ i v, vs !! i = Some v →
         ∃ c, cs !! i = Some c ∧ cl !! c = Some v ∧
              transform le (SStr [v]) = Ok (int_codes [c]) ∧
              inverse_transform le (int_codes [c]) = Ok (SStr [v])) ∧
      (∀ i j a b ca cb,
         vs !! i = Some a → vs !! j = Some b →
         cs !! i = Some ca → cs !! j = Some cb →
         (ca < cb ↔ str_lt a b) ∧ (ca = cb ↔ a = b)) ∧
      inverse_transform le (int_codes cs) = Ok (SStr vs) ∧
      (∀ v, v ∈ cl →
         ∃ c, cl !! c = Some v ∧
              transform le (SStr [v]) = Ok (int_codes [c]) ∧
              inverse_transform le (int_codes [c]) = Ok (SStr [v]))) as Hspec.
  { intros vs le cs Hfit.
    destruct (fit_transform_str_spec vs le _ Hfit) as (cl & cs' & Hcl & Hcs & Hel & Hn & Hs & Hf).
    apply int_codes_inj in Hcs as <-.
    destruct le as [s]; simpl in Hcl; subst s.
    exists cl. split_and!; try done.
    - by apply (unique_python_unique String.le).
    - by apply transform_str.
    - by apply (fitted_record cl vs cs).
    - by apply (fitted_order cl vs cs).
    - by apply inverse_transform_str.
    - by apply (fitted_vocabulary cl). }
  intros col vs Hcol.
  repeat (apply elem_of_cons in Hcol as [[= -> ->]|Hcol]);
    [| | |by apply elem_of_nil in Hcol].
  1: destruct (Hspec _ _ _ HfG) as (cl & Hcl & Hrest); exists leG, cl, cG.
  2: destruct (Hspec _ _ _ HfA) as (cl & Hcl & Hrest); exists leA, cl, cA.
  3: destruct (Hspec _ _ _ HfV) as (cl & Hcl & Hrest); exists leV, cl, cV.
  all: split; [rewrite ?lookup_insert_ne by done; by rewrite lookup_insert_eq|].
  all: split; [exact Hcl|].
  all: split; [cbn [columns]; rewrite ?lookup_insert_ne by done;
               by rewrite lookup_insert_eq|exact Hrest].
Qed.

Lemma label_encoding_spec_witness :
  ∃ nb' t, cell_encode kernel_ready = (Ok (), nb') ∧ le_dict nb' = Some t.
Proof.
  destruct (label_encoding_spec kernel_ready 1%positive (table_of kernel_ready)
              ["M"; "F"; "M"; "F"; "M"; "F"; "M"; "F"; "M"; "F"]
              ["30-34"; "35-39"; "30-34"; "40-44"; "45-49";
               "30-34"; "35-39"; "30-34"; "40-44"; "45-49"]
              ["A"; "B"; "A"; "A"; "A"; "B"; "A"; "A"; "A"; "B"]
              (SInt [1; 1; 0; 1; 1; 0; 1; 0; 1; 1]%Z))
    as (nb' & _ & _ & t & Hrun & _ & _ & Ht & _); [vm_compute; reflexivity..|].
  exists nb', t. split; [exact Hrun|exact Ht].
Defined.

(** C6: the variant assignment is a function of the seed 42 and of the
    number of records alone.  Two executions of the A/B cell, from kernels
    in any state (generator included) and on tables with the same number of
    records, write the same sequence of labels; label [i] is selected from
    {A, B} by the low bit of the [i]-th 32-bit draw of the generator seeded
    with 42, a selection that sends equally many 32-bit words to each label
    (flipping the low bit maps one half onto the other). *)
Theorem variant_assignment_deterministic nb1 nb2 l1 l2 d1 d2 :
  df nb1 = Some l1 → heap nb1 !! l1 = Some d1 →
  df nb2 = Some l2 → heap nb2 !! l2 = Some d2 →
  len d1 = len d2 →
  ∃ labels,
    (∃ d1', heap (cell_ab nb1).2 !! l1 = Some d1' ∧
            columns d1' !! "ad_variant" = Some (SStr labels)) ∧
    (∃ d2', heap (cell_ab nb2).2 !! l2 = Some d2' ∧
            columns d2' !! "ad_variant" = Some (SStr labels)) ∧
    length labels = len d1 ∧
    Forall (λ k, k = "A" ∨ k = "B") labels ∧
    (∀ i, labels !! i = label_of_draw <$> draws (len d1) (mt19937_seed 42) !! i) ∧
    (∀ w, (0 ≤ w < 2 ^ 32)%Z →
          (0 ≤ Z.lxor w 1 < 2 ^ 32)%Z ∧ Z.lxor (Z.lxor w 1) 1 = w ∧
          label_of_draw (Z.lxor w 1) ≠ label_of_draw w).
Proof.
  intros Hdf1 Hl1 Hdf2 Hl2 Hlen.
  exists (variant_labels (len d1)). split_and!.
  - destruct (cell_ab_assigns nb1 l1 d1 Hdf1 Hl1) as [_ ->].
    eexists; split; [done|]. cbn [columns]. by rewrite lookup_insert_eq.
  - destruct (cell_ab_assigns nb2 l2 d2 Hdf2 Hl2) as [_ ->].
    eexists; split; [done|]. cbn [columns]. by rewrite Hlen, lookup_insert_eq.
  - apply variant_labels_length.
  - apply variant_labels_AB.
  - intros i. unfold variant_labels. by rewrite list_lookup_fmap.
  - apply label_of_draw_balanced.
Qed.

Lemma variant_assignment_deterministic_witness :
  ∃ labels d1' d2',
    heap (cell_ab kernel_demo).2 !! 1%positive = Some d1' ∧
    columns d1' !! "ad_variant" = Some (SStr labels) ∧
    heap (cell_ab (cell_ab kernel_demo).2).2 !! 1%positive = Some d2' ∧
    columns d2' !! "ad_variant" = Some (SStr labels).
Proof.
  destruct (variant_assignment_deterministic
              kernel_demo (cell_ab kernel_demo).2 1%positive 1%positive
              csv_demo (table_of (cell_ab kernel_demo).2))
    as (labels & (d1' & H1 & H1') & (d2' & H2 & H2') & _);
    [vm_compute; reflexivity..|].
  exists labels, d1', d2'. split_and!; [exact H1|exact H1'|exact H2|exact H2'].
Defined.



(** C8: no stage modifies an original column of the loaded table.  After any
    run of the table-writing cells (in any order, any number of times, each
    returning or raising), [df] is the same object with the same index and
    every column other than CTR, ad_variant and Clicked is as loaded, in
    particular Age, Gender, Impressions, Clicks and Spend.  The encoding
    cell writes nothing at all to [df]: the codes go to [df_model], a
    distinct object. *)
Theorem original_columns_never_modified ss nb l d0 :
  df nb = Some l → heap nb !! l = Some d0 →
  originals_kept l d0 (run_stages ss nb) ∧
  (∀ k, k ∈ ["Age"; "Gender"; "Impressions"; "Clicks"; "Spend"] →
        ∃ d, heap (run_stages ss nb) !! l = Some d ∧
             columns d !! k = columns d0 !! k) ∧
  table_untouched l d0 (cell_encode nb).2 ∧
  (∀ nb', cell_encode nb = (Ok (), nb') → ∃ m, df_model nb' = Some m ∧ m ≠ l).
Proof.
  intros Hdf Hl.
  assert (originals_kept l d0 nb) as HI by (split; [done|]; by exists d0).
  pose proof (run_stages_keeps l d0 ss nb HI) as Hkept.
  split_and!.
  - done.
  - intros k Hk. destruct Hkept as (_ & d & Hd & _ & Hcols). exists d.
    split; [done|]. apply Hcols. unfold derived_columns.
    rewrite !elem_of_cons, elem_of_nil in Hk. rewrite !not_elem_of_cons.
    destruct Hk as [->|[->|[->|[->|[->|[]]]]]];
      (repeat split; [done..|apply not_elem_of_nil]).
  - by apply cell_encode_untouched.
  - intros nb'. by apply (cell_encode_copy l d0).
Qed.

Lemma original_columns_never_modified_witness :
  originals_kept 1%positive csv_demo
    (run_stages [StageCTR; StageAB; StageClicked; StageEncode; StageSplit] kernel_demo).
Proof.
  destruct (original_columns_never_modified
              [StageCTR; StageAB; StageClicked; StageEncode; StageSplit]
              kernel_demo 1%positive csv_demo) as (Hkept & _);
    [vm_compute; reflexivity..|].
  exact Hkept.
Defined.

(** C9: every encoder is fitted on the whole column before the split is
    taken, so the encoding cell itself never meets an unseen category, and
    every record that lands in the evaluation subset carries, for each
    feature, the code of its own category under the fitted encoder: the
    encoder's transform of that category returns this code and decoding the
    code returns the category. *)
Theorem evaluation_subset_in_vocabulary nb l d vG vA vV ys :
  df nb = Some l → heap nb !! l = Some d →
  columns d !! "Gender" = Some (SStr vG) → columns d !! "Age" = Some (SStr vA) →
  columns d !! "ad_variant" = Some (SStr vV) →
  columns d !! "Clicked" = Some (SInt ys) →
  length vG = len d → length vA = len d → length vV = len d →
  ∃ nb1 t,
    cell_encode nb = (Ok (), nb1) ∧ le_dict nb1 = Some t ∧
    ∀ nb2, cell_split nb1 = (Ok (), nb2) →
      ∃ X_train X_test y_train y_test,
        splits nb2 = Some (X_train, X_test, y_train, y_test) ∧
        le_dict nb2 = Some t ∧
        ∀ r, r ∈ X_test →
          ∃ i, i < len d ∧
            ∀ j col vs,
              (j, col, vs) ∈ [(0, "Gender", vG); (1, "Age", vA); (2, "ad_variant", vV)] →
              ∃ v le c,
                vs !! i = Some v ∧ t !! col = Some le ∧
                r !! j = Some (Z.of_nat c) ∧
                transform le (SStr [v]) = Ok (int_codes [c]) ∧
                inverse_transform le (int_codes [c]) = Ok (SStr [v]).
Proof.
  intros Hdf Hl HG HA HV HC LG LA LV.
  destruct (cell_encode_run nb l d vG vA vV (SInt ys)) as
    (nb1 & m & leG & leA & leV & cG & cA & cV & Hrun & HfG & HfA & HfV
       & _ & _ & Hm & _ & Hdm & Ht); [done..|].
  eexists nb1, _. split_and!; [done..|].
  intros nb2 Hsplit.
  erewrite (cell_split_run nb1 m _ (Z.of_nat <$> cG) (Z.of_nat <$> cA) (Z.of_nat <$> cV) ys)
    in Hsplit; [|done|done|cbn [columns]; rewrite ?lookup_insert_ne by done;
                         by rewrite lookup_insert_eq..].
  cbn [len index] in Hsplit.
  set (xs := row_at _ <$> seq 0 _) in Hsplit.
  destruct (train_test_split xs ys) as [[[[Xtr Xte] ytr] yte]|e] eqn:Htts; [|done].
  injection Hsplit as <-. exists Xtr, Xte, ytr, yte. split_and!; [done..|].
  intros r Hr.
  apply train_test_split_inv in Htts as (_ & train & test & _ & _ & Hte & _).
  apply take_rows_Ok in Hte.
  apply list_elem_of_lookup_1 in Hr as [p Hp].
  destruct (Forall2_lookup_r _ _ _ _ _ Hte Hp) as (i & _ & Hi).
  unfold xs in Hi. apply list_lookup_fmap_Some in Hi as (i' & -> & Hseq).
  apply lookup_seq in Hseq as [-> Hlt]. unfold len in Hlt. cbn [index] in Hlt.
  exists i. split; [done|]. cbn [Nat.add].
  assert (∀ vs le cs, fit_transform (SStr vs) = Ok (le, int_codes cs) →
          length vs = len d →
          ∃ v c, vs !! i = Some v ∧
                 default 0%Z ((Z.of_nat <$> cs) !! i) = Z.of_nat c ∧
                 transform le (SStr [v]) = Ok (int_codes [c]) ∧
                 inverse_transform le (int_codes [c]) = Ok (SStr [v])) as Hcol.
  { intros vs le cs Hfit Hlen.
    destruct (fit_transform_str_spec vs le _ Hfit)
      as (cl & cs' & Hcl & Hcs & _ & Hn & _ & Hf).
    apply int_codes_inj in Hcs as <-.
    destruct le as [s]; simpl in Hcl; subst s.
    destruct (lookup_lt_is_Some_2 vs i) as [v Hv]; [unfold len in Hlen; lia|].
    destruct (fitted_record cl vs cs Hn Hf i v Hv) as (c & Hc & _ & Htr & Hinv).
    exists v, c. split_and!; [done| |done..].
    by rewrite list_lookup_fmap, Hc. }
  intros j col vs Hcol'.
  repeat (apply elem_of_cons in Hcol' as [[= -> -> ->]|Hcol']);
    [| | |by apply elem_of_nil in Hcol'].
  1: destruct (Hcol _ _ _ HfG LG) as (v & c & Hv & Hc & Htr & Hinv); exists v, leG, c.
  2: destruct (Hcol _ _ _ HfA LA) as (v & c & Hv & Hc & Htr & Hinv); exists v, leA, c.
  3: destruct (Hcol _ _ _ HfV LV) as (v & c & Hv & Hc & Htr & Hinv); exists v, leV, c.
  all: split_and!; [done| |by rewrite <- Hc|done..].
  all: rewrite ?lookup_insert_ne by done; by rewrite lookup_insert_eq.
Qed.

Lemma evaluation_subset_in_vocabulary_witness :
  ∃ nb1 t, cell_encode kernel_ready = (Ok (), nb1) ∧ le_dict nb1 = Some t.
Proof.
  destruct (evaluation_subset_in_vocabulary kernel_ready 1%positive (table_of kernel_ready)
              ["M"; "F"; "M"; "F"; "M"; "F"; "M"; "F"; "M"; "F"]
              ["30-34"; "35-39"; "30-34"; "40-44"; "45-49";
               "30-34"; "35-39"; "30-34"; "40-44"; "45-49"]
              ["A"; "B"; "A"; "A"; "A"; "B"; "A"; "A"; "A"; "B"]
              [1; 1; 0; 1; 1; 0; 1; 0; 1; 1]%Z)
    as (nb1 & t & Hrun & Ht & _); [vm_compute; reflexivity..|].
  exists nb1, t. split; [exact Hrun|exact Ht].
Defined.



(** * Further properties of the cells *)

(** ** Exact runs of the cells that write to [df] *)

Lemma cell_ctr_run nb l d clicks imps :
  df nb = Some l → heap nb !! l = Some d →
  columns d !! "Clicks" = Some (SInt clicks) →
  columns d !! "Impressions" = Some (SInt imps) →
  length clicks = len d → length imps = len d →
  cell_ctr nb =
    (Ok (), set_heap <[l := mkDF (index d)
                (<["CTR" := SFloat (zip_with truediv_int64 clicks imps)]> (columns d))]> nb).
Proof.
  intros Hdf Hl Hc Hm Hlc Hlm. apply wp_returns. unfold cell_ctr.
  apply wp_bind, wp_var; [|congruence]. intros ? ?; simplify_eq.
  apply wp_bind, wp_frame_getitem; [|intros []; eauto].
  intros ? s1 ? Hs1; simplify_eq.
  apply wp_bind, wp_frame_getitem; [|intros []; eauto].
  intros ? s2 ? Hs2; simplify_eq.
  apply wp_bind, wp_lift; [|done]. intros s [= <-].
  apply wp_frame_setitem.
  - intros ? ? Hlen; by simplify_eq.
  - intros []. eexists; split; [done|]. simpl. rewrite length_zip_with. lia.
Qed.

Lemma cell_clicked_run nb l d clicks :
  df nb = Some l → heap nb !! l = Some d →
  columns d !! "Clicks" = Some (SInt clicks) → length clicks = len d →
  cell_clicked nb =
    (Ok (), set_heap <[l := mkDF (index d)
                (<["Clicked" := SInt (clicked_of clicks)]> (columns d))]> nb).
Proof.
  intros Hdf Hl Hc Hlen. apply wp_returns. unfold cell_clicked.
  apply wp_bind, wp_var; [|congruence]. intros ? ?; simplify_eq.
  apply wp_bind, wp_frame_getitem; [|intros []; eauto].
  intros ? ? ? ?; simplify_eq.
  apply wp_bind, wp_lift; [|done]. intros ? [= <-].
  apply wp_frame_setitem.
  - intros ? ? _; by simplify_eq.
  - intros []. eexists. split; [done|]. simpl. by rewrite length_fmap.
Qed.

Lemma clicked_of_spec clicks :
  Forall2 (λ c y, (0 < c ∧ y = 1) ∨ (c ≤ 0 ∧ y = 0))%Z clicks (clicked_of clicks).
Proof.
  apply Forall2_fmap_r, Forall_Forall2_diag, Forall_true. intros c. unfold compose.
  destruct (Z.ltb_spec 0 c); [left|right]; (split; [lia|done]).
Qed.

Lemma clicked_of_binary clicks : Forall (λ y, y = 0 ∨ y = 1)%Z (clicked_of clicks).
Proof.
  apply Forall_fmap, Forall_true. intros c. simpl. destruct (0 <? c)%Z; auto.
Qed.

Lemma design_rows_length n cG cA cV : length (design_rows n cG cA cV) = n.
Proof. unfold design_rows. by rewrite length_fmap, length_seq. Qed.

Lemma design_rows_width n cG cA cV :
  Forall (λ r, length r = 3) (design_rows n cG cA cV).
Proof. apply Forall_fmap, Forall_true. by intros i. Qed.


(** ** The notebook from the CTR cell to the split *)

Lemma run_all_run nb l d vG vA clicks imps :
  df nb = Some l → heap nb !! l = Some d →
  columns d !! "Gender" = Some (SStr vG) → columns d !! "Age" = Some (SStr vA) →
  columns d !! "Clicks" = Some (SInt clicks) →
  columns d !! "Impressions" = Some (SInt imps) →
  length vG = len d → length vA = len d →
  length clicks = len d → length imps = len d →
  ∃ nb4 m leG leA leV cG cA cV,
    fit_transform (SStr vG) = Ok (leG, int_codes cG) ∧
    fit_transform (SStr vA) = Ok (leA, int_codes cA) ∧
    fit_transform (SStr (variant_labels (len d))) = Ok (leV, int_codes cV) ∧
    df nb4 = Some l ∧ df_model nb4 = Some m ∧ m ≠ l ∧
    heap nb4 !! l = Some (mkDF (index d)
      (<["Clicked" := SInt (clicked_of clicks)]>
         (<["ad_variant" := SStr (variant_labels (len d))]>
            (<["CTR" := SFloat (zip_with truediv_int64 clicks imps)]> (columns d))))) ∧
    le_dict nb4 = Some (<["ad_variant" := leV]> (<["Age" := leA]> (<["Gender" := leG]> ∅))) ∧
    let xs := design_rows (len d) cG cA cV in
    let ys := clicked_of clicks in
    run_all nb =
      match train_test_split xs ys with
      | Ok r => (Ok (), set_splits r (set_y ys (set_X xs nb4)))
      | Raise e => (Raise e, set_y ys (set_X xs nb4))
      end.
Proof.
  intros Hdf Hl HG HA HC HI LG LA LC LI.
  pose proof (cell_ctr_run nb l d clicks imps Hdf Hl HC HI LC LI) as Hctr.
  set (d1 := mkDF (index d)
               (<["CTR" := SFloat (zip_with truediv_int64 clicks imps)]> (columns d))) in *.
  set (nb1 := set_heap <[l := d1]> nb) in *.
  assert (heap nb1 !! l = Some d1) as Hl1 by (simpl; by rewrite lookup_insert_eq).
  assert (df nb1 = Some l) as Hdf1 by done.
  destruct (cell_ab_run nb1 l d1 clicks imps Hdf1 Hl1)
    as (nb2 & lg & Hab & _); [subst d1; cbn [columns]; by rewrite lookup_insert_ne..|].
  destruct (cell_ab_assigns nb1 l d1 Hdf1 Hl1) as [Hdf2 Hl2].
  rewrite Hab in Hdf2, Hl2. cbn [snd] in Hdf2, Hl2.
  change (len d1) with (len d) in Hl2.
  set (d2 := mkDF (index d1) (<["ad_variant" := SStr (variant_labels (len d))]> (columns d1)))
    in *.
  assert (columns d2 !! "Clicks" = Some (SInt clicks)) as HC2
    by (subst d2 d1; cbn [columns]; by rewrite !lookup_insert_ne).
  pose proof (cell_clicked_run nb2 l d2 clicks Hdf2 Hl2 HC2 LC) as Hcl.
  set (d3 := mkDF (index d2) (<["Clicked" := SInt (clicked_of clicks)]> (columns d2))) in *.
  set (nb3 := set_heap <[l := d3]> nb2) in *.
  assert (heap nb3 !! l = Some d3) as Hl3 by (simpl; by rewrite lookup_insert_eq).
  assert (df nb3 = Some l) as Hdf3 by done.
  destruct (cell_encode_run nb3 l d3 vG vA (variant_labels (len d))
              (SInt (clicked_of clicks)) Hdf3 Hl3)
    as (nb4 & m & leG & leA & leV & cG & cA & cV & Henc & HfG & HfA & HfV
        & Hdf4 & Hl4 & Hm4 & Hne & Hdm & Hle);
    [subst d3 d2 d1; cbn [columns];
     rewrite ?lookup_insert_ne by done; (done || by rewrite lookup_insert_eq)..
    |done|done|apply variant_labels_length|].
  exists nb4, m, leG, leA, leV, cG, cA, cV.
  split_and!; [done..|]. intros xs ys.
  unfold run_all.
  rewrite (run_bind_Ok _ _ () nb nb1) by done.
  rewrite (run_bind_Ok _ _ () nb1 nb2) by done.
  rewrite (run_bind_Ok _ _ () nb2 nb3) by done.
  rewrite (run_bind_Ok _ _ () nb3 nb4) by done.
  erewrite (cell_split_run nb4 m _ (Z.of_nat <$> cG) (Z.of_nat <$> cA) (Z.of_nat <$> cV)
              (clicked_of clicks) Hm4 Hdm);
    [done|cbn [columns]; rewrite ?lookup_insert_ne by done; by rewrite lookup_insert_eq..].
Qed.

Lemma take_rows_Forall {C} (P : C → Prop) (c : list C) ind rows :
  take_rows c ind = Ok rows → Forall P c → Forall P rows.
Proof.
  intros Hrows%take_rows_Ok HP. rewrite Forall_forall in HP.
  induction Hrows as [|i x ind rows Hi _ IH]; constructor; [|done].
  apply HP. by eapply list_elem_of_lookup_2.
Qed.

Lemma take_rows_length {C} (c : list C) ind rows :
  take_rows c ind = Ok rows → length rows = length ind.
Proof. intros Hrows%take_rows_Ok. symmetry. by eapply Forall2_length. Qed.

Lemma codes_in_range (cl vs : list string) (cs : list nat) :
  Forall2 (λ v c, cl !! c = Some v) vs cs → Forall (λ c, c < length cl) cs.
Proof.
  induction 1 as [|v c vs cs Hc _ IH]; constructor; [|done].
  by eapply lookup_lt_Some.
Qed.
(** ** The target column *)

(** X1: the target cell on an int64 [Clicks] column returns; it writes one
    column [Clicked] of the table's length, whose entry is 1 for a record
    with at least one click and 0 otherwise (a non-positive count gives 0). *)
Theorem clicked_is_click_indicator nb l d clicks :
  df nb = Some l → heap nb !! l = Some d →
  columns d !! "Clicks" = Some (SInt clicks) → length clicks = len d →
  ∃ ys,
    cell_clicked nb
      = (Ok (), set_heap <[l := mkDF (index d) (<["Clicked" := SInt ys]> (columns d))]> nb) ∧
    length ys = len d ∧
    Forall2 (λ c y, (0 < c ∧ y = 1) ∨ (c ≤ 0 ∧ y = 0))%Z clicks ys.
Proof.
  intros Hdf Hl Hc Hlen. exists (clicked_of clicks). split_and!.
  - by apply cell_clicked_run.
  - unfold clicked_of. by rewrite length_fmap.
  - apply clicked_of_spec.
Qed.

Lemma clicked_is_click_indicator_witness :
  ∃ ys, cell_clicked kernel_demo
          = (Ok (), set_heap <[1%positive :=
                       mkDF (index csv_demo) (<["Clicked" := SInt ys]> (columns csv_demo))]>
                      kernel_demo) ∧
        Forall2 (λ c y, (0 < c ∧ y = 1) ∨ (c ≤ 0 ∧ y = 0))%Z
          [10; 20; 0; 5; 1; 0; 20; 0; 5; 1]%Z ys.
Proof.
  destruct (clicked_is_click_indicator kernel_demo 1%positive csv_demo
              [10; 20; 0; 5; 1; 0; 20; 0; 5; 1]%Z)
    as (ys & Hrun & _ & Hys); [vm_compute; reflexivity..|].
  exists ys. split; [exact Hrun|exact Hys].
Defined.

(** ** Cells run out of order, and tables without the expected columns *)

(** X2: a cell run while [df] and [df_model] are unbound raises [NameError]
    and changes nothing, except the A/B cell, which has reseeded numpy's
    generator by then. *)
Theorem cell_before_load_raises nb s :
  df nb = None → df_model nb = None →
  ∃ v, run_stage s nb
       = (Raise (NameError v),
          if s is StageAB then set_np_random (mt19937_seed 42) nb else nb).
Proof.
  intros Hdf Hm. destruct s; cbn [run_stage].
  - exists "df". unfold cell_ctr. by rewrite (run_bind_Raise _ _ (NameError "df") nb nb)
      by (unfold var; by rewrite Hdf).
  - exists "df". unfold cell_ab, np_random_seed.
    rewrite (run_bind_Ok _ _ () nb (set_np_random (mt19937_seed 42) nb)) by done.
    by rewrite (run_bind_Raise _ _ (NameError "df") _ (set_np_random (mt19937_seed 42) nb))
      by (unfold var; simpl; by rewrite Hdf).
  - exists "df". unfold cell_clicked.
    by rewrite (run_bind_Raise _ _ (NameError "df") nb nb)
      by (unfold var; by rewrite Hdf).
  - exists "df". unfold cell_encode.
    by rewrite (run_bind_Raise _ _ (NameError "df") nb nb)
      by (unfold var; by rewrite Hdf).
  - exists "df_model". unfold cell_split.
    by rewrite (run_bind_Raise _ _ (NameError "df_model") nb nb)
      by (unfold var; by rewrite Hm).
Qed.

Lemma cell_before_load_raises_witness :
  ∃ v, run_stage StageAB (fresh_kernel (mt19937_seed 0))
       = (Raise (NameError v), fresh_kernel (mt19937_seed 42)).
Proof.
  destruct (cell_before_load_raises (fresh_kernel (mt19937_seed 0)) StageAB)
    as [v Hv]; [reflexivity..|].
  exists v. exact Hv.
Defined.

(** X3: the CTR cell on a table that lacks one of the two count columns
    raises [KeyError] for the first one missing and leaves the kernel as it
    was: no [CTR] column is written. *)
Theorem ctr_missing_column nb l d :
  df nb = Some l → heap nb !! l = Some d →
  columns d !! "Clicks" = None ∨ columns d !! "Impressions" = None →
  cell_ctr nb
    = (Raise (KeyError (if columns d !! "Clicks" is None then "Clicks" else "Impressions")),
       nb).
Proof.
  intros Hdf Hl Hmiss. unfold cell_ctr.
  rewrite (run_bind_Ok _ _ l nb nb) by (unfold var; by rewrite Hdf).
  destruct (columns d !! "Clicks") as [c|] eqn:Hc.
  - destruct Hmiss as [|Hi]; [done|].
    rewrite (run_bind_Ok _ _ c nb nb).
    2:{ unfold frame_getitem. rewrite (run_bind_Ok _ _ d nb nb)
          by (unfold load; by rewrite Hl).
        unfold lift, getitem. by rewrite Hc. }
    apply run_bind_Raise. unfold frame_getitem.
    rewrite (run_bind_Ok _ _ d nb nb) by (unfold load; by rewrite Hl).
    unfold lift, getitem. by rewrite Hi.
  - apply run_bind_Raise. unfold frame_getitem.
    rewrite (run_bind_Ok _ _ d nb nb) by (unfold load; by rewrite Hl).
    unfold lift, getitem. by rewrite Hc.
Qed.

Lemma ctr_missing_column_witness :
  let nb := (cell_load (mkDF (RangeIndex 1) {["Clicks" := SInt [3%Z]]})
               (fresh_kernel (mt19937_seed 0))).2 in
  ∃ k, cell_ctr nb = (Raise (KeyError k), nb).
Proof.
  intros nb. eexists.
  apply (ctr_missing_column nb 1%positive
           (mkDF (RangeIndex 1) {["Clicks" := SInt [3%Z]]}));
    [vm_compute; reflexivity..|right; vm_compute; reflexivity].
Defined.

(** X4: the A/B cell on a table that lacks a count column raises [KeyError]
    from the aggregation, after the assignment line has run: the table has
    its [ad_variant] column, the generator has advanced, and [grouped] is
    bound as it was before the cell. *)
Theorem ab_missing_column_partial_write nb l d :
  df nb = Some l → heap nb !! l = Some d →
  columns d !! "Clicks" = None ∨ columns d !! "Impressions" = None →
  ∃ k,
    cell_ab nb
      = (Raise (KeyError k),
         set_heap <[l := mkDF (index d)
                           (<["ad_variant" := SStr (variant_labels (len d))]> (columns d))]>
           (set_np_random (after_draws (len d) (mt19937_seed 42))
              (set_np_random (mt19937_seed 42) nb))) ∧
    (k = "Clicks" ∨ k = "Impressions").
Proof.
  intros Hdf Hl Hmiss.
  set (d1 := mkDF (index d) (<["ad_variant" := SStr (variant_labels (len d))]> (columns d))).
  set (nb1 := set_heap <[l := d1]>
                (set_np_random (after_draws (len d) (mt19937_seed 42))
                   (set_np_random (mt19937_seed 42) nb))).
  assert (∃ k, groupby_agg_sum d1 "ad_variant" ["Impressions"; "Clicks"]
               = Raise (KeyError k) ∧ (k = "Clicks" ∨ k = "Impressions"))
    as (k & Hagg & Hk).
  { unfold groupby_agg_sum, getitem, d1. cbn [columns].
    rewrite lookup_insert_eq. cbn [from_opt]. rewrite bind_Ok.
    cbn [agg_sum_columns]. unfold getitem. cbn [columns].
    rewrite !lookup_insert_ne by done.
    destruct (columns d !! "Impressions") as [si|] eqn:Hi;
      [|exists "Impressions"; auto].
    destruct Hmiss as [Hc|]; [|done]. rewrite Hc.
    exists "Clicks". auto. }
  exists k. split; [|done].
  unfold cell_ab, np_random_seed.
  rewrite (run_bind_Ok _ _ () nb (set_np_random (mt19937_seed 42) nb)) by done.
  set (nb0 := set_np_random (mt19937_seed 42) nb).
  rewrite (run_bind_Ok _ _ l nb0 nb0) by (unfold var; simpl; by rewrite Hdf).
  rewrite (run_bind_Ok _ _ d nb0 nb0) by (unfold load; simpl; by rewrite Hl).
  rewrite (run_bind_Ok _ _ (variant_labels (len d)) nb0
             (set_np_random (after_draws (len d) (mt19937_seed 42)) nb0)).
  2:{ by apply wp_returns, wp_np_random_choice_AB. }
  rewrite (run_bind_Ok _ _ () _ nb1).
  2:{ apply wp_returns, wp_frame_setitem.
      - intros ? ? _. simpl in *. by simplify_eq.
      - intros []. eexists. split; [done|]. simpl. apply variant_labels_length. }
  rewrite (run_bind_Ok _ _ d1 nb1 nb1)
    by (unfold load, nb1; simpl; by rewrite lookup_insert_eq).
  apply run_bind_Raise. unfold lift. by rewrite Hagg.
Qed.

Lemma ab_missing_column_partial_write_witness :
  let d := mkDF (RangeIndex 2) {["Clicks" := SInt [3; 4]%Z]} in
  let nb := (cell_load d (fresh_kernel (mt19937_seed 0))).2 in
  ∃ k nb', cell_ab nb = (Raise (KeyError k), nb') ∧
           columns (table_of nb') !! "ad_variant" = Some (SStr ["A"; "B"]) ∧
           grouped nb' = None.
Proof.
  intros d nb.
  destruct (ab_missing_column_partial_write nb 1%positive d) as (k & Hrun & _);
    [vm_compute; reflexivity..|right; vm_compute; reflexivity|].
  eexists k, _. split; [exact Hrun|]. split; vm_compute; reflexivity.
Defined.

(** ** The design matrix and the labels *)



(** X6: when the notebook returns from the split, every row of [X_train]
    and of [X_test] has three entries (the width the first Dense layer takes
    from [X_train.shape[1]]), every label is 0 or 1, and each subset has as
    many labels as rows. *)
Theorem split_subsets_shape nb l d vG vA clicks imps :
  df nb = Some l → heap nb !! l = Some d →
  columns d !! "Gender" = Some (SStr vG) → columns d !! "Age" = Some (SStr vA) →
  columns d !! "Clicks" = Some (SInt clicks) →
  columns d !! "Impressions" = Some (SInt imps) →
  length vG = len d → length vA = len d →
  length clicks = len d → length imps = len d →
  (run_all nb).1 = Ok () →
  ∃ X_train X_test y_train y_test,
    splits (run_all nb).2 = Some (X_train, X_test, y_train, y_test) ∧
    Forall (λ r, length r = 3) X_train ∧ Forall (λ r, length r = 3) X_test ∧
    Forall (λ c, c = 0 ∨ c = 1)%Z y_train ∧ Forall (λ c, c = 0 ∨ c = 1)%Z y_test ∧
    length X_train = length y_train ∧ length X_test = length y_test ∧
    X_train ≠ [] ∧ X_test ≠ [].
Proof.
  intros Hdf Hl HG HA HC HI LG LA LC LI Hok.
  destruct (run_all_run nb l d vG vA clicks imps)
    as (nb4 & m & leG & leA & leV & cG & cA & cV & _ & _ & _ & _ & _ & _ & _ & _ & Hrun);
    [done..|].
  cbv zeta in Hrun. rewrite Hrun in Hok |- *.
  destruct (train_test_split _ _) as [[[[xtr xte] ytr] yte]|e] eqn:Hs;
    [|by cbn in Hok].
  exists xtr, xte, ytr, yte.
  apply train_test_split_inv in Hs as (Hlen & train & test & Hss & Hxtr & Hxte & Hytr & Hyte).
  pose proof (design_rows_width (len d) cG cA cV) as Hw.
  pose proof (clicked_of_binary clicks) as Hb.
  rewrite design_rows_length in Hss.
  pose proof Hss as Hval. unfold shuffle_split in Hval.
  apply bind_Ok_inv in Hval as ([n_train n_test] & Hv & _).
  apply validate_shuffle_split_Ok in Hv as (-> & -> & Hne).
  apply shuffle_split_Ok in Hss as (_ & Hlte & Hltr).
  assert (n_test_of (len d) ≠ 0) as Hte.
  { unfold n_test_of. destruct (len d) as [|n]; [lia|].
    intros H0. apply Nat.div_small_iff in H0; lia. }
  split_and!;
    [done
    |exact (take_rows_Forall _ _ _ _ Hxtr Hw)|exact (take_rows_Forall _ _ _ _ Hxte Hw)
    |exact (take_rows_Forall _ _ _ _ Hytr Hb)|exact (take_rows_Forall _ _ _ _ Hyte Hb)
    | | | |].
  - by rewrite (take_rows_length _ _ _ Hxtr), (take_rows_length _ _ _ Hytr).
  - by rewrite (take_rows_length _ _ _ Hxte), (take_rows_length _ _ _ Hyte).
  - intros ->. apply take_rows_length in Hxtr. simpl in Hxtr. lia.
  - intros ->. apply take_rows_length in Hxte. simpl in Hxte. lia.
Qed.

Lemma split_subsets_shape_witness :
  ∃ X_train X_test y_train y_test,
    splits (run_all kernel_demo).2 = Some (X_train, X_test, y_train, y_test) ∧
    Forall (λ r, length r = 3) X_train ∧ Forall (λ r, length r = 3) X_test.
Proof.
  destruct (split_subsets_shape kernel_demo 1%positive csv_demo
              ["M"; "F"; "M"; "F"; "M"; "F"; "M"; "F"; "M"; "F"]
              ["30-34"; "35-39"; "30-34"; "40-44"; "45-49";
               "30-34"; "35-39"; "30-34"; "40-44"; "45-49"]
              [10; 20; 0; 5; 1; 0; 20; 0; 5; 1]%Z
              [100; 200; 0; 50; 10; 100; 200; 0; 50; 10]%Z)
    as (xtr & xte & ytr & yte & Hs & Htr & Hte & _); [vm_compute; reflexivity..|].
  exists xtr, xte, ytr, yte. split_and!; [exact Hs|exact Htr|exact Hte].
Defined.

(** ** The split on a table that is too small *)

Lemma train_test_split_small {A B} (X : list A) (y : list B) :
  length X ≤ 1 → train_test_split X y = Raise ValueError.
Proof.
  intros Hn. unfold train_test_split. case_decide; [|done].
  unfold shuffle_split, validate_shuffle_split, n_test_of.
  destruct (length X) as [|[|n]]; [done|done|lia].
Qed.

(** X7: on an encoded table of at most one record the split cell raises
    [ValueError] (the training subset would be empty); [X] and [y] have been
    bound by then, and the four subsets are left as they were. *)
Theorem split_cell_too_few_records nb m dm cG cA cV ys :
  df_model nb = Some m → heap nb !! m = Some dm →
  columns dm !! "Gender" = Some (SInt cG) → columns dm !! "Age" = Some (SInt cA) →
  columns dm !! "ad_variant" = Some (SInt cV) →
  columns dm !! "Clicked" = Some (SInt ys) →
  len dm ≤ 1 →
  ∃ xs,
    cell_split nb = (Raise ValueError, set_y ys (set_X xs nb)) ∧
    length xs = len dm ∧
    splits (cell_split nb).2 = splits nb.
Proof.
  intros Hm Hdm HG HA HV HC Hn.
  pose proof (cell_split_run nb m dm cG cA cV ys Hm Hdm HG HA HV HC) as Hrun.
  cbv zeta in Hrun.
  rewrite train_test_split_small in Hrun by (by rewrite length_fmap, length_seq).
  eexists. rewrite Hrun. split_and!; [done| |done].
  by rewrite length_fmap, length_seq.
Qed.

Lemma split_cell_too_few_records_witness :
  let nb := run_stages [StageCTR; StageAB; StageClicked; StageEncode] kernel_zero in
  (cell_split nb).1 = Raise ValueError ∧ splits (cell_split nb).2 = None.
Proof.
  intros nb.
  destruct (split_cell_too_few_records nb 3%positive
              (default (mkDF (RangeIndex 0) ∅) (heap nb !! 3%positive))
              [0%Z] [0%Z] [0%Z] [0%Z])
    as (xs & Hrun & _ & Hs); [vm_compute; reflexivity..|vm_compute; lia|].
  rewrite Hs, Hrun. split; [reflexivity|vm_compute; reflexivity].
Defined.

(** ** Running the encoding cell again *)

(** X8: the encoding cell can be run again.  It starts from a new copy of
    the columns of [df], which it never writes to, so a second run returns
    as the first did and leaves in [df_model] a table with the same index
    and the same columns of codes, and in [le_dict] the same encoders; the
    codes are not encoded a second time. *)
Theorem encoding_cell_rerun nb l d vG vA vV sC :
  df nb = Some l → heap nb !! l = Some d →
  columns d !! "Gender" = Some (SStr vG) → columns d !! "Age" = Some (SStr vA) →
  columns d !! "ad_variant" = Some (SStr vV) → columns d !! "Clicked" = Some sC →
  length vG = len d → length vA = len d → length vV = len d →
  ∃ nb1 nb2 m1 m2 dm t,
    cell_encode nb = (Ok (), nb1) ∧ cell_encode nb1 = (Ok (), nb2) ∧
    df_model nb1 = Some m1 ∧ heap nb1 !! m1 = Some dm ∧ le_dict nb1 = Some t ∧
    df_model nb2 = Some m2 ∧ heap nb2 !! m2 = Some dm ∧ le_dict nb2 = Some t ∧
    heap nb2 !! l = Some d.
Proof.
  intros Hdf Hl HG HA HV HC LG LA LV.
  destruct (cell_encode_run nb l d vG vA vV sC)
    as (nb1 & m1 & leG & leA & leV & cG & cA & cV & Hrun1 & HfG & HfA & HfV
        & Hdf1 & Hl1 & Hm1 & _ & Hdm1 & Hle1); [done..|].
  destruct (cell_encode_run nb1 l d vG vA vV sC)
    as (nb2 & m2 & leG' & leA' & leV' & cG' & cA' & cV' & Hrun2 & HfG' & HfA' & HfV'
        & Hdf2 & Hl2 & Hm2 & _ & Hdm2 & Hle2); [done..|].
  rewrite HfG in HfG'. rewrite HfA in HfA'. rewrite HfV in HfV'.
  assert (leG' = leG ∧ int_codes cG' = int_codes cG) as [-> HcG] by (split; congruence).
  assert (leA' = leA ∧ int_codes cA' = int_codes cA) as [-> HcA] by (split; congruence).
  assert (leV' = leV ∧ int_codes cV' = int_codes cV) as [-> HcV] by (split; congruence).
  rewrite HcG, HcA, HcV in Hdm2.
  eexists nb1, nb2, m1, m2, _, _. split_and!; done.
Qed.

Lemma encoding_cell_rerun_witness :
  ∃ nb1 nb2 m1 m2 dm,
    cell_encode kernel_ready = (Ok (), nb1) ∧ cell_encode nb1 = (Ok (), nb2) ∧
    df_model nb1 = Some m1 ∧ heap nb1 !! m1 = Some dm ∧
    df_model nb2 = Some m2 ∧ heap nb2 !! m2 = Some dm.
Proof.
  destruct (encoding_cell_rerun kernel_ready 1%positive (table_of kernel_ready)
              ["M"; "F"; "M"; "F"; "M"; "F"; "M"; "F"; "M"; "F"]
              ["30-34"; "35-39"; "30-34"; "40-44"; "45-49";
               "30-34"; "35-39"; "30-34"; "40-44"; "45-49"]
              ["A"; "B"; "A"; "A"; "A"; "B"; "A"; "A"; "A"; "B"]
              (SInt [1; 1; 0; 1; 1; 0; 1; 0; 1; 1]%Z))
    as (nb1 & nb2 & m1 & m2 & dm & t & H1 & H2 & H3 & H4 & _ & H5 & H6 & _);
    [vm_compute; reflexivity..|].
  exists nb1, nb2, m1, m2, dm. split_and!; [exact H1|exact H2|exact H3|exact H4|exact H5|exact H6].
Defined.
(** ** The z-test *)

Section real64_facts.
Local Open Scope R_scope.

Lemma Rsgn_pos x : 0 < x → Rsgn x = Gt.
Proof. intros. unfold Rsgn. destruct (total_order_T x 0) as [[|]|]; [lra..|done]. Qed.

Lemma Rsgn_neg x : x < 0 → Rsgn x = Lt.
Proof. intros. unfold Rsgn. destruct (total_order_T x 0) as [[|]|]; [done|lra..]. Qed.

Lemma Rsgn_zero : Rsgn 0 = Eq.
Proof. unfold Rsgn. destruct (total_order_T 0 0) as [[|]|]; [lra|done|lra]. Qed.

Lemma r64_ltb_fin x y : r64_ltb (RFin x) (RFin y) = true ↔ x < y.
Proof. simpl. destruct (Rlt_dec x y); split; (done || lra || congruence). Qed.

Lemma r64_geb_fin x y : r64_geb (RFin x) (RFin y) = true ↔ y <= x.
Proof. simpl. destruct (Rle_dec y x); split; (done || lra || congruence). Qed.
End real64_facts.

Section normal_tail.
Local Open Scope R_scope.

Lemma gauss_pos t : 0 < gauss t.
Proof. apply exp_pos. Qed.

Lemma gauss_le_1 t : gauss t <= 1.
Proof.
  unfold gauss. rewrite <- exp_0.
  destruct (Req_dec (- (t * t) / 2) 0) as [-> | Hne]; [lra|].
  left. apply exp_increasing. nra.
Qed.

Lemma exp_INR_mult n x : exp (INR n * x) = exp x ^ n.
Proof.
  induction n as [|n IH].
  - simpl. rewrite Rmult_0_l. apply exp_0.
  - rewrite S_INR, Rmult_plus_distr_r, Rmult_1_l, exp_plus, IH. simpl. ring.
Qed.

Lemma gauss_lower t : 0 <= t <= 6 → (1 - t * t / 36) ^ 18 <= gauss t.
Proof.
  intros Ht. unfold gauss.
  replace (- (t * t) / 2) with (INR 18 * (- (t * t) / 36)) by (simpl; field).
  rewrite exp_INR_mult. apply pow_incr. split; [nra|].
  pose proof (exp_ineq1_le (- (t * t) / 36)). lra.
Qed.


Lemma gauss_area_mono a b : a <= b → gauss_area a <= gauss_area b.
Proof.
  intros Hab. unfold gauss_area.
  rewrite <- (RiemannInt_P26 (gauss_integrable 0 a) (gauss_integrable a b)
                (gauss_integrable 0 b)).
  pose proof (RiemannInt_const_bound (l := 0) (u := 1) (gauss_integrable a b) Hab) as [H _].
  { intros x _. pose proof (gauss_pos x). pose proof (gauss_le_1 x). lra. }
  lra.
Qed.

Lemma poly_derivable_pt_lim cs t : derivable_pt_lim (poly cs) t (dpoly cs t).
Proof.
  induction cs as [|c cs IH]; simpl.
  - apply derivable_pt_lim_const.
  - replace (poly cs t + t * dpoly cs t)
      with (0 + (1 * poly cs t + t * dpoly cs t)) by ring.
    apply (derivable_pt_lim_plus (λ _, IZR c) (λ t, t * poly cs t)).
    + apply derivable_pt_lim_const.
    + apply (derivable_pt_lim_mult (λ t, t) (poly cs));
        [apply derivable_pt_lim_id | exact IH].
Qed.

Lemma dpoly_tail s : dpoly tail_coefs s = IZR tail_lcm * (1 - s * s) ^ 18.
Proof. unfold tail_coefs, tail_lcm. cbn [dpoly poly]. ring. Qed.

Lemma tail_poly_derivable_pt_lim t :
  derivable_pt_lim tail_poly t ((1 - t * t / 36) ^ 18).
Proof.
  replace ((1 - t * t / 36) ^ 18)
    with (6 / IZR tail_lcm * (dpoly tail_coefs (t / 6) * (/ 6))).
  2:{ rewrite dpoly_tail. unfold tail_lcm.
      replace (t / 6 * (t / 6)) with (t * t / 36) by field. field. }
  apply (derivable_pt_lim_scal (λ t, poly tail_coefs (t / 6))).
  apply (derivable_pt_lim_comp (λ t, t / 6) (poly tail_coefs)).
  - replace (/ 6) with (1 * / 6) by ring.
    apply (derivable_pt_lim_scal_right id). apply derivable_pt_lim_id.
  - apply poly_derivable_pt_lim.
Qed.

Lemma tail_poly_6 : 1.2279 < tail_poly 6 - tail_poly 0.
Proof.
  unfold tail_poly, tail_coefs, tail_lcm.
  replace (6 / 6) with 1 by field. replace (0 / 6) with 0 by field.
  cbn [poly]. lra.
Qed.

(** The area under the density up to 6, by comparison with the polynomial
    and the fundamental theorem of calculus on [tail_poly]. *)
Lemma gauss_area_6 : 1.2279 < gauss_area 6.
Proof.
  set (pr := (λ t, exist _ _ (tail_poly_derivable_pt_lim t)) : derivable tail_poly).
  assert (continuity (derive tail_poly pr)) as Hcont.
  { change (continuity (λ t, (1 - t * t / 36) ^ 18)). reg. }
  set (F := mkC1 Hcont).
  assert (Riemann_integrable (derive F (diff0 F)) 0 6) as Hint.
  { apply continuity_implies_RiemannInt; [lra|]. intros x _. apply Hcont. }
  pose proof (RiemannInt_P33 F Hint ltac:(lra)) as Hftc.
  pose proof (RiemannInt_P19 Hint (gauss_integrable 0 6) ltac:(lra)) as Hle.
  rewrite Hftc in Hle. cbn [c1 F] in Hle.
  unfold gauss_area. eapply Rlt_le_trans; [apply tail_poly_6|]. apply Hle.
  intros x Hx. apply (gauss_lower x). lra.
Qed.

Lemma PI_upper : PI <= 3.34.
Proof.
  pose proof (PI_ineq 2) as [_ H].
  unfold sum_f_R0, tg_alt, PI_tg in H. simpl in H. lra.
Qed.

Lemma sqrt_2PI_bounds : 0 < sqrt (2 * PI) < 2.5846.
Proof.
  pose proof PI_RGT_0. pose proof PI_upper. split.
  - apply sqrt_lt_R0. lra.
  - apply Rle_lt_trans with (sqrt 6.68); [apply sqrt_le_1; lra|].
    rewrite <- (sqrt_square 2.5846) by lra. apply sqrt_lt_1; lra.
Qed.

Lemma norm_cdf_mono a b : a <= b → norm_cdf a <= norm_cdf b.
Proof.
  intros Hab. unfold norm_cdf. pose proof sqrt_2PI_bounds as [Hs _].
  pose proof (gauss_area_mono a b Hab).
  apply Rplus_le_compat_l. unfold Rdiv. apply Rmult_le_compat_r; [|done].
  left. by apply Rinv_0_lt_compat.
Qed.


(** Beyond six standard deviations the two-sided tail is below 5%. *)
Lemma two_sided_tail x : 6 <= x → 2 * (1 - norm_cdf x) < 0.05.
Proof.
  intros Hx. unfold norm_cdf.
  pose proof (gauss_area_mono 6 x Hx). pose proof gauss_area_6.
  pose proof sqrt_2PI_bounds as [Hs0 Hs1].
  assert (0.475 < gauss_area x / sqrt (2 * PI)); [|lra].
  apply (Rmult_lt_reg_r (sqrt (2 * PI))); [lra|].
  replace (gauss_area x / sqrt (2 * PI) * sqrt (2 * PI)) with (gauss_area x)
    by (field; lra).
  nra.
Qed.
End normal_tail.

Section ztest_facts.
Local Open Scope R_scope.



Lemma zstat_regular d v :
  0 < v →
  zstat_generic2 (RFin d) (r64_sqrt (RFin v)) =
    (RFin (d / sqrt v), RFin (two_sided_p (d / sqrt v))).
Proof.
  intros Hv. unfold zstat_generic2. cbn [r64_sqrt].
  rewrite (Rsgn_pos v Hv). cbn [r64_div].
  rewrite (Rsgn_pos (sqrt v)) by (by apply sqrt_lt_R0).
  cbn [r64_abs norm_sf r64_mul]. unfold two_sided_p.
  do 2 f_equal. ring.
Qed.



(** A difference of at least six standard errors. *)
Lemma six_standard_errors d v : 0 < v → 36 * v <= d * d → 6 <= Rabs (d / sqrt v).
Proof.
  intros Hv Hd.
  pose proof (sqrt_lt_R0 v Hv) as Hs. pose proof (sqrt_sqrt v ltac:(lra)) as Hss.
  unfold Rdiv. rewrite Rabs_mult, (Rabs_inv (sqrt v)), (Rabs_pos_eq (sqrt v)) by lra.
  apply (Rmult_le_reg_r (sqrt v)); [done|].
  replace (Rabs d * / sqrt v * sqrt v) with (Rabs d) by (field; lra).
  pose proof (Rabs_pos d). assert (Rabs d * Rabs d = d * d) as Hdd.
  { rewrite <- Rabs_mult. apply Rabs_pos_eq. nra. }
  nra.
Qed.

Lemma verdict_significant x : verdict (RFin x) = PrintSignificant ↔ x < 0.05.
Proof. unfold verdict. simpl. destruct (Rlt_dec x 0.05); split; (done || lra). Qed.

Lemma verdict_large d v :
  0 < v → 36 * v <= d * d →
  verdict (zstat_generic2 (RFin d) (r64_sqrt (RFin v))).2 = PrintSignificant.
Proof.
  intros Hv Hd. rewrite zstat_regular by done. cbn [snd].
  apply verdict_significant. unfold two_sided_p.
  apply two_sided_tail. by apply six_standard_errors.
Qed.
End ztest_facts.

Lemma read_counts_run nb lg g clicks imps :
  grouped nb = Some lg → heap nb !! lg = Some g →
  columns g !! "Clicks" = Some (SInt clicks) →
  columns g !! "Impressions" = Some (SInt imps) →
  read_counts nb = (Ok (clicks, imps), nb).
Proof.
  intros Hg Hl Hc Hi. apply wp_returns. unfold read_counts.
  apply wp_bind, wp_var; [|congruence]. intros ? ?; simplify_eq.
  apply wp_bind, wp_frame_getitem; [|intros []; eauto].
  intros ? ? ? ?; simplify_eq.
  apply wp_bind, wp_lift; [|done]. intros ? [= <-].
  apply wp_bind, wp_frame_getitem; [|intros []; eauto].
  intros ? ? ? ?; simplify_eq.
  apply wp_bind, wp_lift; [|done]. intros ? [= <-].
  by apply wp_ret.
Qed.

Lemma cell_ztest_run nb lg g clicks imps :
  grouped nb = Some lg → heap nb !! lg = Some g →
  columns g !! "Clicks" = Some (SInt clicks) →
  columns g !! "Impressions" = Some (SInt imps) →
  cell_ztest nb =
    match proportions_ztest clicks imps with
    | Returned (stat, pval) => Returned [PrintZTest stat pval; verdict pval]
    | Raised e => Raised e
    | RaisedNotImplemented => RaisedNotImplemented
    end.
Proof.
  intros Hg Hl Hc Hi. unfold cell_ztest.
  by rewrite (read_counts_run nb lg g clicks imps).
Qed.

(** *** How many rows [grouped] has *)

Lemma group_keys_AB labels :
  Forall (λ k, k = "A" ∨ k = "B") labels → "A" ∈ labels → "B" ∈ labels →
  group_keys labels = ["A"; "B"].
Proof.
  intros HAB HA HB.
  apply (StronglySorted_unique String.le);
    [apply group_keys_sorted|repeat constructor; by vm_compute|].
  apply NoDup_Permutation; [apply group_keys_NoDup| |].
  - apply (bool_decide_unpack _). by vm_compute.
  - intros k. rewrite group_keys_elem, !elem_of_cons, elem_of_nil.
    split; [|intros [->|[->|[]]]; done].
    intros Hk. rewrite Forall_forall in HAB. destruct (HAB k Hk); auto.
Qed.

Lemma group_keys_single labels k :
  k ∈ labels → Forall (λ x, x = k) labels → group_keys labels = [k].
Proof.
  intros Hk Hall.
  apply (StronglySorted_unique String.le);
    [apply group_keys_sorted|repeat constructor|].
  apply NoDup_Permutation; [apply group_keys_NoDup|apply NoDup_singleton|].
  intros x. rewrite group_keys_elem, list_elem_of_singleton.
  rewrite Forall_forall in Hall. split; [apply Hall|by intros ->].
Qed.

Lemma group_keys_nil : group_keys [] = [].
Proof. apply Permutation_nil_r. unfold group_keys. by rewrite merge_sort_Permutation. Qed.

Lemma ab_grouped_counts labels clicks imps :
  columns (ab_grouped labels clicks imps) !! "Clicks"
    = Some (SInt (group_sum labels clicks <$> group_keys labels)) ∧
  columns (ab_grouped labels clicks imps) !! "Impressions"
    = Some (SInt (group_sum labels imps <$> group_keys labels)).
Proof.
  unfold ab_grouped; cbn [columns]. split.
  - rewrite !lookup_insert_ne by done. by rewrite lookup_insert_eq.
  - rewrite lookup_insert_ne by done. by rewrite lookup_insert_eq.
Qed.

(** The first two records of every table go to A and to B. *)
Lemma variant_labels_first_two n :
  ∃ rest, variant_labels (S (S n)) = "A" :: "B" :: rest.
Proof.
  unfold variant_labels. cbn [draws].
  destruct (mt19937_next (mt19937_seed 42)) as [w0 st0] eqn:H0.
  destruct (mt19937_next st0) as [w1 st1] eqn:H1.
  assert (label_of_draw w0 = "A" ∧ label_of_draw w1 = "B") as [Hw0 Hw1].
  { assert (w0 = (mt19937_next (mt19937_seed 42)).1) as -> by (by rewrite H0).
    assert (st0 = (mt19937_next (mt19937_seed 42)).2) as Hst by (by rewrite H0).
    assert (w1 = (mt19937_next st0).1) as -> by (by rewrite H1).
    rewrite Hst. split; vm_compute; reflexivity. }
  eexists. csimpl. by rewrite Hw0, Hw1.
Qed.

Lemma proportions_ztest_nil : proportions_ztest [] [] = RaisedNotImplemented.
Proof. done. Qed.

Lemma proportions_ztest_one c n : proportions_ztest [c] [n] = Raised ValueError.
Proof. done. Qed.

Lemma proportions_ztest_two_returns cA cB nA nB :
  ∃ r, proportions_ztest [cA; cB] [nA; nB] = Returned r.
Proof. by eexists. Qed.

(** X9: the z-test cell after the A/B cell, by the size of the table.  On a
    table with int64 count columns the A/B cell returns; then the z-test cell
    raises [NotImplementedError] when the table is empty ([grouped] has no
    row), raises [ValueError] when it has one record (one row), and returns
    its two printed lines for every table of two records or more, whose
    first two records the seeded assignment puts in A and in B. *)
Theorem ztest_cell_by_table_size nb l d clicks imps :
  df nb = Some l → heap nb !! l = Some d →
  columns d !! "Clicks" = Some (SInt clicks) →
  columns d !! "Impressions" = Some (SInt imps) →
  ∃ nb',
    cell_ab nb = (Ok (), nb') ∧
    (len d = 0 → cell_ztest nb' = RaisedNotImplemented) ∧
    (len d = 1 → cell_ztest nb' = Raised ValueError) ∧
    (2 ≤ len d → ∃ stat pval,
       cell_ztest nb' = Returned [PrintZTest stat pval; verdict pval]).
Proof.
  intros Hdf Hl Hc Hi.
  destruct (cell_ab_run nb l d clicks imps Hdf Hl Hc Hi)
    as (nb' & lg & Hrun & Hg & _ & Hlg).
  exists nb'. split; [done|].
  destruct (ab_grouped_counts (variant_labels (len d)) clicks imps) as [Hgc Hgi].
  rewrite (cell_ztest_run nb' lg _ _ _ Hg Hlg Hgc Hgi).
  split_and!.
  - intros ->. change (variant_labels 0) with (@nil string). by rewrite group_keys_nil.
  - intros ->. assert (∃ k, variant_labels 1 = [k]) as [k ->].
    { pose proof (variant_labels_length 1).
      destruct (variant_labels 1) as [|k [|]]; try done. by exists k. }
    rewrite (group_keys_single [k] k); [done|by left|by repeat constructor].
  - intros Hn. destruct (len d) as [|[|n]]; [lia..|].
    destruct (variant_labels_first_two n) as [rest Hrest].
    rewrite group_keys_AB; [|apply variant_labels_AB|rewrite Hrest..].
    + cbn [fmap list_fmap].
      destruct (proportions_ztest_two_returns
                  (group_sum (variant_labels (S (S n))) clicks "A")
                  (group_sum (variant_labels (S (S n))) clicks "B")
                  (group_sum (variant_labels (S (S n))) imps "A")
                  (group_sum (variant_labels (S (S n))) imps "B")) as [[stat pval] ->].
      by exists stat, pval.
    + by left.
    + right. by left.
Qed.

Lemma ztest_cell_by_table_size_witness :
  ∃ nb', cell_ab kernel_zero = (Ok (), nb') ∧ cell_ztest nb' = Raised ValueError.
Proof.
  destruct (ztest_cell_by_table_size kernel_zero 1%positive csv_zero [0%Z] [0%Z])
    as (nb' & Hrun & _ & Hone & _); [vm_compute; reflexivity..|].
  exists nb'. split; [exact Hrun|]. apply Hone. vm_compute; reflexivity.
Defined.








(** *** A group without impressions *)

Section non_finite.
Local Open Scope R_scope.

Lemma signed_inf_not_finite b s : r64_finite (r64_signed_inf b s) = false.
Proof. by destruct b, s. Qed.

Lemma quotient_by_zero_not_finite c :
  r64_finite (r64_div (r64_mul (of_int64 c) (RFin 1)) (of_int64 0)) = false.
Proof.
  unfold of_int64. cbn [r64_mul r64_div]. rewrite Rsgn_zero.
  apply signed_inf_not_finite.
Qed.

Lemma inverse_of_count n :
  r64_div (RFin 1) (of_int64 n) = (if decide (n = 0%Z) then RPosInf else RFin (1 / IZR n)).
Proof.
  unfold of_int64. cbn [r64_div]. case_decide as Hn.
  - subst n. rewrite Rsgn_zero. cbn. by rewrite Rsgn_pos by lra.
  - destruct (Rtotal_order (IZR n) 0) as [Hlt|[Heq|Hgt]].
    + by rewrite Rsgn_neg.
    + by apply eq_IZR in Heq.
    + by rewrite Rsgn_pos.
Qed.

Lemma sub_not_finite_l a b : r64_finite a = false → r64_finite (r64_sub a b) = false.
Proof. by destruct a, b. Qed.

Lemma sub_not_finite_r a b : r64_finite b = false → r64_finite (r64_sub a b) = false.
Proof. by destruct a, b. Qed.

Lemma mul_inf_not_finite a : r64_finite (r64_mul a RPosInf) = false.
Proof. destruct a; try done. apply signed_inf_not_finite. Qed.

Lemma sqrt_not_finite a : r64_finite a = false → r64_finite (r64_sqrt a) = false.
Proof. by destruct a. Qed.

Lemma zstat_not_finite diff std :
  r64_finite diff = false → r64_finite std = false →
  zstat_generic2 diff std = (RNaN, RNaN).
Proof. by destruct diff, std. Qed.

Lemma proportions_ztest_zero_trials cA cB nA nB :
  nA = 0%Z ∨ nB = 0%Z →
  proportions_ztest [cA; cB] [nA; nB] = Returned (RNaN, RNaN).
Proof.
  intros Hz. unfold proportions_ztest, broadcast_truediv.
  rewrite decide_True by done.
  change (zip_with ?f [cA; cB] [nA; nB]) with [f cA nA; f cB nB].
  cbn iota beta. f_equal. apply zstat_not_finite.
  - apply sub_not_finite_l. destruct Hz as [-> | ->].
    + apply sub_not_finite_l, quotient_by_zero_not_finite.
    + apply sub_not_finite_r, quotient_by_zero_not_finite.
  - apply sqrt_not_finite.
    assert (r64_sum ((λ n, r64_div (RFin 1) (of_int64 n)) <$> [nA; nB]) = RPosInf) as ->;
      [|apply mul_inf_not_finite].
    unfold r64_sum. cbn [fmap list_fmap fold_left]. rewrite !inverse_of_count.
    repeat case_decide; try done. by destruct Hz.
Qed.
End non_finite.

(** X13: a group without impressions.  When one of the two trial counts in
    [grouped] is 0, a quotient by zero makes the difference of proportions
    and the standard error infinite or NaN, the statistic and the p-value are
    NaN whatever the click counts, and the cell prints that there is no
    significant difference. *)
Theorem ztest_zero_impressions nb lg g cA cB nA nB :
  grouped nb = Some lg → heap nb !! lg = Some g →
  columns g !! "Clicks" = Some (SInt [cA; cB]) →
  columns g !! "Impressions" = Some (SInt [nA; nB]) →
  nA = 0%Z ∨ nB = 0%Z →
  cell_ztest nb = Returned [PrintZTest RNaN RNaN; PrintNoDifference].
Proof.
  intros Hg Hl Hc Hi Hz.
  rewrite (cell_ztest_run nb lg g _ _ Hg Hl Hc Hi).
  by rewrite proportions_ztest_zero_trials.
Qed.

Lemma ztest_zero_impressions_witness :
  cell_ztest (kernel_grouped 0 21 0 310)
    = Returned [PrintZTest RNaN RNaN; PrintNoDifference].
Proof.
  apply (ztest_zero_impressions (kernel_grouped 0 21 0 310) 1%positive
           (ab_grouped ["A"; "B"] [0; 21]%Z [0; 310]%Z) 0 21 0 310);
    [vm_compute; reflexivity..|by left].
Defined.

(** ** Every table stays rectangular *)

Section rectangular_tables.
Implicit Types (d : DataFrame) (nb : notebook).

Lemma rectangular_insert d k s :
  rectangular d → series_len s = len d →
  rectangular (mkDF (index d) (<[k := s]> (columns d))).
Proof. intros Hd Hs. unfold rectangular. cbn. by apply map_Forall_insert_2. Qed.

Lemma rectangular_lookup nb l d :
  tables_rectangular nb → heap nb !! l = Some d → rectangular d.
Proof. intros Hnb Hl. by apply (map_Forall_lookup_1 _ _ _ _ Hnb Hl). Qed.

Lemma tables_rectangular_insert nb l d :
  tables_rectangular nb → rectangular d →
  tables_rectangular (set_heap <[l := d]> nb).
Proof. intros Hnb Hd. unfold tables_rectangular. cbn. by apply map_Forall_insert_2. Qed.

Lemma select_columns_rectangular d ks m :
  rectangular d → select_columns d ks = Ok m →
  map_Forall (λ _ s, series_len s = len d) m.
Proof.
  intros Hd. revert m. induction ks as [|k ks IH]; intros m Hm; simpl in Hm.
  - injection Hm as <-. apply map_Forall_empty.
  - apply bind_Ok_inv in Hm as (s & Hs & Hm).
    apply bind_Ok_inv in Hm as (m' & Hm' & Hm). injection Hm as <-.
    apply map_Forall_insert_2; [|by apply IH].
    unfold getitem in Hs. destruct (columns d !! k) as [s'|] eqn:Hk; [|done].
    injection Hs as ->. by apply (map_Forall_lookup_1 _ _ _ _ Hd Hk).
Qed.

Lemma getitem_list_rectangular d ks sub :
  rectangular d → getitem_list d ks = Ok sub → rectangular sub.
Proof.
  intros Hd Hsub. unfold getitem_list in Hsub.
  apply bind_Ok_inv in Hsub as (m & Hm & Hsub). injection Hsub as <-.
  by apply (select_columns_rectangular d ks).
Qed.

Lemma agg_sum_columns_rectangular d keys cols m :
  agg_sum_columns d keys cols = Ok m →
  map_Forall (λ _ s, series_len s = length (group_keys keys)) m.
Proof.
  revert m. induction cols as [|c cols IH]; intros m Hm; simpl in Hm.
  - injection Hm as <-. apply map_Forall_empty.
  - apply bind_Ok_inv in Hm as (s & Hs & Hm).
    apply bind_Ok_inv in Hm as (m' & Hm' & Hm).
    destruct s as [vals| |]; [|done..]. injection Hm as <-.
    apply map_Forall_insert_2; [|by apply IH]. simpl. by rewrite length_fmap.
Qed.

Lemma groupby_agg_sum_rectangular d by_ cols g :
  groupby_agg_sum d by_ cols = Ok g → rectangular g.
Proof.
  unfold groupby_agg_sum. intros Hg.
  apply bind_Ok_inv in Hg as (ks & Hks & Hg). destruct ks as [| |keys]; [done..|].
  apply bind_Ok_inv in Hg as (m & Hm & Hg). injection Hg as <-.
  by apply (agg_sum_columns_rectangular d keys cols).
Qed.

(** A checked column assignment keeps the kernel rectangular, and so does
    its failure. *)
Lemma wp_frame_setitem_rectangular l k s nb :
  tables_rectangular nb →
  wp (frame_setitem l k s) (λ _, tables_rectangular) tables_rectangular nb.
Proof.
  intros Hnb. apply wp_frame_setitem; [|done]. intros d Hl Hs.
  apply tables_rectangular_insert; [done|].
  apply rectangular_insert; [by eapply rectangular_lookup|done].
Qed.

Lemma cell_ctr_rectangular nb :
  tables_rectangular nb →
  wp cell_ctr (λ _, tables_rectangular) tables_rectangular nb.
Proof.
  intros Hnb. unfold cell_ctr.
  apply wp_bind, wp_var; [|done]. intros l _.
  apply wp_bind, wp_frame_getitem; [|done]. intros _ c _ _.
  apply wp_bind, wp_frame_getitem; [|done]. intros _ i _ _.
  apply wp_bind, wp_lift; [|done]. intros ctr _.
  by apply wp_frame_setitem_rectangular.
Qed.

Lemma cell_clicked_rectangular nb :
  tables_rectangular nb →
  wp cell_clicked (λ _, tables_rectangular) tables_rectangular nb.
Proof.
  intros Hnb. unfold cell_clicked.
  apply wp_bind, wp_var; [|done]. intros l _.
  apply wp_bind, wp_frame_getitem; [|done]. intros _ c _ _.
  apply wp_bind, wp_lift; [|done]. intros t _.
  by apply wp_frame_setitem_rectangular.
Qed.

Lemma cell_ab_rectangular nb :
  tables_rectangular nb →
  wp cell_ab (λ _, tables_rectangular) tables_rectangular nb.
Proof.
  intros Hnb. unfold cell_ab.
  apply wp_bind, wp_modify.
  apply wp_bind, wp_var; [|done]. intros l _.
  apply wp_bind, wp_load; [|done]. intros d _.
  apply wp_bind, wp_np_random_choice_AB.
  apply wp_bind. eapply wp_mono; [by apply wp_frame_setitem_rectangular| |done].
  intros [] nb1 Hnb1. cbv beta.
  apply wp_bind, wp_load; [|done]. intros d1 _.
  apply wp_bind, wp_lift; [|done]. intros g Hg.
  apply groupby_agg_sum_rectangular in Hg.
  apply wp_bind, wp_new. intros lg _.
  apply wp_bind, wp_modify.
  assert (tables_rectangular (set_grouped lg (set_heap <[lg := g]> nb1))) as Hnb2
    by (by apply (tables_rectangular_insert nb1)).
  apply wp_bind, wp_frame_getitem; [|done]. intros _ c _ _.
  apply wp_bind, wp_frame_getitem; [|done]. intros _ i _ _.
  apply wp_bind, wp_lift; [|done]. intros ctr _.
  by apply wp_frame_setitem_rectangular.
Qed.

Lemma encode_column_rectangular col nb :
  tables_rectangular nb →
  wp (encode_column col) (λ _, tables_rectangular) tables_rectangular nb.
Proof.
  intros Hnb. unfold encode_column.
  apply wp_bind, wp_var; [|done]. intros m _.
  apply wp_bind, wp_frame_getitem; [|done]. intros _ s _ _.
  apply wp_bind, wp_lift; [|done]. intros [le codes] _.
  apply wp_bind, wp_var; [|done]. intros m' _.
  apply wp_bind. eapply wp_mono; [by apply wp_frame_setitem_rectangular| |done].
  intros [] nb1 Hnb1. cbv beta.
  apply wp_bind, wp_var; [|done]. intros t _.
  by apply wp_modify.
Qed.

Lemma cell_encode_rectangular nb :
  tables_rectangular nb →
  wp cell_encode (λ _, tables_rectangular) tables_rectangular nb.
Proof.
  intros Hnb. unfold cell_encode.
  apply wp_bind, wp_var; [|done]. intros l _.
  apply wp_bind, wp_load; [|done]. intros d Hd.
  apply wp_bind, wp_lift; [|done]. intros sub Hsub.
  apply getitem_list_rectangular in Hsub; [|by eapply rectangular_lookup].
  apply wp_bind, wp_new. intros m _.
  apply wp_bind, wp_modify. apply wp_bind, wp_modify.
  apply wp_for_each.
  - by apply (tables_rectangular_insert nb).
  - intros col nb' _ Hnb'. by apply encode_column_rectangular.
Qed.

Lemma cell_split_rectangular nb :
  tables_rectangular nb →
  wp cell_split (λ _, tables_rectangular) tables_rectangular nb.
Proof.
  intros Hnb. unfold cell_split.
  apply wp_bind, wp_var; [|done]. intros m _.
  apply wp_bind, wp_load; [|done]. intros dm _.
  apply wp_bind, wp_lift; [|done]. intros xs _.
  apply wp_bind, wp_modify.
  apply wp_bind, wp_frame_getitem; [|done]. intros _ s _ _.
  apply wp_bind, wp_lift; [|done]. intros ys _.
  apply wp_bind, wp_modify.
  apply wp_bind, wp_lift; [|done]. intros r _.
  by apply wp_modify.
Qed.

Lemma run_stage_rectangular s nb :
  tables_rectangular nb → tables_rectangular (run_stage s nb).2.
Proof.
  intros Hnb.
  assert (wp (run_stage s) (λ _, tables_rectangular) tables_rectangular nb) as Hwp.
  { destruct s; simpl;
      [by apply cell_ctr_rectangular|by apply cell_ab_rectangular
      |by apply cell_clicked_rectangular|by apply cell_encode_rectangular
      |by apply cell_split_rectangular]. }
  apply wp_run in Hwp. by destruct (run_stage s nb).1.
Qed.
End rectangular_tables.

(** X14: every table stays rectangular.  If every table object of the
    kernel has one entry per row in each of its columns, this still holds
    after any sequence of the table cells, whether they return or raise, and
    after loading a rectangular table: each cell adds a column only through
    a length-checked assignment, and the two tables it creates, [grouped]
    and [df_model], are rectangular as built. *)
Theorem tables_stay_rectangular ss nb :
  tables_rectangular nb →
  tables_rectangular (run_stages ss nb) ∧
  ∀ csv, rectangular csv → tables_rectangular (cell_load csv (run_stages ss nb)).2.
Proof.
  intros Hnb.
  assert (tables_rectangular (run_stages ss nb)) as Hss.
  { revert nb Hnb. induction ss as [|s ss IH]; intros nb Hnb; [done|].
    simpl. by apply IH, run_stage_rectangular. }
  split; [done|]. intros csv Hcsv.
  assert (wp (cell_load csv) (λ _, tables_rectangular) tables_rectangular
            (run_stages ss nb)) as Hwp.
  { unfold cell_load. apply wp_bind, wp_new. intros l _. apply wp_modify.
    by apply (tables_rectangular_insert (run_stages ss nb)). }
  apply wp_run in Hwp. by destruct (cell_load csv (run_stages ss nb)).1.
Qed.

Lemma tables_stay_rectangular_witness :
  tables_rectangular
    (run_stages [StageCTR; StageAB; StageClicked; StageEncode; StageSplit] kernel_demo).
Proof.
  destruct (tables_stay_rectangular
              [StageCTR; StageAB; StageClicked; StageEncode; StageSplit] kernel_demo)
    as [H _]; [|exact H].
  apply (bool_decide_unpack _). vm_compute. reflexivity.
Defined.

(** ** [df_model] is a copy *)

Section model_copy.
Context (l m : loc) (dm : DataFrame) (Hne : m ≠ l).

Lemma copy_kept_setitem nb k s :
  model_copy_kept l m dm nb →
  wp (frame_setitem l k s) (λ _, model_copy_kept l m dm) (model_copy_kept l m dm) nb.
Proof using Hne.
  intros (Hdf & Hm & Hdm). apply wp_frame_setitem; [|done]. intros d _ _.
  split_and!; [done..|]. simpl. by rewrite lookup_insert_ne.
Qed.

Lemma cell_ctr_keeps_copy nb :
  model_copy_kept l m dm nb →
  wp cell_ctr (λ _, model_copy_kept l m dm) (model_copy_kept l m dm) nb.
Proof using Hne.
  intros HI. pose proof HI as (Hdf & _). unfold cell_ctr.
  apply wp_bind, wp_var; [|done]. intros ? ?; simplify_eq.
  apply wp_bind, wp_frame_getitem; [|done]. intros _ c _ _.
  apply wp_bind, wp_frame_getitem; [|done]. intros _ i _ _.
  apply wp_bind, wp_lift; [|done]. intros ctr _.
  by apply copy_kept_setitem.
Qed.

Lemma cell_clicked_keeps_copy nb :
  model_copy_kept l m dm nb →
  wp cell_clicked (λ _, model_copy_kept l m dm) (model_copy_kept l m dm) nb.
Proof using Hne.
  intros HI. pose proof HI as (Hdf & _). unfold cell_clicked.
  apply wp_bind, wp_var; [|done]. intros ? ?; simplify_eq.
  apply wp_bind, wp_frame_getitem; [|done]. intros _ c _ _.
  apply wp_bind, wp_lift; [|done]. intros t _.
  by apply copy_kept_setitem.
Qed.

Lemma cell_ab_keeps_copy nb :
  model_copy_kept l m dm nb →
  wp cell_ab (λ _, model_copy_kept l m dm) (model_copy_kept l m dm) nb.
Proof using Hne.
  intros HI. pose proof HI as (Hdf & Hm & Hdm). unfold cell_ab.
  apply wp_bind, wp_modify.
  apply wp_bind, wp_var; [|done]. intros ? ?; simplify_eq/=.
  apply wp_bind, wp_load; [|done]. intros d _.
  apply wp_bind, wp_np_random_choice_AB.
  apply wp_bind. eapply wp_mono; [by apply copy_kept_setitem| |done].
  intros [] nb1 HI1. cbv beta. pose proof HI1 as (Hdf1 & Hm1 & Hdm1).
  apply wp_bind, wp_load; [|done]. intros d1 _.
  apply wp_bind, wp_lift; [|done]. intros g _.
  apply wp_bind, wp_new. intros lg Hlg.
  assert (lg ≠ m) as Hlgm by congruence.
  apply wp_bind, wp_modify.
  assert (∀ g', model_copy_kept l m dm (set_grouped lg (set_heap <[lg := g']> nb1))) as HI2.
  { intros g'. split_and!; [done..|]. simpl. by rewrite lookup_insert_ne. }
  apply wp_bind, wp_frame_getitem; [|intros; apply HI2]. intros _ c _ _.
  apply wp_bind, wp_frame_getitem; [|intros; apply HI2]. intros _ i _ _.
  apply wp_bind, wp_lift; [|intros; apply HI2]. intros ctr _.
  apply wp_frame_setitem; [|intros; apply HI2]. intros g' _ _.
  split_and!; [done..|]. simpl. by rewrite !lookup_insert_ne.
Qed.

Lemma df_cells_keep_copy ss nb :
  Forall (λ s, s = StageCTR ∨ s = StageAB ∨ s = StageClicked) ss →
  model_copy_kept l m dm nb → model_copy_kept l m dm (run_stages ss nb).
Proof using Hne.
  intros Hss. revert nb. induction Hss as [|s ss Hs _ IH]; intros nb HI; [done|].
  simpl. apply IH.
  assert (wp (run_stage s) (λ _, model_copy_kept l m dm) (model_copy_kept l m dm) nb) as Hwp.
  { destruct Hs as [-> | [-> | ->]]; simpl;
      [by apply cell_ctr_keeps_copy|by apply cell_ab_keeps_copy
      |by apply cell_clicked_keeps_copy]. }
  apply wp_run in Hwp. by destruct (run_stage s nb).1.
Qed.
End model_copy.

(** X15: [df_model] is a copy of its own.  Once the encoding cell has bound
    [df_model] to an object other than [df], any further runs of the CTR,
    A/B and target cells, returning or raising, leave that object as it is:
    the three cells write to [df] and to a new [grouped] only, so the
    encoded table does not follow later changes of [df] until the encoding
    cell is run again. *)
Theorem df_model_is_a_copy ss nb l m dm :
  df nb = Some l → df_model nb = Some m → m ≠ l → heap nb !! m = Some dm →
  Forall (λ s, s = StageCTR ∨ s = StageAB ∨ s = StageClicked) ss →
  df_model (run_stages ss nb) = Some m ∧ heap (run_stages ss nb) !! m = Some dm.
Proof.
  intros Hdf Hm Hne Hdm Hss.
  by destruct (df_cells_keep_copy l m dm Hne ss nb Hss) as (_ & ? & ?).
Qed.

Lemma df_model_is_a_copy_witness :
  let nb := run_stages [StageCTR; StageAB; StageClicked; StageEncode] kernel_demo in
  ∃ dm, heap nb !! 3%positive = Some dm ∧
        heap (run_stages [StageClicked; StageAB; StageCTR] nb) !! 3%positive = Some dm.
Proof.
  intros nb.
  exists (default (mkDF (RangeIndex 0) ∅) (heap nb !! 3%positive)).
  destruct (df_model_is_a_copy [StageClicked; StageAB; StageCTR] nb 1%positive 3%positive
              (default (mkDF (RangeIndex 0) ∅) (heap nb !! 3%positive)))
    as [_ H]; [vm_compute; reflexivity|vm_compute; reflexivity|done
              |vm_compute; reflexivity
              |do 3 (constructor; [auto|]); constructor|].
  split; [vm_compute; reflexivity|exact H].
Defined.
(** ** The area under the ROC curve *)

Section sums.
Local Open Scope Z_scope.

Lemma sum_Z_app l1 l2 : sum_Z (l1 ++ l2) = sum_Z l1 + sum_Z l2.
Proof. induction l1 as [|x l1 IH]; simpl; lia. Qed.

Lemma sum_Z_Permutation l1 l2 : l1 ≡ₚ l2 → sum_Z l1 = sum_Z l2.
Proof. induction 1; simpl; lia. Qed.

Lemma sum_Z_const (c : Z) {A} (f : A → Z) (l : list A) :
  (∀ x, x ∈ l → f x = c) → sum_Z (f <$> l) = c * Z.of_nat (length l).
Proof.
  induction l as [|x l IH]; intros Hc; csimpl; [lia|].
  rewrite Hc by left. rewrite IH by (intros; apply Hc; by right). lia.
Qed.

Lemma ranked_pairs2_nil_l neg : ranked_pairs2 [] neg = 0.
Proof. done. Qed.

Lemma ranked_pairs2_app_l pos1 pos2 neg :
  ranked_pairs2 (pos1 ++ pos2) neg = ranked_pairs2 pos1 neg + ranked_pairs2 pos2 neg.
Proof. unfold ranked_pairs2. by rewrite fmap_app, sum_Z_app. Qed.

Lemma ranked_pairs2_app_r pos neg1 neg2 :
  ranked_pairs2 pos (neg1 ++ neg2) = ranked_pairs2 pos neg1 + ranked_pairs2 pos neg2.
Proof.
  unfold ranked_pairs2. induction pos as [|p pos IH]; csimpl; [done|].
  rewrite IH, fmap_app, sum_Z_app. lia.
Qed.

Lemma ranked_pairs2_Permutation pos pos' neg neg' :
  pos ≡ₚ pos' → neg ≡ₚ neg' → ranked_pairs2 pos neg = ranked_pairs2 pos' neg'.
Proof.
  intros Hp Hn. unfold ranked_pairs2.
  transitivity (sum_Z ((λ sp, sum_Z (pair_credit sp <$> neg')) <$> pos)).
  - f_equal. apply list_fmap_ext. intros _ sp _.
    apply sum_Z_Permutation. by rewrite Hn.
  - apply sum_Z_Permutation. by rewrite Hp.
Qed.

(** Every pair has the same credit [c]. *)
Lemma ranked_pairs2_const c pos neg :
  (∀ sp sn, sp ∈ pos → sn ∈ neg → pair_credit sp sn = c) →
  ranked_pairs2 pos neg = c * Z.of_nat (length pos) * Z.of_nat (length neg).
Proof.
  intros Hc. unfold ranked_pairs2.
  rewrite (sum_Z_const (c * Z.of_nat (length neg))); [lia|].
  intros sp Hsp. apply sum_Z_const. intros sn Hsn. by apply Hc.
Qed.

End sums.

Lemma pos_scores_app l1 l2 : pos_scores (l1 ++ l2) = pos_scores l1 ++ pos_scores l2.
Proof. unfold pos_scores. by rewrite filter_app, fmap_app. Qed.

Lemma neg_scores_app l1 l2 : neg_scores (l1 ++ l2) = neg_scores l1 ++ neg_scores l2.
Proof. unfold neg_scores. by rewrite filter_app, fmap_app. Qed.

Lemma pos_scores_Permutation l1 l2 : l1 ≡ₚ l2 → pos_scores l1 ≡ₚ pos_scores l2.
Proof. intros H. unfold pos_scores. by rewrite H. Qed.

Lemma neg_scores_Permutation l1 l2 : l1 ≡ₚ l2 → neg_scores l1 ≡ₚ neg_scores l2.
Proof. intros H. unfold neg_scores. by rewrite H. Qed.

Lemma ranking2_Permutation l1 l2 : l1 ≡ₚ l2 → ranking2 l1 = ranking2 l2.
Proof.
  intros H. apply ranked_pairs2_Permutation;
    [by apply pos_scores_Permutation|by apply neg_scores_Permutation].
Qed.

Lemma pos_scores_elem l s : s ∈ pos_scores l ↔ (s, true) ∈ l.
Proof.
  unfold pos_scores. rewrite list_elem_of_fmap. split.
  - intros ([s' y] & -> & [Hy Hin]%list_elem_of_filter). simpl in *. by subst.
  - intros Hin. exists (s, true). split; [done|]. by apply list_elem_of_filter.
Qed.

Lemma neg_scores_elem l s : s ∈ neg_scores l ↔ (s, false) ∈ l.
Proof.
  unfold neg_scores. rewrite list_elem_of_fmap. split.
  - intros ([s' y] & -> & [Hy Hin]%list_elem_of_filter). simpl in *. by subst.
  - intros Hin. exists (s, false). split; [done|]. by apply list_elem_of_filter.
Qed.

Lemma scores_length l : length (pos_scores l) + length (neg_scores l) = length l.
Proof.
  unfold pos_scores, neg_scores. rewrite !length_fmap.
  induction l as [|[s y] l IH]; [done|]. rewrite !filter_cons.
  destruct y; simpl; repeat case_decide; try done; simpl; lia.
Qed.

(** *** The walk computes what numpy's index arrays compute *)

Lemma np_select_cons {A} (m : bool) mask (x : A) l :
  np_select (m :: mask) (x :: l) = (if m then [x] else []) ++ np_select mask l.
Proof.
  unfold np_select. simpl. rewrite filter_cons. destruct m; simpl; try case_decide; done.
Qed.

Lemma np_select_nil_r {A} mask : np_select mask (@nil A) = [].
Proof. unfold np_select. by destruct mask. Qed.

Lemma np_select_fmap {A B} (f : A → B) mask l :
  np_select mask (f <$> l) = f <$> np_select mask l.
Proof.
  revert mask. induction l as [|x l IH]; intros [|m mask]; try done.
  csimpl. rewrite !np_select_cons, IH, fmap_app. by destruct m.
Qed.

Lemma np_select_zip {A B} mask (a : list A) (b : list B) :
  np_select mask (zip a b) = zip (np_select mask a) (np_select mask b).
Proof.
  revert mask b. induction a as [|x a IH]; intros [|m mask] [|y b]; try done.
  - simpl. rewrite np_select_nil_r. by destruct (np_select _ _).
  - simpl. rewrite !np_select_cons, IH. by destruct m.
Qed.

Lemma np_select_length {A B} mask (a : list A) (b : list B) :
  length a = length b → length (np_select mask a) = length (np_select mask b).
Proof.
  revert mask b. induction a as [|x a IH]; intros mask [|y b] Hlen; try done.
  - by rewrite !np_select_nil_r.
  - destruct mask as [|m mask]; [done|].
    rewrite !np_select_cons, !length_app, (IH mask b) by naive_solver.
    by destruct m.
Qed.

Lemma cumsum_from_length c a : length (cumsum_from c a) = length a.
Proof. revert c. induction a as [|x a IH]; intros c; simpl; by rewrite ?IH. Qed.

Lemma threshold_mask_cons2 s s' l :
  threshold_mask (s :: s' :: l) = negb (Qeq_bool s s') :: threshold_mask (s' :: l).
Proof. done. Qed.

(** The points of [_binary_clf_curve] on samples already sorted, [k] samples
    of which [c] positives having been passed. *)
Lemma clf_points_from (l : list (Q * bool)) (k : nat) (c : Z) :
  let mask := threshold_mask l.*1 in
  let idxs := np_select mask (Z.of_nat <$> seq k (length l.*2)) in
  let tps := np_select mask (cumsum_from c (Z.b2z <$> l.*2)) in
  zip (zip_with (λ i t, 1 + i - t)%Z idxs tps) tps
    = points_from (Z.of_nat k - c) c l.
Proof.
  revert k c. induction l as [|[s y] l IH]; intros k c; [done|].
  destruct l as [|[s' y'] l].
  - cbn. case_decide; [|done]. cbn. do 2 f_equal; destruct y; simpl; lia.
  - cbn zeta in IH |- *. specialize (IH (S k) (c + Z.b2z y)%Z).
    change (((s, y) :: (s', y') :: l).*1) with (s :: s' :: l.*1).
    change (((s, y) :: (s', y') :: l).*2) with (y :: ((s', y') :: l).*2).
    rewrite threshold_mask_cons2. cbn [length seq fmap list_fmap cumsum_from].
    rewrite !np_select_cons.
    change (threshold_mask (s' :: l.*1)) with (threshold_mask ((s', y') :: l).*1).
    change (points_from (Z.of_nat k - c) c ((s, y) :: (s', y') :: l))
      with (if Qeq_bool s s'
            then points_from (if y then Z.of_nat k - c else Z.of_nat k - c + 1)%Z
                   (if y then c + 1 else c)%Z ((s', y') :: l)
            else ((if y then Z.of_nat k - c else Z.of_nat k - c + 1)%Z,
                  (if y then c + 1 else c)%Z)
                 :: points_from (if y then Z.of_nat k - c else Z.of_nat k - c + 1)%Z
                      (if y then c + 1 else c)%Z ((s', y') :: l)).
    assert ((if y then Z.of_nat k - c else Z.of_nat k - c + 1)
            = Z.of_nat (S k) - (c + Z.b2z y))%Z as -> by (destruct y; simpl; lia).
    assert ((if y then c + 1 else c) = c + Z.b2z y)%Z as -> by (destruct y; simpl; lia).
    destruct (Qeq_bool s s'); cbn [negb app].
    + exact IH.
    + cbn [zip_with zip]. f_equal; [f_equal; lia | exact IH].
Qed.

Lemma binary_clf_curve_points y_true y_score :
  let pts := points_from 0 0 (rev (merge_sort score_le (zip y_score y_true))) in
  binary_clf_curve y_true y_score = (pts.*1, pts.*2).
Proof.
  intros pts. unfold binary_clf_curve.
  set (l := rev (merge_sort score_le (zip y_score y_true))) in *.
  pose proof (clf_points_from l 0 0) as H. cbn zeta in H.
  change (Z.of_nat 0 - 0)%Z with 0%Z in H. fold pts in H.
  fold (np_cumsum (Z.b2z <$> l.*2)) in H.
  set (idxs := np_select _ (Z.of_nat <$> _)) in *.
  set (tps := np_select _ (np_cumsum _)) in *.
  assert (length idxs = length tps) as Hlen.
  { apply np_select_length. unfold np_cumsum.
    rewrite length_fmap, length_seq, cumsum_from_length. symmetry. apply length_fmap. }
  rewrite <- H. f_equal.
  - rewrite fst_zip; [done|]. rewrite length_zip_with. lia.
  - rewrite snd_zip; [done|]. rewrite length_zip_with. lia.
Qed.

(** *** The area under the walk is the ranking statistic *)

Lemma pair_credit_Qeq_l s s' t : (s == s')%Q → pair_credit s t = pair_credit s' t.
Proof. intros H. unfold pair_credit. by rewrite H. Qed.

Lemma pair_credit_Qeq_r s s' t : (s == s')%Q → pair_credit t s = pair_credit t s'.
Proof. intros H. unfold pair_credit. by rewrite H. Qed.

Lemma pair_credit_tie s s' : (s == s')%Q → pair_credit s s' = 1%Z.
Proof. intros H. unfold pair_credit. by rewrite (proj1 (Qeq_alt _ _) H). Qed.

Lemma pair_credit_above s s' : (s' < s)%Q → pair_credit s s' = 2%Z.
Proof. intros H. unfold pair_credit. by rewrite (proj1 (Qgt_alt _ _) H). Qed.

Lemma pair_credit_below s s' : (s < s')%Q → pair_credit s s' = 0%Z.
Proof. intros H. unfold pair_credit. by rewrite (proj1 (Qlt_alt _ _) H). Qed.

Lemma pos_scores_cons s y l :
  pos_scores ((s, y) :: l) = if y then s :: pos_scores l else pos_scores l.
Proof. unfold pos_scores. rewrite filter_cons. destruct y; simpl; try case_decide; done. Qed.

Lemma neg_scores_cons s y l :
  neg_scores ((s, y) :: l) = if y then neg_scores l else s :: neg_scores l.
Proof. unfold neg_scores. rewrite filter_cons. destruct y; simpl; try case_decide; done. Qed.

Lemma credit_over_cons s s' y l :
  credit_over s ((s', y) :: l)
    = ((if y then 0 else pair_credit s s') + credit_over s l)%Z.
Proof. unfold credit_over. rewrite neg_scores_cons. by destruct y. Qed.

Lemma credit_under_cons s s' y l :
  credit_under ((s', y) :: l) s
    = ((if y then pair_credit s' s else 0) + credit_under l s)%Z.
Proof. unfold credit_under. rewrite pos_scores_cons. by destruct y. Qed.

Lemma count_pos_cons s y l :
  count_pos ((s, y) :: l) = ((if y then 1 else 0) + count_pos l)%Z.
Proof. unfold count_pos. rewrite pos_scores_cons. destruct y; simpl length; lia. Qed.

Lemma count_neg_cons s y l :
  count_neg ((s, y) :: l) = ((if y then 0 else 1) + count_neg l)%Z.
Proof. unfold count_neg. rewrite neg_scores_cons. destruct y; simpl length; lia. Qed.

Lemma sum_Z_cons x l : sum_Z (x :: l) = (x + sum_Z l)%Z.
Proof. done. Qed.

Lemma ranked_pairs2_cons_r ps s ns :
  ranked_pairs2 ps (s :: ns)
    = (sum_Z ((λ sp, pair_credit sp s) <$> ps) + ranked_pairs2 ps ns)%Z.
Proof.
  unfold ranked_pairs2. induction ps as [|p ps IH]; [done|].
  rewrite !fmap_cons, !sum_Z_cons, IH. cbv beta.
  rewrite ?fmap_cons, ?sum_Z_cons. lia.
Qed.

Lemma ranking2_cons s y l :
  ranking2 ((s, y) :: l)
    = ((if y then credit_over s l else credit_under l s) + ranking2 l)%Z.
Proof.
  unfold ranking2. rewrite pos_scores_cons, neg_scores_cons. destruct y.
  - done.
  - by rewrite ranked_pairs2_cons_r.
Qed.

Lemma credit_over_Qeq s s' l : (s == s')%Q → credit_over s l = credit_over s' l.
Proof.
  intros H. unfold credit_over. f_equal. apply list_fmap_ext.
  intros _ t _. by apply pair_credit_Qeq_l.
Qed.

Lemma credit_under_Qeq s s' l : (s == s')%Q → credit_under l s = credit_under l s'.
Proof.
  intros H. unfold credit_under. f_equal. apply list_fmap_ext.
  intros _ t _. by apply pair_credit_Qeq_r.
Qed.

Lemma credit_over_above s l :
  Forall (λ e : Q * bool, e.1 < s)%Q l → credit_over s l = (2 * count_neg l)%Z.
Proof.
  induction 1 as [|[s' y] l Hs _ IH]; [done|].
  rewrite credit_over_cons, count_neg_cons, IH. destruct y; [lia|].
  rewrite pair_credit_above by done. lia.
Qed.

Lemma credit_under_above s l :
  Forall (λ e : Q * bool, e.1 < s)%Q l → credit_under l s = 0%Z.
Proof.
  induction 1 as [|[s' y] l Hs _ IH]; [done|].
  rewrite credit_under_cons, IH. destruct y; [|lia].
  rewrite pair_credit_below by done. lia.
Qed.

Lemma area2_cons2 a b l :
  area2 (a :: b :: l) = (trapezium2 a b + area2 (b :: l))%Z.
Proof. done. Qed.

Lemma points_from_cons2 fp tp s y s' y' l :
  points_from fp tp ((s, y) :: (s', y') :: l)
    = let fp' := (if y then fp else fp + 1)%Z in
      let tp' := (if y then tp + 1 else tp)%Z in
      if Qeq_bool s s' then points_from fp' tp' ((s', y') :: l)
      else (fp', tp') :: points_from fp' tp' ((s', y') :: l).
Proof. done. Qed.

(** The walk from [(fx, tx)], with [q] negatives and [p] positives of the
    current run of equal scores already passed. *)
Lemma area2_points_from l s y fx tx p q :
  descending ((s, y) :: l) →
  area2 ((fx, tx) :: points_from (fx + q) (tx + p) ((s, y) :: l))
    = (p * q + p * credit_over s ((s, y) :: l) + q * credit_under ((s, y) :: l) s
       + ranking2 ((s, y) :: l) + 2 * tx * (q + count_neg ((s, y) :: l)))%Z.
Proof.
  revert s y fx tx p q. induction l as [|[s' y'] l IH]; intros s y fx tx p q Hd.
  - rewrite credit_over_cons, credit_under_cons, ranking2_cons, count_neg_cons.
    change (area2 _) with
      (((if y then fx + q else fx + q + 1) - fx)
       * ((if y then tx + p + 1 else tx + p) + tx) + 0)%Z.
    rewrite (pair_credit_tie s s) by reflexivity.
    change (credit_over s []) with 0%Z. change (credit_under [] s) with 0%Z.
    change (ranking2 []) with 0%Z. change (count_neg []) with 0%Z.
    destruct y; lia.
  - apply StronglySorted_cons in Hd as [Hall Hd].
    rewrite points_from_cons2. cbn zeta.
    rewrite (credit_over_cons s s y), (credit_under_cons s s y),
      (ranking2_cons s y), (count_neg_cons s y).
    rewrite (pair_credit_tie s s) by reflexivity.
    destruct (Qeq_bool s s') eqn:Heq.
    + apply Qeq_bool_iff in Heq.
      rewrite (credit_over_Qeq s s') by done.
      rewrite (credit_under_Qeq s s') by done.
      replace (if y then fx + q else fx + q + 1)%Z
        with (fx + (if y then q else q + 1))%Z by (destruct y; lia).
      replace (if y then tx + p + 1 else tx + p)%Z
        with (tx + (if y then p + 1 else p))%Z by (destruct y; lia).
      rewrite (IH s' y') by done.
      destruct y; lia.
    + assert (s' < s)%Q as Hlt.
      { apply Forall_cons in Hall as [Hle _]. simpl in Hle.
        apply Qle_lteq in Hle as [?|He]; [done|].
        symmetry in He. apply Qeq_bool_iff in He. congruence. }
      assert (Forall (λ e : Q * bool, e.1 < s)%Q ((s', y') :: l)) as Hlow.
      { apply Forall_cons. split; [done|].
        apply StronglySorted_cons in Hd as [Hall' _].
        eapply Forall_impl; [exact Hall'|]. intros e He. simpl in He.
        by eapply Qle_lt_trans. }
      rewrite (credit_over_above s) by done.
      rewrite (credit_under_above s) by done.
      rewrite area2_cons2.
      pose proof (IH s' y' (if y then fx + q else fx + q + 1)%Z
                    (if y then tx + p + 1 else tx + p)%Z 0%Z 0%Z Hd) as IH'.
      rewrite !Z.add_0_r in IH'. rewrite IH'.
      unfold trapezium2. cbn [fst snd].
      destruct y; lia.
Qed.

Lemma area2_curve l :
  descending l → area2 ((0, 0)%Z :: points_from 0 0 l) = ranking2 l.
Proof.
  intros Hd. destruct l as [|[s y] l]; [done|].
  change (area2 ((0, 0)%Z :: points_from (0 + 0) (0 + 0) ((s, y) :: l)) = ranking2 ((s, y) :: l)).
  rewrite area2_points_from by done. lia.
Qed.

(** *** [drop_intermediate] keeps the area *)

Lemma trapezium2_collinear K a b n :
  (a.1 - K.1 = n * (b.1 - a.1))%Z → (a.2 - K.2 = n * (b.2 - a.2))%Z →
  trapezium2 K b = (trapezium2 K a + trapezium2 a b)%Z.
Proof.
  destruct K as [k1 k2], a as [a1 a2], b as [b1 b2]. unfold trapezium2. simpl.
  intros H1 H2.
  assert (k1 = a1 - n * (b1 - a1))%Z as -> by lia.
  assert (k2 = a2 - n * (b2 - a2))%Z as -> by lia.
  ring.
Qed.

Lemma trapezium2_diag a : trapezium2 a a = 0%Z.
Proof. unfold trapezium2. lia. Qed.

Lemma kept_after_cons2 a b c l :
  kept_after a (b :: c :: l)
    = if same_step a b c then kept_after b (c :: l) else b :: kept_after b (c :: l).
Proof. done. Qed.

(** [K] is the last point kept, [a] the last point passed; the points
    passed since [K] were dropped, so they lie on one line with the next. *)
Lemma kept_after_area l K a n :
  match l with
  | b :: _ => (a.1 - K.1 = n * (b.1 - a.1) ∧ a.2 - K.2 = n * (b.2 - a.2))%Z
  | [] => K = a
  end →
  area2 (K :: kept_after a l) = (trapezium2 K a + area2 (a :: l))%Z.
Proof.
  revert K a n. induction l as [|b l IH]; intros K a n H.
  - subst. simpl. by rewrite trapezium2_diag.
  - destruct H as [H1 H2]. destruct l as [|c l].
    + simpl kept_after. rewrite !area2_cons2.
      rewrite (trapezium2_collinear K a b n) by done. simpl. lia.
    + rewrite kept_after_cons2, (area2_cons2 a b).
      destruct (same_step a b c) eqn:Hs.
      * unfold same_step in Hs. apply bool_decide_eq_true in Hs as [Hs1 Hs2].
        rewrite (IH K b (n + 1)%Z) by (split; lia).
        rewrite (trapezium2_collinear K a b n) by done. lia.
      * rewrite area2_cons2, (IH b b 0%Z) by (split; lia).
        rewrite (trapezium2_collinear K a b n), trapezium2_diag by done. lia.
Qed.

Lemma area2_kept_points l :
  area2 ((0, 0)%Z :: kept_points l) = area2 ((0, 0)%Z :: l).
Proof.
  destruct l as [|a l]; [done|]. unfold kept_points. rewrite !area2_cons2. f_equal.
  rewrite (kept_after_area l a a 0%Z), trapezium2_diag; [done|].
  destruct l; [done|]. split; lia.
Qed.

(** The mask of [np.diff(., 2)] marks the points [kept_after] keeps. *)
Lemma np_diff_cons2 a b l : np_diff (a :: b :: l) = (b - a)%Z :: np_diff (b :: l).
Proof. done. Qed.

Lemma select_kept_after l a b :
  np_select
    (zip_with orb
       ((λ d, negb (d =? 0)%Z) <$> np_diff (np_diff (a.1 :: b.1 :: l.*1)))
       ((λ d, negb (d =? 0)%Z) <$> np_diff (np_diff (a.2 :: b.2 :: l.*2)))
     ++ [true]) (b :: l)
  = kept_after a (b :: l).
Proof.
  revert a b. induction l as [|c l IH]; intros a b.
  - simpl. by rewrite np_select_cons, np_select_nil_r.
  - rewrite !fmap_cons, kept_after_cons2.
    rewrite (np_diff_cons2 a.1), (np_diff_cons2 a.2).
    rewrite (np_diff_cons2 b.1), (np_diff_cons2 b.2).
    rewrite !np_diff_cons2. rewrite <- (np_diff_cons2 b.1), <- (np_diff_cons2 b.2).
    rewrite !fmap_cons. cbn [zip_with app].
    rewrite np_select_cons, IH. unfold same_step.
    destruct (Z.eqb_spec (c.1 - b.1 - (b.1 - a.1)) 0),
      (Z.eqb_spec (c.2 - b.2 - (b.2 - a.2)) 0);
      case_bool_decide; simpl; try done; lia.
Qed.

Lemma drop_intermediate_points (pts : list (Z * Z)) :
  drop_intermediate pts.*1 pts.*2 = ((kept_points pts).*1, (kept_points pts).*2).
Proof.
  unfold drop_intermediate. case_decide as Hlen.
  - destruct pts as [|a [|b pts]]; simpl in Hlen; try lia.
    assert (np_select (optimal_mask (a :: b :: pts).*1 (a :: b :: pts).*2)
              (a :: b :: pts) = kept_points (a :: b :: pts)) as Hsel.
    { unfold optimal_mask.
      change ((a :: b :: pts).*1) with (a.1 :: b.1 :: pts.*1).
      change ((a :: b :: pts).*2) with (a.2 :: b.2 :: pts.*2).
      rewrite np_select_cons. cbn [app]. by rewrite select_kept_after. }
    by rewrite !np_select_fmap, Hsel.
  - destruct pts as [|a [|b [|c pts]]]; simpl in Hlen; try done. lia.
Qed.

(** The last point and the order of the points. *)
Lemma kept_after_nonempty l a : l ≠ [] → kept_after a l ≠ [].
Proof.
  revert a. induction l as [|b l IH]; intros a Hne; [done|].
  destruct l as [|c l]; [done|].
  rewrite kept_after_cons2. destruct (same_step a b c); [|done]. by apply IH.
Qed.

Lemma last_kept_after l a d : List.last (kept_after a l) d = List.last l d.
Proof.
  revert a. induction l as [|b l IH]; intros a; [done|].
  destruct l as [|c l]; [done|].
  rewrite kept_after_cons2. destruct (same_step a b c).
  - by rewrite IH.
  - change (List.last (b :: c :: l) d) with (List.last (c :: l) d).
    rewrite <- (IH b).
    pose proof (kept_after_nonempty (c :: l) b) as Hne.
    destruct (kept_after b (c :: l)); [by destruct Hne|done].
Qed.

Lemma points_from_nonempty l fp tp : l ≠ [] → points_from fp tp l ≠ [].
Proof.
  revert fp tp. induction l as [|[s y] l IH]; intros fp tp Hne; [done|].
  destruct l as [|[s' y'] l]; [done|].
  rewrite points_from_cons2. cbn zeta. destruct (Qeq_bool s s'); [|done].
  by apply IH.
Qed.

Lemma last_points_from l fp tp d :
  l ≠ [] →
  List.last (points_from fp tp l) d = (fp + count_neg l, tp + count_pos l)%Z.
Proof.
  revert fp tp. induction l as [|[s y] l IH]; intros fp tp Hne; [done|].
  rewrite count_neg_cons, count_pos_cons. destruct l as [|[s' y'] l].
  - change (count_neg []) with 0%Z. change (count_pos []) with 0%Z.
    cbn [points_from List.last]. apply pair_equal_spec. destruct y; lia.
  - rewrite points_from_cons2. cbn zeta.
    assert (List.last (points_from (if y then fp else fp + 1)
                         (if y then tp + 1 else tp) ((s', y') :: l)) d
            = ((fp + ((if y then 0 else 1) + count_neg ((s', y') :: l)))%Z,
               (tp + ((if y then 1 else 0) + count_pos ((s', y') :: l)))%Z)) as H.
    { rewrite IH by done. apply pair_equal_spec. destruct y; lia. }
    destruct (Qeq_bool s s'); [done|].
    rewrite <- H.
    pose proof (points_from_nonempty ((s', y') :: l) (if y then fp else fp + 1)%Z
                  (if y then tp + 1 else tp)%Z) as Hne'.
    destruct (points_from _ _ ((s', y') :: l)); [by destruct Hne'|done].
Qed.

Lemma points_from_lower l fp tp :
  Forall (λ b : Z * Z, fp ≤ b.1)%Z (points_from fp tp l).
Proof.
  revert fp tp. induction l as [|[s y] l IH]; intros fp tp; [constructor|].
  destruct l as [|[s' y'] l].
  - simpl. repeat constructor. simpl. destruct y; lia.
  - rewrite points_from_cons2. cbn zeta.
    assert (Forall (λ b : Z * Z, fp ≤ b.1)%Z
              (points_from (if y then fp else fp + 1)%Z
                 (if y then tp + 1 else tp)%Z ((s', y') :: l))) as H.
    { eapply Forall_impl; [apply IH|]. intros b Hb. simpl in Hb. destruct y; lia. }
    destruct (Qeq_bool s s'); [done|].
    constructor; [|done]. simpl. destruct y; lia.
Qed.

Lemma points_from_rightwards l fp tp : rightwards (points_from fp tp l).
Proof.
  revert fp tp. induction l as [|[s y] l IH]; intros fp tp; [constructor|].
  destruct l as [|[s' y'] l].
  - simpl. repeat constructor.
  - rewrite points_from_cons2. cbn zeta. destruct (Qeq_bool s s'); [apply IH|].
    constructor; [apply IH|apply points_from_lower].
Qed.

Lemma kept_after_Forall (P : Z * Z → Prop) a l :
  Forall P l → Forall P (kept_after a l).
Proof.
  revert a. induction l as [|b l IH]; intros a Hl; [constructor|].
  destruct l as [|c l]; [done|].
  apply Forall_cons in Hl as [Hb Hl].
  rewrite kept_after_cons2. destruct (same_step a b c); [by apply IH|].
  constructor; [done|by apply IH].
Qed.

Lemma kept_after_rightwards a l : rightwards l → rightwards (kept_after a l).
Proof.
  revert a. induction l as [|b l IH]; intros a Hl; [constructor|].
  destruct l as [|c l]; [done|].
  apply StronglySorted_cons in Hl as [Hb Hl].
  rewrite kept_after_cons2. destruct (same_step a b c); [by apply IH|].
  constructor; [by apply IH|by apply kept_after_Forall].
Qed.

Lemma kept_points_rightwards l :
  rightwards ((0, 0)%Z :: l) → rightwards ((0, 0)%Z :: kept_points l).
Proof.
  intros H. destruct l as [|a l]; [done|]. unfold kept_points.
  apply StronglySorted_cons in H as [H0 H].
  apply Forall_cons in H0 as [H0 H0'].
  apply StronglySorted_cons in H as [Ha H].
  constructor.
  - constructor; [by apply kept_after_rightwards|by apply kept_after_Forall].
  - constructor; [done|by apply kept_after_Forall].
Qed.

(** *** The sorted samples *)

Lemma score_le_trans : Transitive score_le.
Proof. intros a b c. unfold score_le. apply Qle_trans. Qed.

Lemma score_le_total : Total score_le.
Proof.
  intros a b. unfold score_le.
  destruct (Qlt_le_dec a.1 b.1); [left; by apply Qlt_le_weak|by right].
Qed.

Lemma StronglySorted_rev {A} (R : relation A) (l : list A) :
  StronglySorted R l → StronglySorted (flip R) (rev l).
Proof.
  induction 1 as [|x l Hl IH Hx]; simpl; [constructor|].
  apply StronglySorted_app. split_and!; [|done|repeat constructor].
  intros x1 x2 H1 H2. apply list_elem_of_singleton in H2 as ->.
  rewrite <- Permutation_rev in H1. rewrite Forall_forall in Hx. by apply Hx.
Qed.

Lemma sorted_samples (l : list (Q * bool)) :
  descending (rev (merge_sort score_le l)) ∧ rev (merge_sort score_le l) ≡ₚ l.
Proof.
  split.
  - apply (StronglySorted_rev score_le).
    apply (StronglySorted_merge_sort score_le (Transitive0 := score_le_trans)
             (Total0 := score_le_total)).
  - by rewrite <- Permutation_rev, merge_sort_Permutation.
Qed.

Lemma count_pos_Permutation l1 l2 : l1 ≡ₚ l2 → count_pos l1 = count_pos l2.
Proof. intros H. unfold count_pos. by rewrite (pos_scores_Permutation _ _ H). Qed.

Lemma count_neg_Permutation l1 l2 : l1 ≡ₚ l2 → count_neg l1 = count_neg l2.
Proof. intros H. unfold count_neg. by rewrite (neg_scores_Permutation _ _ H). Qed.

Lemma count_pos_nonneg l : (0 ≤ count_pos l)%Z.
Proof. unfold count_pos. lia. Qed.

Lemma count_neg_nonneg l : (0 ≤ count_neg l)%Z.
Proof. unfold count_neg. lia. Qed.

(** *** The rates and the trapezoidal rule *)

Lemma np_trapz_cons2 y0 y1 y x0 x1 x :
  np_trapz (y0 :: y1 :: y) (x0 :: x1 :: x)
    = ((x1 - x0) * (y1 + y0) / 2 + np_trapz (y1 :: y) (x1 :: x))%Q.
Proof. done. Qed.

Lemma inject_Z_nonzero n : (0 < n)%Z → ¬ (inject_Z n == 0)%Q.
Proof. intros Hn H. apply (inject_Z_injective n 0) in H. lia. Qed.

Lemma np_trapz_area (pts : list (Z * Z)) (n p : Z) :
  (0 < n)%Z → (0 < p)%Z →
  (np_trapz ((λ t, inject_Z t / inject_Z p) <$> pts.*2)
            ((λ f, inject_Z f / inject_Z n) <$> pts.*1)
   == inject_Z (area2 pts) / inject_Z (2 * p * n))%Q.
Proof.
  intros Hn Hp.
  pose proof (inject_Z_nonzero n Hn) as Hn'. pose proof (inject_Z_nonzero p Hp) as Hp'.
  induction pts as [|a pts IH].
  - simpl. rewrite !inject_Z_mult. by field.
  - destruct pts as [|b pts].
    + simpl. rewrite !inject_Z_mult. by field.
    + cbn [fmap list_fmap fst snd] in IH |- *. rewrite np_trapz_cons2, IH, area2_cons2.
      unfold trapezium2, Z.sub.
      rewrite !inject_Z_plus, !inject_Z_mult, !inject_Z_plus, inject_Z_opp.
      by field.
Qed.

Lemma rates_nondecreasing (pts : list (Z * Z)) (n : Z) :
  (0 < n)%Z → rightwards pts →
  let x := (λ f, inject_Z f / inject_Z n)%Q <$> pts.*1 in
  existsb (λ d, negb (Qle_bool 0 d)) (zip_with Qminus (tail x) x) = false.
Proof.
  intros Hn Hr. cbn zeta. induction pts as [|a pts IH]; [done|].
  destruct pts as [|b pts]; [done|].
  apply StronglySorted_cons in Hr as [Hab Hr]. apply Forall_cons in Hab as [Hab _].
  specialize (IH Hr).
  cbn [fmap list_fmap fst snd tail zip_with existsb] in IH |- *.
  rewrite IH, orb_false_r.
  apply negb_false_iff, Qle_bool_iff. unfold Qminus.
  apply -> Qle_minus_iff. unfold Qdiv. apply Qmult_le_compat_r.
  - rewrite <- Zle_Qle. exact Hab.
  - apply Qinv_le_0_compat. change 0%Q with (inject_Z 0). rewrite <- Zle_Qle. lia.
Qed.

Lemma auc_rates (pts : list (Z * Z)) (n p : Z) :
  (0 < n)%Z → rightwards pts → 2 ≤ length pts →
  auc ((λ f, inject_Z f / inject_Z n)%Q <$> pts.*1)
      ((λ t, inject_Z t / inject_Z p)%Q <$> pts.*2)
    = Ok (np_trapz ((λ t, inject_Z t / inject_Z p)%Q <$> pts.*2)
                   ((λ f, inject_Z f / inject_Z n)%Q <$> pts.*1)).
Proof.
  intros Hn Hr Hlen. unfold auc.
  rewrite decide_False by (rewrite !length_fmap; lia).
  rewrite decide_False by (rewrite !length_fmap; lia).
  cbn zeta. by rewrite rates_nondecreasing.
Qed.

(** *** The curve of a call *)

Lemma last_fmap {A B} (f : A → B) (l : list A) (d : A) :
  List.last (f <$> l) (f d) = f (List.last l d).
Proof.
  induction l as [|x l IH]; [done|]. destruct l as [|x' l]; [done|].
  rewrite !fmap_cons in IH |- *. exact IH.
Qed.

Lemma last_curve (l : list (Q * bool)) :
  List.last ((0, 0)%Z :: kept_points (points_from 0 0 l)) (0, 0)%Z
    = (count_neg l, count_pos l).
Proof.
  destruct l as [|e l]; [done|].
  pose proof (points_from_nonempty (e :: l) 0 0) as Hne.
  pose proof (last_points_from (e :: l) 0 0 (0, 0)%Z) as Hlast.
  destruct (points_from 0 0 (e :: l)) as [|a pts]; [by destruct Hne|].
  rewrite Z.add_0_l in Hlast. rewrite !Z.add_0_l in Hlast.
  rewrite <- Hlast by done. unfold kept_points.
  change (List.last ((0, 0)%Z :: a :: kept_after a pts) (0, 0)%Z)
    with (List.last (a :: kept_after a pts) (0, 0)%Z).
  destruct pts as [|b pts]; [done|].
  pose proof (kept_after_nonempty (b :: pts) a) as Hk.
  pose proof (last_kept_after (b :: pts) a (0, 0)%Z) as Hl.
  destruct (kept_after a (b :: pts)); [by destruct Hk|]. exact Hl.
Qed.

Lemma curve_rightwards (l : list (Q * bool)) :
  rightwards ((0, 0)%Z :: kept_points (points_from 0 0 l)).
Proof.
  apply kept_points_rightwards. constructor.
  - apply points_from_rightwards.
  - apply points_from_lower.
Qed.

Lemma roc_curve_points (y_true : list bool) (y_score : list Q) :
  let l := zip y_score y_true in
  let pts := (0, 0)%Z :: kept_points (points_from 0 0 (rev (merge_sort score_le l))) in
  (0 < count_neg l)%Z → (0 < count_pos l)%Z →
  roc_curve y_true y_score
    = Ok ((λ f, inject_Z f / inject_Z (count_neg l))%Q <$> pts.*1,
          (λ t, inject_Z t / inject_Z (count_pos l))%Q <$> pts.*2).
Proof.
  intros l pts Hn Hp. unfold roc_curve.
  rewrite binary_clf_curve_points. cbv beta iota zeta.
  rewrite drop_intermediate_points. cbv beta iota zeta. fold l.
  destruct (sorted_samples l) as [_ Hperm].
  assert (List.last pts (0, 0)%Z = (count_neg l, count_pos l)) as Hlast.
  { unfold pts. rewrite last_curve.
    by rewrite (count_neg_Permutation _ _ Hperm), (count_pos_Permutation _ _ Hperm). }
  set (k := kept_points _) in *.
  assert (List.last (0%Z :: k.*1) 0%Z = count_neg l) as ->.
  { change (List.last (fst <$> pts) (fst (0, 0)%Z) = count_neg l).
    by rewrite last_fmap, Hlast. }
  assert (List.last (0%Z :: k.*2) 0%Z = count_pos l) as ->.
  { change (List.last (snd <$> pts) (snd (0, 0)%Z) = count_pos l).
    by rewrite last_fmap, Hlast. }
  rewrite decide_False by lia. done.
Qed.

(** *** The score of a call *)

Lemma mapM_finite_score (scores : list Q) : mapM finite_score (Fin <$> scores) = Ok scores.
Proof. apply mapM_result_Ok, Forall2_fmap_l, Forall_Forall2_diag, Forall_true. done. Qed.

Lemma labelled_cons pos c y_true s scores :
  labelled pos (c :: y_true) (s :: scores)
    = (s, bool_decide (c = pos)) :: labelled pos y_true scores.
Proof. done. Qed.

Lemma count_pos_labelled pos y_true scores :
  length y_true = length scores → pos ∈ y_true →
  (0 < count_pos (labelled pos y_true scores))%Z.
Proof.
  revert scores. induction y_true as [|c y_true IH]; intros [|s scores] Hlen Hel;
    try done; [by apply elem_of_nil in Hel|].
  rewrite labelled_cons, count_pos_cons.
  pose proof (count_pos_nonneg (labelled pos y_true scores)).
  case_bool_decide as Hc; [lia|].
  apply elem_of_cons in Hel as [->|Hel]; [done|].
  specialize (IH scores). simpl in Hlen. lapply IH; [|lia]. intros IH'.
  specialize (IH' Hel). lia.
Qed.

Lemma count_neg_labelled pos c y_true scores :
  length y_true = length scores → c ∈ y_true → c ≠ pos →
  (0 < count_neg (labelled pos y_true scores))%Z.
Proof.
  revert scores. induction y_true as [|c' y_true IH]; intros [|s scores] Hlen Hel Hne;
    try done; [by apply elem_of_nil in Hel|].
  rewrite labelled_cons, count_neg_cons.
  pose proof (count_neg_nonneg (labelled pos y_true scores)).
  case_bool_decide as Hc; [|lia].
  apply elem_of_cons in Hel as [->|Hel]; [done|].
  specialize (IH scores). simpl in Hlen. lapply IH; [|lia]. intros IH'.
  specialize (IH' Hel Hne). lia.
Qed.

Lemma roc_auc_score_value (y_true : list Z) (scores : list Q) (neg pos : Z) :
  length y_true = length scores →
  unique_python Z.le y_true = [neg; pos] →
  let l := labelled pos y_true scores in
  (0 < count_pos l)%Z ∧ (0 < count_neg l)%Z ∧
  ∃ a, roc_auc_score y_true (Fin <$> scores) = Ok a ∧
       (a == inject_Z (ranking2 l) / inject_Z (2 * count_pos l * count_neg l))%Q.
Proof.
  intros Hlen Hu l.
  assert (pos ∈ y_true) as Hpos.
  { apply (unique_python_elem Z.le). rewrite Hu. set_solver. }
  assert (neg ∈ y_true) as Hneg.
  { apply (unique_python_elem Z.le). rewrite Hu. set_solver. }
  assert (neg ≠ pos) as Hne.
  { pose proof (unique_python_NoDup Z.le y_true) as Hnd. rewrite Hu in Hnd.
    apply NoDup_cons in Hnd as [Hnd _]. set_solver. }
  assert (0 < count_pos l)%Z as Hp by by apply count_pos_labelled.
  assert (0 < count_neg l)%Z as Hn by by apply (count_neg_labelled pos neg).
  split_and!; [done..|].
  unfold roc_auc_score. rewrite mapM_finite_score, bind_Ok, Hu.
  rewrite decide_True by done.
  rewrite roc_curve_points by done. rewrite bind_Ok.
  fold (labelled pos y_true scores). fold l.
  destruct (sorted_samples l) as [Hd Hperm].
  eexists. split.
  - apply auc_rates; [done|apply curve_rightwards|].
    pose proof (points_from_nonempty (rev (merge_sort score_le l)) 0 0) as Hk.
    destruct (points_from 0 0 (rev (merge_sort score_le l))); simpl; [|lia].
    destruct Hk; [|done]. intros E. rewrite E in Hperm.
    apply Permutation_nil_l in Hperm. unfold count_pos in Hp. rewrite <- Hperm in Hp.
    simpl in Hp. lia.
  - rewrite np_trapz_area by done.
    by rewrite area2_kept_points, area2_curve, (ranking2_Permutation _ _ Hperm).
Qed.

(** *** What the score depends on *)



Lemma ranking2_const c l :
  (∀ sp sn, sp ∈ pos_scores l → sn ∈ neg_scores l → pair_credit sp sn = c) →
  ranking2 l = (c * count_pos l * count_neg l)%Z.
Proof. apply ranked_pairs2_const. Qed.

Lemma labelled_score pos y_true scores s b :
  (s, b) ∈ labelled pos y_true scores → s ∈ scores.
Proof. unfold labelled. apply elem_of_zip_l. Qed.

Lemma pair_credit_increasing (f : Q → Q) a b :
  (∀ x y, x == y → f x == f y)%Q → (∀ x y, x < y → f x < f y)%Q →
  pair_credit (f a) (f b) = pair_credit a b.
Proof.
  intros Heq Hlt. destruct (Q_dec a b) as [[H|H]|H].
  - by rewrite !pair_credit_below by auto.
  - by rewrite !pair_credit_above by auto.
  - by rewrite !pair_credit_tie by auto.
Qed.

Lemma labelled_fmap (f : Q → Q) pos y_true scores :
  labelled pos y_true (f <$> scores) = (λ e : Q * bool, (f e.1, e.2)) <$> labelled pos y_true scores.
Proof.
  unfold labelled. generalize ((λ c, bool_decide (c = pos)) <$> y_true) as bs.
  induction scores as [|s scores IH]; intros [|b bs]; try done.
  csimpl. by rewrite IH.
Qed.

Lemma pos_scores_fmap (f : Q → Q) l :
  pos_scores ((λ e : Q * bool, (f e.1, e.2)) <$> l) = f <$> pos_scores l.
Proof.
  induction l as [|[s y] l IH]; [done|].
  rewrite fmap_cons. cbn [fst snd].
  rewrite !pos_scores_cons, IH. by destruct y.
Qed.

Lemma neg_scores_fmap (f : Q → Q) l :
  neg_scores ((λ e : Q * bool, (f e.1, e.2)) <$> l) = f <$> neg_scores l.
Proof.
  induction l as [|[s y] l IH]; [done|].
  rewrite fmap_cons. cbn [fst snd].
  rewrite !neg_scores_cons, IH. by destruct y.
Qed.

Lemma ranked_pairs2_increasing (f : Q → Q) ps ns :
  (∀ x y, x == y → f x == f y)%Q → (∀ x y, x < y → f x < f y)%Q →
  ranked_pairs2 (f <$> ps) (f <$> ns) = ranked_pairs2 ps ns.
Proof.
  intros Heq Hlt. unfold ranked_pairs2. rewrite <- list_fmap_compose.
  f_equal. apply list_fmap_ext. intros _ sp _. simpl.
  rewrite <- list_fmap_compose. f_equal. apply list_fmap_ext. intros _ sn _.
  by apply pair_credit_increasing.
Qed.


Lemma mapM_finite_score_non_finite (l : list float64) x :
  x ∈ l → (∀ q, x ≠ Fin q) → mapM finite_score l = Raise ValueError.
Proof.
  intros Hx Hn. induction l as [|x' l IH]; [by apply elem_of_nil in Hx|].
  change (mapM finite_score (x' :: l))
    with (y ← finite_score x'; k ← mapM finite_score l; mret (y :: k)).
  apply elem_of_cons in Hx as [<-|Hx].
  - destruct x; try done. by destruct (Hn q).
  - rewrite (IH Hx). by destruct x'.
Qed.



Section two_classes.
Variables (y_true : list Z) (scores : list Q) (neg pos : Z).
Hypothesis Hlen : length y_true = length scores.
Hypothesis Hclasses : unique_python Z.le y_true = [neg; pos].



(** X18: a model that gives every record the same probability scores
  exactly one half. *)
Theorem roc_auc_constant_scores (s0 : Q) :
(∀ s, s ∈ scores → s == s0)%Q →
∃ a, roc_auc_score y_true (Fin <$> scores) = Ok a ∧ (a == 1 # 2)%Q.
Proof.
intros Hconst.
destruct (roc_auc_score_value y_true scores neg pos Hlen Hclasses)
  as (Hp & Hn & a & Ha & Hv).
exists a. split; [done|]. rewrite Hv.
rewrite (ranking2_const 1).
- rewrite !inject_Z_mult. field.
  split; apply inject_Z_nonzero; done.
- intros sp sn Hsp Hsn. apply pair_credit_tie.
  apply pos_scores_elem, labelled_score, Hconst in Hsp.
  apply neg_scores_elem, labelled_score, Hconst in Hsn.
  by rewrite Hsp, Hsn.
Qed.

(** X19: the score depends on the order of the probabilities only: it is
  unchanged when every probability is passed through one strictly
  increasing function. *)
Theorem roc_auc_monotone_invariant (f : Q → Q) :
(∀ x y, x == y → f x == f y)%Q → (∀ x y, x < y → f x < f y)%Q →
∃ a b, roc_auc_score y_true (Fin <$> scores) = Ok a ∧
       roc_auc_score y_true (Fin <$> (f <$> scores)) = Ok b ∧ (a == b)%Q.
Proof.
intros Heq Hlt.
destruct (roc_auc_score_value y_true scores neg pos Hlen Hclasses)
  as (_ & _ & a & Ha & Hva).
assert (length y_true = length (f <$> scores)) as Hlen' by by rewrite length_fmap.
destruct (roc_auc_score_value y_true (f <$> scores) neg pos Hlen' Hclasses)
  as (_ & _ & b & Hb & Hvb).
exists a, b. split_and!; [done..|]. rewrite Hva, Hvb.
unfold ranking2, count_pos, count_neg.
rewrite labelled_fmap, pos_scores_fmap, neg_scores_fmap, !length_fmap.
by rewrite ranked_pairs2_increasing.
Qed.

End two_classes.



(** X22: a NaN or an infinity among the probabilities makes the call raise
    [ValueError], whatever the labels. *)
Theorem roc_auc_non_finite (y_true : list Z) (y_score : list float64) (x : float64) :
  x ∈ y_score → (∀ q, x ≠ Fin q) →
  roc_auc_score y_true y_score = Raise ValueError.
Proof.
  intros Hx Hn. unfold roc_auc_score.
  by rewrite (mapM_finite_score_non_finite _ _ Hx Hn).
Qed.



Lemma roc_auc_constant_scores_witness :
  ∃ a, roc_auc_score [0; 1; 0]%Z (Fin <$> [1 # 2; 2 # 4; 1 # 2]%Q) = Ok a ∧
       (a == 1 # 2)%Q.
Proof.
  apply (roc_auc_constant_scores [0; 1; 0]%Z [1 # 2; 2 # 4; 1 # 2]%Q 0 1)
    with (s0 := (1 # 2)%Q); [by vm_compute..|].
  intros s Hs. repeat (apply elem_of_cons in Hs as [->|Hs]; [by vm_compute|]).
  by apply elem_of_nil in Hs.
Defined.

Lemma roc_auc_monotone_invariant_witness :
  ∃ a b,
    roc_auc_score [0; 0; 1; 1]%Z (Fin <$> [1 # 10; 2 # 5; 7 # 20; 4 # 5]%Q) = Ok a ∧
    roc_auc_score [0; 0; 1; 1]%Z
      (Fin <$> ((λ x, x + 1)%Q <$> [1 # 10; 2 # 5; 7 # 20; 4 # 5]%Q)) = Ok b ∧
    (a == b)%Q.
Proof.
  apply (roc_auc_monotone_invariant [0; 0; 1; 1]%Z
           [1 # 10; 2 # 5; 7 # 20; 4 # 5]%Q 0 1); [by vm_compute..| |].
  - intros x y H. by rewrite H.
  - intros x y H. by apply Qplus_lt_l.
Defined.



Lemma roc_auc_non_finite_witness :
  roc_auc_score [0; 1]%Z [Fin (1 # 5); NaN] = Raise ValueError.
Proof.
  apply (roc_auc_non_finite [0; 1]%Z [Fin (1 # 5); NaN] NaN); [|done].
  repeat constructor.
Defined.
